(** * apply_custom_changes.py: coordinate parsing and position annotation

    A shallow embedding of [src/apply_custom_changes.py] and the proofs of
    the properties stated about it.

    Conventions of the embedding.
    - A Python [str] is the [string] of the bytes of its UTF-8 encoding,
      which is how the documents hold it.  Where the script looks at the
      characters of a string, in [parse_iso6709], the string is read as
      its code points ([code_points]); there [\d] and [float] take the
      decimal digits of every script, ['0'..'9'] among them.
    - A Python [float] is the rational number it stands for ([Q]); binary64
      rounding is not modelled, and numbers are compared with [==].
    - [None] is the [None] of [option].
    - A raised exception is the [Raise] of [result]; the run stops there.
    - The geomagnetic model, the clock, [time.mktime], [round] and [str] on
      floats, and the file system are the [platform] the script runs on. *)

From Stdlib Require Import String Ascii List ZArith QArith Qround Lia Lqa Bool DecimalString Sorted.

From stdpp Require Import base list option.

Open Scope string_scope.

(** ** Exceptions *)

Inductive exn : Type :=
| ValueError (msg : string)
| TypeError (msg : string)
| ZeroDivisionError (msg : string)
| OverflowError (msg : string)
| ParseError (msg : string)
| ModelError (msg : string).

Inductive result (A : Type) : Type :=
| Ok (a : A)
| Raise (e : exn).

Arguments Ok {A} a.

Arguments Raise {A} e.

Definition rbind {A B} (r : result A) (f : A -> result B) : result B :=
  match r with
  | Ok a => f a
  | Raise e => Raise e
  end.

Declare Scope result_scope.

Delimit Scope result_scope with result.

Notation "'let*' x ':=' r 'in' k" := (rbind r (fun x => k))
  (at level 10, x pattern, r at level 100, k at level 200) : result_scope.

(** ** Strings and characters

    The script looks at the characters of a string in one place, the
    coordinate it parses; there the string is read as the sequence of
    its code points. *)

Definition char : Type := N.

Definition str : Type := list char.

(** [ord c] for an ASCII character. *)
Definition ord (c : ascii) : char := N_of_ascii c.

Arguments ord : simpl never.

(** The six bits a continuation byte [10xxxxxx] carries. *)
Definition continuation (b : ascii) : option N :=
  let n := N_of_ascii b in
  if ((128 <=? n) && (n <? 192))%N then Some (n - 128)%N else None.

(** The bits a leading byte carries and the number of continuation bytes
    after it: [110xxxxx], [1110xxxx], [11110xxx]. *)
Definition lead (b : ascii) : option (N * nat) :=
  let n := N_of_ascii b in
  if ((192 <=? n) && (n <? 224))%N then Some (n - 192, 1%nat)%N
  else if ((224 <=? n) && (n <? 240))%N then Some (n - 224, 2%nat)%N
  else if ((240 <=? n) && (n <? 248))%N then Some (n - 240, 3%nat)%N
  else None.

(** The code points that [len] bytes encode: those no fewer bytes
    encode, the surrogates and what lies above U+10FFFF apart. *)
Definition well_encoded (c : N) (len : nat) : bool :=
  match len with
  | 2%nat => (128 <=? c)%N
  | 3%nat => ((2048 <=? c) && negb ((55296 <=? c) && (c <? 57344)))%N
  | 4%nat => ((65536 <=? c) && (c <? 1114112))%N
  | _ => false
  end.

(** A byte that is part of no encoding is read as the lone surrogate
    that [surrogateescape] makes of it, U+DC80 to U+DCFF. *)
Definition escaped (b : ascii) : char := (56320 + N_of_ascii b)%N.

(** [decode_utf8 pending acc need s]: the code points of [s], after the
    bytes [pending] of an encoding that carry [acc] and are [need]
    continuation bytes short. *)
Fixpoint decode_utf8 (pending : list ascii) (acc : N) (need : nat) (s : string)
  : str :=
  match s with
  | EmptyString => List.map escaped pending
  | String b s' =>
      match need, continuation b with
      | S need', Some bits =>
          let acc' := (acc * 64 + bits)%N in
          match need' with
          | O =>
              if well_encoded acc' (S (List.length pending))
              then acc' :: decode_utf8 [] 0 0 s'
              else (List.map escaped (pending ++ [b]) ++ decode_utf8 [] 0 0 s')%list
          | S _ => decode_utf8 (pending ++ [b])%list acc' need' s'
          end
      | _, _ =>
          (List.map escaped pending ++
           (if (N_of_ascii b <? 128)%N then N_of_ascii b :: decode_utf8 [] 0 0 s'
            else
              match lead b with
              | Some (bits, k) => decode_utf8 [b] bits k s'
              | None => escaped b :: decode_utf8 [] 0 0 s'
              end))%list
      end
  end.

(** The code points of a string. *)
Definition code_points (s : string) : str := decode_utf8 [] 0 0 s.

Arguments code_points : simpl never.

Definition byte (n : N) : string := String (ascii_of_N n) EmptyString.

(** The bytes of a code point. *)
Definition encode_char (c : char) : string :=
  (if c <? 128 then byte c
   else if c <? 2048 then byte (192 + c / 64) ++ byte (128 + c mod 64)
   else if (56448 <=? c) && (c <? 56576) then byte (c - 56320)
   else if c <? 65536 then
     byte (224 + c / 4096) ++ byte (128 + (c / 64) mod 64) ++ byte (128 + c mod 64)
   else
     byte (240 + c / 262144) ++ byte (128 + (c / 4096) mod 64) ++
     byte (128 + (c / 64) mod 64) ++ byte (128 + c mod 64))%N.

Definition encode_utf8 (s : str) : string :=
  fold_right (fun c rest => encode_char c ++ rest) EmptyString s.

Fixpoint str_eqb (a b : str) : bool :=
  match a, b with
  | [], [] => true
  | x :: a', y :: b' => (x =? y)%N && str_eqb a' b'
  | _, _ => false
  end.

(** ** Decimal digits

    The decimal digits of Unicode come by tens, from a zero to a nine.
    These are the zeros of Unicode 14.0, the character database of
    Python 3.11 ([unicodedata.unidata_version]): the ASCII digits first,
    then those of other scripts.  A later database adds scripts. *)
Definition decimal_zeros : list char :=
  [ 48; 1632; 1776; 1984; 2406; 2534; 2662; 2790; 2918; 3046; 3174; 3302;
    3430; 3558; 3664; 3792; 3872; 4160; 4240; 6112; 6160; 6470; 6608; 6784;
    6800; 6992; 7088; 7232; 7248; 42528; 43216; 43264; 43472; 43504; 43600;
    44016; 65296; 66720; 68912; 69734; 69872; 69942; 70096; 70384; 70736;
    70864; 71248; 71360; 71472; 71904; 72016; 72784; 73040; 73120; 92768;
    92864; 93008; 120782; 120792; 120802; 120812; 120822; 123200; 123632;
    125264; 130032 ]%N.

(** The value of a decimal digit; [None] for any other character. *)
Definition decimal (c : char) : option Z :=
  match List.find (fun zero => (zero <=? c) && (c <? zero + 10))%N decimal_zeros with
  | Some zero => Some (Z.of_N (c - zero))
  | None => None
  end.

Arguments decimal : simpl never.

(** ** The regular expression engine

    [re] is a backtracking matcher: alternatives are tried in priority
    order (a greedy quantifier tries the longest repetition first) and the
    first complete match wins.  [re_match] is that search in
    continuation-passing style: [k] is the rest of the pattern.  The
    pattern and the subject are [str]: [\d] is a decimal digit of
    Unicode, no [re.ASCII] being given. *)

Module Re.

Inductive cset : Type :=
| Digit                 (* \d *)
| OneOf (cs : str)      (* [...] *)
| Lit (c : char).       (* an escaped or plain character *)

Inductive regex : Type :=
| Bol                                (* ^ *)
| Eol                                (* $ *)
| Chr (c : cset)                     (* one character *)
| Count (n : nat) (c : cset)         (* c{n} *)
| Many1 (c : cset)                   (* c+ *)
| Cat (r1 r2 : regex)                (* r1 r2 *)
| Maybe (r : regex)                  (* r? *)
| NonCapture (r : regex)             (* (?:r) *)
| Named (name : string) (r : regex). (* (?P<name>r) *)

Definition is_digit (a : char) : bool :=
  match decimal a with Some _ => true | None => false end.

Fixpoint mem_string (a : char) (s : str) : bool :=
  match s with
  | [] => false
  | b :: s' => (a =? b)%N || mem_string a s'
  end.

Definition cset_mem (c : cset) (a : char) : bool :=
  match c with
  | Digit => is_digit a
  | OneOf cs => mem_string a cs
  | Lit b => (a =? b)%N
  end.

(** The groups that took part in the match, most recent first. *)
Definition marks : Type := list (string * str).

Fixpoint group (m : marks) (name : string) : option str :=
  match m with
  | [] => None
  | (n, v) :: m' => if String.eqb n name then Some v else group m' name
  end.

Definition cont : Type := str -> marks -> option marks.

(** [consumed s s'] is the part of [s] before its suffix [s']. *)
Definition consumed (s s' : str) : str :=
  firstn (List.length s - List.length s') s.

Fixpoint match_count (n : nat) (c : cset) (s : str) : option str :=
  match n with
  | O => Some s
  | S n' =>
      match s with
      | a :: s' => if cset_mem c a then match_count n' c s' else None
      | [] => None
      end
  end.

Fixpoint match_many1 (c : cset) (s : str) (m : marks) (k : cont)
  : option marks :=
  match s with
  | a :: s' =>
      if cset_mem c a then
        match match_many1 c s' m k with
        | Some r => Some r
        | None => k s' m
        end
      else None
  | [] => None
  end.

Section Subject.

Variable subject : str.

Fixpoint re_match (r : regex) (s : str) (m : marks) (k : cont)
  : option marks :=
  match r with
  | Bol => if (List.length s =? List.length subject)%nat then k s m else None
  | Eol =>
      match s with
      | [] => k s m
      | [a] => if (a =? ord "010")%N then k s m else None
      | _ => None
      end
  | Chr c =>
      match s with
      | a :: s' => if cset_mem c a then k s' m else None
      | [] => None
      end
  | Count n c =>
      match match_count n c s with
      | Some s' => k s' m
      | None => None
      end
  | Many1 c => match_many1 c s m k
  | Cat r1 r2 => re_match r1 s m (fun s' m' => re_match r2 s' m' k)
  | Maybe r' =>
      match re_match r' s m k with
      | Some res => Some res
      | None => k s m
      end
  | NonCapture r' => re_match r' s m k
  | Named name r' =>
      re_match r' s m (fun s' m' => k s' ((name, consumed s s') :: m'))
  end.

End Subject.

(** [re.fullmatch]: the whole subject has to be consumed. *)
Definition at_end : cont :=
  fun s m => match s with [] => Some m | _ => None end.

Definition fullmatch (r : regex) (subject : str) : option marks :=
  re_match subject r subject [] at_end.

End Re.

Import Re.

(** ** parse_iso6709 *)

(** [[+-]] *)
Definition sign : regex := Chr (OneOf [ord "+"; ord "-"]).

(** [(?:\.\d+)?] *)
Definition fraction : regex :=
  Maybe (NonCapture (Cat (Chr (Lit (ord "."))) (Many1 Digit))).

(** [\d{n}(?:\.\d+)?] *)
Definition field (n : nat) : regex := Cat (Count n Digit) fraction.

Definition seq (rs : list regex) (last : regex) : regex :=
  fold_right Cat last rs.

(** The pattern of [parse_iso6709], read with [re.VERBOSE]. *)
Definition pattern : regex :=
  seq [ Bol;
        Named "lat_sign" sign;
        Named "lat_deg" (field 2);
        Maybe (Named "lat_min" (field 2));
        Maybe (Named "lat_sec" (field 2));
        Named "lon_sign" sign;
        Named "lon_deg" (field 3);
        Maybe (Named "lon_min" (field 2));
        Maybe (Named "lon_sec" (field 2));
        Maybe (Named "alt" (seq [sign; Many1 Digit] fraction))
      ] Eol.

(** *** float() on the strings the pattern captures *)

(** [digits acc s]: the number [s] writes in base ten after the digits
    already read into [acc]; [None] when [s] has another character.  A
    digit of any script counts for its value. *)
Fixpoint digits (acc : Z) (s : str) : option Z :=
  match s with
  | [] => Some acc
  | a :: s' =>
      match decimal a with
      | Some d => digits (10 * acc + d)%Z s'
      | None => None
      end
  end.

(** Splits at the first ["."]: the part before, and the part after if any. *)
Fixpoint split_dot (s : str) : str * option str :=
  match s with
  | [] => ([], None)
  | a :: s' =>
      if (a =? ord ".")%N then ([], Some s')
      else let '(i, f) := split_dot s' in (a :: i, f)
  end.

Definition pow10 (n : nat) : positive := Pos.pow 10 (Pos.of_nat n).

Definition unsigned_decimal (s : str) : option Q :=
  let '(i, f) := split_dot s in
  match i, f with
  | [], _ => None
  | _, None => option_map inject_Z (digits 0 i)
  | _, Some [] => None
  | _, Some f =>
      match digits 0 i, digits 0 f with
      | Some iv, Some fv =>
          Some (inject_Z iv + (fv # pow10 (List.length f)))%Q
      | _, _ => None
      end
  end.

Definition signed_decimal (s : str) : option Q :=
  match s with
  | [] => None
  | a :: s' =>
      if (a =? ord "+")%N then unsigned_decimal s'
      else if (a =? ord "-")%N then option_map Qopp (unsigned_decimal s')
      else unsigned_decimal s
  end.

(** [float(x)] for [x] an optional sign, digits, and an optional ["."]
    followed by digits.  Python's [float] reads more notations than that;
    on those this model raises, and [parse_iso6709] never gets there.
    The message quotes the string as [repr] does a string without quote,
    backslash or unprintable character. *)
Definition float (x : option str) : result Q :=
  match x with
  | None =>
      Raise (TypeError
        "float() argument must be a string or a real number, not 'NoneType'")
  | Some s =>
      match signed_decimal s with
      | Some q => Ok q
      | None =>
          Raise (ValueError
            ("could not convert string to float: '" ++ encode_utf8 s ++ "'"))
      end
  end.

(** Truth value of an optional string: [None] and [""] are false. *)
Definition truthy (x : option str) : bool :=
  match x with
  | None | Some [] => false
  | Some _ => true
  end.

Definition py_eq_str (x : option str) (s : string) : bool :=
  match x with
  | Some v => str_eqb v (code_points s)
  | None => false
  end.

Local Open Scope result_scope.

Local Open Scope Q_scope.

Definition parse_iso6709 (coord_str : option string)
  : result (Q * Q * option Q) :=
  match coord_str with
  | None => Raise (TypeError "expected string or bytes-like object, got 'NoneType'")
  | Some coord_str =>
      match fullmatch pattern (code_points coord_str) with
      | None =>
          Raise (ValueError ("Invalid ISO 6709 coordinate format: " ++ coord_str))
      | Some match_ =>
          let lat_sign := if py_eq_str (group match_ "lat_sign") "-" then -1 else 1 in
          let* lat_deg := float (group match_ "lat_deg") in
          let* latitude :=
            if truthy (group match_ "lat_min") then
              let* lat_min := float (group match_ "lat_min") in
              if truthy (group match_ "lat_sec") then
                let* lat_sec := float (group match_ "lat_sec") in
                Ok (lat_sign * (lat_deg + lat_min / 60 + lat_sec / 3600))
              else
                Ok (lat_sign * (lat_deg + lat_min / 60))
            else
              Ok (lat_sign * lat_deg) in
          let lon_sign := if py_eq_str (group match_ "lon_sign") "-" then -1 else 1 in
          let* lon_deg := float (group match_ "lon_deg") in
          let* longitude :=
            if truthy (group match_ "lon_min") then
              let* lon_min := float (group match_ "lon_min") in
              if truthy (group match_ "lon_sec") then
                let* lon_sec := float (group match_ "lon_sec") in
                Ok (lon_sign * (lon_deg + lon_min / 60 + lon_sec / 3600))
              else
                Ok (lon_sign * (lon_deg + lon_min / 60))
            else
              Ok (lon_sign * lon_deg) in
          let* altitude :=
            if truthy (group match_ "alt") then
              let* a := float (group match_ "alt") in Ok (Some a)
            else Ok None in
          Ok (latitude, longitude, altitude)
      end
  end.

(** * Dates and the year fraction *)

Local Open Scope Z_scope.

Record datetime : Type := {
  year : Z; month : Z; day : Z;
  hour : Z; minute : Z; second : Z; microsecond : Z
}.

Definition is_leap (y : Z) : bool :=
  (y mod 4 =? 0) && (negb (y mod 100 =? 0) || (y mod 400 =? 0)).

Definition days_in_month (y m : Z) : Z :=
  if m =? 2 then (if is_leap y then 29 else 28)
  else if (m =? 4) || (m =? 6) || (m =? 9) || (m =? 11) then 30 else 31.

(** Days before January 1st of year [y], counting from 0001-01-01. *)
Definition days_before_year (y : Z) : Z :=
  let y := y - 1 in y * 365 + y / 4 - y / 100 + y / 400.

(** Days of year [y] before the first of month [m]. *)
Definition days_before_month (y m : Z) : Z :=
  fold_right Z.add 0
    (List.map (days_in_month y) (List.map Z.of_nat (List.seq 1 (Z.to_nat (m - 1))))).

Definition ymd2ord (y m d : Z) : Z :=
  days_before_year y + days_before_month y m + d.

Definition string_of_Z (z : Z) : string :=
  NilZero.string_of_int (Z.to_int z).

(** [datetime.datetime(year=y, month=m, day=d)]. *)
Definition datetime_new (y m d : Z) : result datetime :=
  if negb ((1 <=? y) && (y <=? 9999)) then
    Raise (ValueError ("year " ++ string_of_Z y ++ " is out of range"))
  else if negb ((1 <=? m) && (m <=? 12)) then
    Raise (ValueError "month must be in 1..12")
  else if negb ((1 <=? d) && (d <=? days_in_month y m)) then
    Raise (ValueError "day is out of range for month")
  else
    Ok {| year := y; month := m; day := d;
          hour := 0; minute := 0; second := 0; microsecond := 0 |}.

Record struct_time : Type := {
  tm_year : Z; tm_mon : Z; tm_mday : Z;
  tm_hour : Z; tm_min : Z; tm_sec : Z;
  tm_wday : Z; tm_yday : Z; tm_isdst : Z
}.

(** [date.timetuple()] of a naive datetime: the microseconds are dropped
    and the daylight saving flag is unknown. *)
Definition timetuple (date : datetime) : struct_time :=
  {| tm_year := year date; tm_mon := month date; tm_mday := day date;
     tm_hour := hour date; tm_min := minute date; tm_sec := second date;
     tm_wday := (ymd2ord (year date) (month date) (day date) + 6) mod 7;
     tm_yday := days_before_month (year date) (month date) + day date;
     tm_isdst := -1 |}.

(** Float division. *)
Definition py_div (a b : Q) : result Q :=
  if Qeq_bool b 0 then Raise (ZeroDivisionError "float division by zero")
  else Ok (a / b)%Q.

(** ** The platform *)

(** What the script calls and does not define.
    - [geo_mag_calculate glat glon alt time] is the declination [d] of
      [geo_mag.calculate(...)], or what the model raises.
    - [time_mktime] is [time.mktime], in the local time zone.
    - [datetime_today n] is what the clock reads the [n]-th time it is
      asked, counting from 0.
    - [builtin_round] and [builtin_str] are [round] and [str] on floats. *)
Record platform : Type := {
  geo_mag_calculate : Q -> Q -> Q -> Q -> result Q;
  time_mktime : struct_time -> result Q;
  datetime_today : nat -> datetime;
  builtin_round : Q -> Z -> Q;
  builtin_str : Q -> string
}.

(** [time.mktime] where local time is [utcoffset] seconds ahead of UTC
    all year round. *)
Definition mktime_fixed (utcoffset : Z) (t : struct_time) : result Q :=
  Ok (inject_Z
        ((ymd2ord (tm_year t) (tm_mon t) (tm_mday t) - 719163) * 86400
         + tm_hour t * 3600 + tm_min t * 60 + tm_sec t - utcoffset)).

Section YearFraction.

Variable P : platform.

Definition since_epoch (epoch_date : datetime) : result Q :=
  time_mktime P (timetuple epoch_date).

Definition to_year_fraction (date : datetime) : result Q :=
  (let s := since_epoch in
   let year_ := year date in
   let* startOfThisYear := datetime_new year_ 1 1 in
   let* startOfNextYear := datetime_new (year_ + 1) 1 1 in
   let* s_date := s date in
   let* s_this := s startOfThisYear in
   let yearElapsed := (s_date - s_this)%Q in
   let* s_next := s startOfNextYear in
   let* s_this' := s startOfThisYear in
   let yearDuration := (s_next - s_this')%Q in
   let* fraction := py_div yearElapsed yearDuration in
   Ok (inject_Z (year date) + fraction)%Q)%result.

End YearFraction.

(** * The document *)

#[local] Unset Elimination Schemes.

Inductive element : Type :=
  Element (tag : string) (attrib : list (string * string))
          (text_ tail : option string) (children : list element).

#[local] Set Elimination Schemes.

Definition tag (e : element) : string :=
  let 'Element t _ _ _ _ := e in t.

Definition attrib (e : element) : list (string * string) :=
  let 'Element _ a _ _ _ := e in a.

Definition text_ (e : element) : option string :=
  let 'Element _ _ x _ _ := e in x.

Definition tail (e : element) : option string :=
  let 'Element _ _ _ x _ := e in x.

Definition children (e : element) : list element :=
  let 'Element _ _ _ _ c := e in c.

(** A [dict] of strings, in insertion order. *)
Fixpoint dict_get (d : list (string * string)) (key : string) : option string :=
  match d with
  | [] => None
  | (k, v) :: d' => if String.eqb k key then Some v else dict_get d' key
  end.

Fixpoint dict_set (d : list (string * string)) (key value : string)
  : list (string * string) :=
  match d with
  | [] => [(key, value)]
  | (k, v) :: d' =>
      if String.eqb k key then (k, value) :: d'
      else (k, v) :: dict_set d' key value
  end.

(** [Element.get] and [Element.set]. *)
Definition get (e : element) (key : string) : option string :=
  dict_get (attrib e) key.

Definition set (e : element) (key value : string) : element :=
  let 'Element t a x y c := e in Element t (dict_set a key value) x y c.

(** An element of a tree is referred to by the child indices that lead to
    it from the root. *)
Definition ref : Type := list nat.

Fixpoint resolve (tree : element) (r : ref) : option element :=
  match r with
  | [] => Some tree
  | i :: r' =>
      match children tree !! i with
      | Some c => resolve c r'
      | None => None
      end
  end.

(** The tree after [f] has been applied in place to the element at [r]. *)
Fixpoint update (f : element -> element) (tree : element) (r : ref) : element :=
  match r with
  | [] => f tree
  | i :: r' =>
      match children tree !! i with
      | Some c =>
          let 'Element t a x y cs := tree in
          Element t a x y (<[i := update f c r']> cs)
      | None => tree
      end
  end.

Definition ref_get (tree : element) (r : ref) (key : string) : option string :=
  match resolve tree r with
  | Some e => get e key
  | None => None
  end.

Definition ref_set (tree : element) (r : ref) (key value : string) : element :=
  update (fun e => set e key value) tree r.

(** The indices, from [i] on, of the elements of [l] with the tag. *)
Fixpoint tagged (tag_ : string) (i : nat) (l : list element) : list nat :=
  match l with
  | [] => []
  | e :: l' =>
      if String.eqb (tag e) tag_ then i :: tagged tag_ (S i) l'
      else tagged tag_ (S i) l'
  end.

(** [elem.findall(tag)] for the element at [r]: its children with the
    tag, in document order. *)
Definition findall (tree : element) (r : ref) (tag_ : string) : list ref :=
  match resolve tree r with
  | Some e => List.map (fun i => (r ++ [i])%list) (tagged tag_ 0%nat (children e))
  | None => []
  end.

(** * The run *)

(** The state a run reads and writes: the files ([files path] is what
    [ET.parse(path)] gives), how often the clock was read, the calls made
    to the geomagnetic model, oldest first, and the lines printed. *)
Record world : Type := {
  files : string -> result element;
  clock_reads : nat;
  model_calls : list (Q * Q * Q * Q);
  stdout : list string
}.

Definition prog (A : Type) : Type := world -> result A * world.

Definition ret {A} (a : A) : prog A := fun w => (Ok a, w).

Definition bind {A B} (c : prog A) (f : A -> prog B) : prog B :=
  fun w =>
    match c w with
    | (Ok a, w') => f a w'
    | (Raise e, w') => (Raise e, w')
    end.

Definition lift {A} (r : result A) : prog A := fun w => (r, w).

Declare Scope prog_scope.

Delimit Scope prog_scope with prog.

Notation "'let!' x ':=' c 'in' k" := (bind c (fun x => k))
  (at level 10, x pattern, c at level 100, k at level 200) : prog_scope.

(** The line printed at the end of [modify_positions_xml]. *)
Definition success_message (n : nat) (input_file : string) : string :=
  "Successfully updated " ++ string_of_Z (Z.of_nat n)
  ++ " positions in " ++ input_file
  ++ " with magnetic variation calculated and set all rotations to have north as up".

Section Run.

Variable P : platform.

Local Open Scope prog_scope.

(** [datetime.datetime.today()] *)
Definition today : prog datetime :=
  fun w =>
    (Ok (datetime_today P (clock_reads w)),
     {| files := files w; clock_reads := S (clock_reads w);
        model_calls := model_calls w; stdout := stdout w |}).

(** [geo_mag.calculate(glat=.., glon=.., alt=.., time=..).d] *)
Definition calculate (glat glon alt time : Q) : prog Q :=
  fun w =>
    (geo_mag_calculate P glat glon alt time,
     {| files := files w; clock_reads := clock_reads w;
        model_calls := (model_calls w ++ [(glat, glon, alt, time)])%list;
        stdout := stdout w |}).

Definition ET_parse (path : string) : prog element :=
  fun w => (files w path, w).

Definition ET_write (path : string) (tree : element) : prog unit :=
  fun w =>
    (Ok tt,
     {| files := fun p => if String.eqb p path then Ok tree else files w p;
        clock_reads := clock_reads w; model_calls := model_calls w;
        stdout := stdout w |}).

Definition print (line : string) : prog unit :=
  fun w =>
    (Ok tt,
     {| files := files w; clock_reads := clock_reads w;
        model_calls := model_calls w; stdout := (stdout w ++ [line])%list |}).

Definition get_mag_var (latitude longitude altitude : Q) : prog Q :=
  let! now := today in
  let! time := lift (to_year_fraction P now) in
  let! d := calculate latitude longitude altitude time in
  ret d.

Definition get_mag_var_for_iso6709 (coord_str : option string) : prog Q :=
  let! (lat, lon, alt) := lift (parse_iso6709 coord_str) in
  let alt := match alt with None => 0%Q | Some a => a end in
  let! magnetic_variation := get_mag_var lat lon alt in
  ret magnetic_variation.

Definition all_positions (tree : element) : list ref :=
  let root_positions := findall tree [] "Position" in
  let group_positions :=
    flat_map (fun group => findall tree group "Position")
             (findall tree [] "Group") in
  (root_positions ++ group_positions)%list.

(** The body of the loop over [all_positions], for one position. *)
Definition annotate (tree : element) (position : ref) : prog element :=
  let position_name := ref_get tree position "Name" in
  let location := ref_get tree position "DefaultCenter" in
  let! d := get_mag_var_for_iso6709 location in
  let magnetic_variation := (d * -1)%Q in
  let tree := ref_set tree position "MagneticVariation"
                (builtin_str P (builtin_round P magnetic_variation 2)) in
  let tree := ref_set tree position "Rotation" "0" in
  ret tree.

Fixpoint annotate_all (tree : element) (positions : list ref) : prog element :=
  match positions with
  | [] => ret tree
  | position :: rest =>
      let! tree := annotate tree position in
      annotate_all tree rest
  end.

Definition modify_positions_xml (input_file : string) : prog unit :=
  let! tree := ET_parse input_file in
  let positions := all_positions tree in
  let! tree := annotate_all tree positions in
  let! _ := ET_write input_file tree in
  print (success_message (List.length positions) input_file).

End Run.

(** * The profile, the colours and the script *)

(** What a step of the script comes to: besides the exceptions of [exn],
    the [AttributeError] of a method call or an attribute access on
    [None].  Its message depends on the version of Python. *)
Inductive failure : Type :=
| Exn (e : exn)
| AttributeError (msg : string).

Inductive outcome (A : Type) : Type :=
| Done (a : A)
| Failed (e : failure).

Arguments Done {A} a.
Arguments Failed {A} e.

Definition script (A : Type) : Type := world -> outcome A * world.

Definition sret {A} (a : A) : script A := fun w => (Done a, w).

Definition sbind {A B} (c : script A) (f : A -> script B) : script B :=
  fun w =>
    match c w with
    | (Done a, w') => f a w'
    | (Failed e, w') => (Failed e, w')
    end.

Definition sraise {A} (e : failure) : script A := fun w => (Failed e, w).

(** A computation that raises only exceptions of [exn]. *)
Definition run {A} (c : prog A) : script A :=
  fun w =>
    match c w with
    | (Ok a, w') => (Done a, w')
    | (Raise e, w') => (Failed (Exn e), w')
    end.

Declare Scope script_scope.
Delimit Scope script_scope with script.
Notation "'let?' x ':=' c 'in' k" := (sbind c (fun x => k))
  (at level 10, x pattern, c at level 100, k at level 200) : script_scope.

(** [elem.find(tag)] for the element at [r]: its first child with the
    tag, or [None]. *)
Definition find (tree : element) (r : ref) (tag_ : string) : option ref :=
  head (findall tree r tag_).

(** [elem.text] for the element at [r]. *)
Definition ref_text (tree : element) (r : ref) : option string :=
  match resolve tree r with
  | Some e => text_ e
  | None => None
  end.

Definition set_text (e : element) (value : option string) : element :=
  let 'Element t a _ y c := e in Element t a value y c.

(** [elem.text = value] for the element at [r]. *)
Definition ref_set_text (tree : element) (r : ref) (value : option string)
  : element :=
  update (fun e => set_text e value) tree r.

Local Open Scope script_scope.

(** [target.set(key, value)] where [target] is the result of a [find]. *)
Definition method_set (tree : element) (target : option ref)
    (key value : string) : script element :=
  match target with
  | Some r => sret (ref_set tree r key value)
  | None => sraise (AttributeError "'NoneType' object has no attribute 'set'")
  end.

(** [target.text] where [target] is the result of a [find]. *)
Definition attribute_text (tree : element) (target : option ref)
  : script (option string) :=
  match target with
  | Some r => sret (ref_text tree r)
  | None => sraise (AttributeError "'NoneType' object has no attribute 'text'")
  end.

(** [target.text = value] where [target] is the result of a [find]. *)
Definition assign_text (tree : element) (target : option ref)
    (value : option string) : script element :=
  match target with
  | Some r => sret (ref_set_text tree r value)
  | None => sraise (AttributeError "'NoneType' object has no attribute 'text'")
  end.

Definition modify_profile_xml (input_file : string) : script unit :=
  let? tree := run (ET_parse input_file) in
  let profile : ref := [] in
  let tree := ref_set tree profile "Name" "Custom Australia" in
  let tree :=
    ref_set tree profile "FullName" "Custom Eurocat Australia (YMMM/YBBB)" in
  let version := find tree profile "Version" in
  let? tree := method_set tree version "UpdateURL" "" in
  let? _ := run (ET_write input_file tree) in
  run (print ("Successfully updated Profile in " ++ input_file)).

(** An optional string inside an f-string. *)
Definition format_optional (x : option string) : string :=
  match x with Some s => s | None => "None" end.

(** [x == y] on optional strings. *)
Definition py_eq (x y : option string) : bool :=
  match x, y with
  | Some a, Some b => String.eqb a b
  | None, None => true
  | _, _ => false
  end.

Definition colour_bands : list string := ["R"; "G"; "B"].

Definition colour_warning (custom_colour_id : option string) : string :=
  "Warning: Color ID '" ++ format_optional custom_colour_id
  ++ "' not found in main file".

(** The loop over the bands, for the colour of the main file at
    [colour] and the custom colour at [custom_colour] in [custom]. *)
Fixpoint copy_bands (custom : element) (custom_colour : ref)
    (tree : element) (colour : ref) (bands : list string) : script element :=
  match bands with
  | [] => sret tree
  | band :: bands' =>
      let custom_value := find custom custom_colour band in
      let current_value := find tree colour band in
      let? value := attribute_text custom custom_value in
      let? tree := assign_text tree current_value value in
      copy_bands custom custom_colour tree colour bands'
  end.

(** The loop over the colours of the main file, for one custom colour:
    the first colour with the same id gets the bands and ends the loop;
    when the loop runs out, the warning is printed. *)
Fixpoint merge_colour (custom : element) (custom_colour : ref)
    (tree : element) (colours : list ref) : script element :=
  let custom_colour_id := ref_get custom custom_colour "id" in
  match colours with
  | [] =>
      let? _ := run (print (colour_warning custom_colour_id)) in
      sret tree
  | colour :: colours' =>
      let colour_id := ref_get tree colour "id" in
      if py_eq (ref_get tree colour "id") custom_colour_id then
        copy_bands custom custom_colour tree colour colour_bands
      else merge_colour custom custom_colour tree colours'
  end.

(** The loop over the custom colours. *)
Fixpoint merge_colours (custom : element) (custom_colours : list ref)
    (tree : element) (colours : list ref) : script element :=
  match custom_colours with
  | [] => sret tree
  | custom_colour :: custom_colours' =>
      let? tree := merge_colour custom custom_colour tree colours in
      merge_colours custom custom_colours' tree colours
  end.

Definition modify_colours_xml (input_file custom_colours_file : string)
  : script unit :=
  let? colours_tree := run (ET_parse input_file) in
  let colours := findall colours_tree [] "Colour" in
  let? custom := run (ET_parse custom_colours_file) in
  let custom_colours := findall custom [] "Colour" in
  let? colours_tree := merge_colours custom custom_colours colours_tree colours in
  let? _ := run (ET_write input_file colours_tree) in
  run (print ("Successfully updated Colours in " ++ input_file)).

(** The script, run as a program. *)
Definition main (P : platform) : script unit :=
  let? _ := run (modify_positions_xml P "Positions.xml") in
  let? _ := modify_profile_xml "Profile.xml" in
  modify_colours_xml "Colours.xml" "Colours-Custom.xml".

(** * What is proved of the program: the notions used

    The definitions below are not part of the script: they word the
    properties, and name the documents and the platform of the examples. *)

Local Open Scope Q_scope.

Section Grammar.

Local Open Scope list_scope.

(** [all_in c p]: every character of [p] is in the class [c]. *)
Fixpoint all_in (c : cset) (p : str) : bool :=
  match p with
  | [] => true
  | a :: p' => cset_mem c a && all_in c p'
  end.

(** ** The matches of a pattern *)

Section Matches.

Variable subject : str.

(** [Match r p rest m m']: [r] can match [p] in front of [rest], turning
    the marks [m] into [m'].  One derivation for each way of matching,
    whatever its priority. *)
Inductive Match : regex -> str -> str -> marks -> marks -> Prop :=
| M_Bol rest m :
    List.length rest = List.length subject ->
    Match Bol [] rest m m
| M_Eol rest m :
    rest = [] \/ rest = [ord "010"] ->
    Match Eol [] rest m m
| M_Chr c a rest m :
    cset_mem c a = true ->
    Match (Chr c) [a] rest m m
| M_Count n c p rest m :
    List.length p = n -> all_in c p = true ->
    Match (Count n c) p rest m m
| M_Many1 c p rest m :
    p <> [] -> all_in c p = true ->
    Match (Many1 c) p rest m m
| M_Cat r1 r2 p1 p2 rest m m1 m2 :
    Match r1 p1 (p2 ++ rest) m m1 ->
    Match r2 p2 rest m1 m2 ->
    Match (Cat r1 r2) (p1 ++ p2) rest m m2
| M_Maybe_yes r p rest m m' :
    Match r p rest m m' ->
    Match (Maybe r) p rest m m'
| M_Maybe_no r rest m :
    Match (Maybe r) [] rest m m
| M_NonCapture r p rest m m' :
    Match r p rest m m' ->
    Match (NonCapture r) p rest m m'
| M_Named name r p rest m m' :
    Match r p rest m m' ->
    Match (Named name r) p rest m ((name, p) :: m').

(** Whether the search succeeds does not depend on the marks. *)
Definition oblivious (k : cont) : Prop :=
  forall s m1 m2, k s m1 <> None -> k s m2 <> None.

End Matches.

Definition text (o : option str) : str :=
  match o with Some s => s | None => [] end.

Definition opt_mark (name : string) (o : option str) (m : marks) : marks :=
  match o with Some v => (name, v) :: m | None => m end.

Definition opt_text (P : str -> Prop) (o : option str) : Prop :=
  match o with Some s => P s | None => True end.

(** A group that captures what [r] matches and nothing inside. *)
Definition plain (subject : str) (r : regex) (P : str -> Prop) : Prop :=
  forall p rest m m', Match subject r p rest m m' -> m' = m /\ P p.

(** ** The grammar of coordinate strings, as the specification words it

    The texts are sequences of characters; a digit is a decimal digit
    as [\d] and [float] have it, the ASCII digits among them. *)

Definition sign_text (s : str) : Prop := s = [ord "+"] \/ s = [ord "-"].

Definition digits_text (s : str) : Prop := all_in Digit s = true.

(** Nothing, or a ["."] and at least one digit. *)
Definition fraction_text (s : str) : Prop :=
  s = [] \/ exists f, s = ord "." :: f /\ f <> [] /\ digits_text f.

(** [n] digits, optionally with a fractional part. *)
Definition field_text (n : nat) (s : str) : Prop :=
  exists d fr,
    s = d ++ fr /\ List.length d = n /\ digits_text d /\ fraction_text fr.

(** A sign, digits, optionally with a fractional part. *)
Definition alt_text (s : str) : Prop :=
  exists sg d fr,
    s = sg ++ d ++ fr /\ sign_text sg /\ d <> [] /\ digits_text d /\
    fraction_text fr.

(** The nine fields of a coordinate string; the optional ones are [None]
    when absent. *)
Record fields : Type := {
  f_lat_sign : str;
  f_lat_deg : str;
  f_lat_min : option str;
  f_lat_sec : option str;
  f_lon_sign : str;
  f_lon_deg : str;
  f_lon_min : option str;
  f_lon_sec : option str;
  f_alt : option str
}.

Definition text_of (f : fields) : str :=
  f_lat_sign f ++ f_lat_deg f ++ text (f_lat_min f) ++ text (f_lat_sec f) ++
  f_lon_sign f ++ f_lon_deg f ++ text (f_lon_min f) ++ text (f_lon_sec f) ++
  text (f_alt f).

Definition grammatical (f : fields) : Prop :=
  sign_text (f_lat_sign f) /\
  field_text 2 (f_lat_deg f) /\
  opt_text (field_text 2) (f_lat_min f) /\
  opt_text (field_text 2) (f_lat_sec f) /\
  sign_text (f_lon_sign f) /\
  field_text 3 (f_lon_deg f) /\
  opt_text (field_text 2) (f_lon_min f) /\
  opt_text (field_text 2) (f_lon_sec f) /\
  opt_text alt_text (f_alt f).

(** [coordinate s]: the whole of [s] is a coordinate of the grammar. *)
Definition coordinate (s : string) : Prop :=
  exists f, code_points s = text_of f /\ grammatical f.

(** ** What a match captures *)

Definition marks_of (f : fields) : marks :=
  opt_mark "alt" (f_alt f)
    (opt_mark "lon_sec" (f_lon_sec f)
       (opt_mark "lon_min" (f_lon_min f)
          (("lon_deg", f_lon_deg f) :: ("lon_sign", f_lon_sign f) ::
             opt_mark "lat_sec" (f_lat_sec f)
               (opt_mark "lat_min" (f_lat_min f)
                  [("lat_deg", f_lat_deg f); ("lat_sign", f_lat_sign f)])))).

(** On each axis the seconds are there only with the minutes. *)
Definition tiered (f : fields) : Prop :=
  (f_lat_min f = None -> f_lat_sec f = None) /\
  (f_lon_min f = None -> f_lon_sec f = None).

(** ** The decoding rule, as the specification words it *)

Definition sign_value (sg : str) : Q :=
  if str_eqb sg (code_points "-") then -1 else 1.

(** The number a field writes. *)
Definition number (s : str) : Q :=
  match float (Some s) with Ok q => q | Raise _ => 0 end.

(** One axis: degrees only; degrees and minutes; degrees, minutes and
    seconds; each multiplied by the sign. *)
Definition axis_value (sg deg : str) (min sec : option str) : Q :=
  match min, sec with
  | None, _ => sign_value sg * number deg
  | Some mi, None => sign_value sg * (number deg + number mi / 60)
  | Some mi, Some se =>
      sign_value sg * (number deg + number mi / 60 + number se / 3600)
  end.

Definition decode (f : fields) : Q * Q * option Q :=
  (axis_value (f_lat_sign f) (f_lat_deg f) (f_lat_min f) (f_lat_sec f),
   axis_value (f_lon_sign f) (f_lon_deg f) (f_lon_min f) (f_lon_sec f),
   option_map number (f_alt f)).

(** The two axes carry the same fields. *)
Definition same_tier (f : fields) : Prop :=
  (f_lat_min f = None <-> f_lon_min f = None) /\
  (f_lat_sec f = None <-> f_lon_sec f = None).

End Grammar.

Definition format_error (s : string) : exn :=
  ValueError ("Invalid ISO 6709 coordinate format: " ++ s).

(** The fields of ["+1234-065"]: minutes on the latitude, none on the
    longitude. *)
Definition mixed_fields : fields :=
  {| f_lat_sign := code_points "+"; f_lat_deg := code_points "12";
     f_lat_min := Some (code_points "34"); f_lat_sec := None;
     f_lon_sign := code_points "-"; f_lon_deg := code_points "065";
     f_lon_min := None; f_lon_sec := None; f_alt := None |}.

(** The fields of ["+١٢-٠٦٥"], written in Arabic-Indic digits. *)
Definition arabic_indic_fields : fields :=
  {| f_lat_sign := code_points "+"; f_lat_deg := code_points "١٢";
     f_lat_min := None; f_lat_sec := None;
     f_lon_sign := code_points "-"; f_lon_deg := code_points "٠٦٥";
     f_lon_min := None; f_lon_sec := None; f_alt := None |}.

(** ** Documents *)

(** What an element holds itself, its children apart. *)
Definition shallow (e : element) : string * list (string * string) * option string * option string :=
  (tag e, attrib e, text_ e, tail e).

(** What [Element.set] keeps of an element, anywhere in the tree. *)
Definition label (e : element) : string * option string * option string :=
  (tag e, text_ e, tail e).

(** Document order on references: children in order, a parent before
    its children. *)
Fixpoint ref_lt (a b : ref) : Prop :=
  match a, b with
  | [], [] => False
  | [], _ :: _ => True
  | _ :: _, [] => False
  | i :: a', j :: b' => (i < j)%nat \/ (i = j /\ ref_lt a' b')
  end.

(** The root-level records of the specification. *)
Definition root_position (tree : element) (r : ref) : Prop :=
  exists i e,
    r = [i] /\ children tree !! i = Some e /\ tag e = "Position".

(** The group-nested records of the specification. *)
Definition group_position (tree : element) (r : ref) : Prop :=
  exists g j ge e,
    r = [g; j] /\
    children tree !! g = Some ge /\ tag ge = "Group" /\
    children ge !! j = Some e /\ tag e = "Position".

(** The two parts of [all_positions]. *)
Definition root_positions (tree : element) : list ref :=
  findall tree [] "Position".

Definition group_positions (tree : element) : list ref :=
  flat_map (fun group => findall tree group "Position") (findall tree [] "Group").

(** ** Runs *)

Definition altitude_or_zero (alt : option Q) : Q :=
  match alt with None => 0 | Some a => a end.

Definition call : Type := Q * Q * Q * Q.

Section Annotations.

Variable P : platform.

(** The tree after the record at [r] got the declination [d]. *)
Definition annotated (tree : element) (r : ref) (d : Q) : element :=
  ref_set
    (ref_set tree r "MagneticVariation"
       (builtin_str P (builtin_round P (d * -1) 2)))
    r "Rotation" "0".

Fixpoint annotated_all (tree : element) (positions : list ref) (ds : list Q)
  : element :=
  match positions, ds with
  | r :: positions', d :: ds' => annotated_all (annotated tree r d) positions' ds'
  | _, _ => tree
  end.

(** The record at [r], read when the clock has been read [n] times:
    the model is called with [c] and answers [d]. *)
Definition record_step (tree : element) (r : ref) (n : nat) (c : call) (d : Q)
  : Prop :=
  exists lat lon alt time,
    parse_iso6709 (ref_get tree r "DefaultCenter") = Ok (lat, lon, alt) /\
    to_year_fraction P (datetime_today P n) = Ok time /\
    c = (lat, lon, altitude_or_zero alt, time) /\
    geo_mag_calculate P lat lon (altitude_or_zero alt) time = Ok d.

End Annotations.

(** * A platform to run examples on *)

(** [round(q, ndigits)], halves to the even neighbour. *)
Definition round_half_even (q : Q) (ndigits : Z) : Q :=
  let scale := (10 ^ ndigits)%Z in
  let x := q * inject_Z scale in
  let low := Qfloor x in
  let n :=
    match x - inject_Z low ?= 1 # 2 with
    | Lt => low
    | Gt => (low + 1)%Z
    | Eq => if Z.even low then low else (low + 1)%Z
    end in
  inject_Z n / inject_Z scale.

(** [str] of a float with at most two decimals. *)
Definition str_hundredths (q : Q) : string :=
  let n := Qfloor (q * 100) in
  let a := Z.abs n in
  let whole := string_of_Z (a / 100) in
  let tenths := string_of_Z (a mod 100 / 10) in
  let hundredths := string_of_Z (a mod 10) in
  ((if (n <? 0)%Z then "-" else "") ++ whole ++ "." ++ tenths
   ++ (if (a mod 10 =? 0)%Z then "" else hundredths))%string.

(** The model always answers [declination]; local time is UTC. *)
Definition stub_platform (declination : Q) (clock : nat -> datetime) : platform :=
  {| geo_mag_calculate := fun _ _ _ _ => Ok declination;
     time_mktime := mktime_fixed 0;
     datetime_today := clock;
     builtin_round := round_half_even;
     builtin_str := str_hundredths |}.

(** A clock that is read at noon on 2025-07-01 and then every second. *)
Definition ticking_clock (n : nat) : datetime :=
  {| year := 2025; month := 7; day := 1;
     hour := 12; minute := 0; second := Z.of_nat n; microsecond := 0 |}.

Definition position (name : string) (attrs : list (string * string)) : element :=
  Element "Position" (("Name", name) :: attrs) None None [].

Definition one_world (path : string) (tree : element) : world :=
  {| files := fun p => if String.eqb p path then Ok tree
                       else Raise (ParseError "no such file");
     clock_reads := 0; model_calls := []; stdout := [] |}.

(** One record at the root, one in a group, one two groups deep. *)
Definition sample_document : element :=
  Element "Positions" [] None None
    [ position "A" [("DefaultCenter", "+123456.00-0654321.00")];
      Element "Group" [("Name", "G")] None None
        [ position "B" [("DefaultCenter", "+12.5-065.75"); ("Rotation", "90")];
          Element "Group" [] None None
            [ position "C" [("DefaultCenter", "nowhere")] ] ] ].

(** A malformed record first, then one without [DefaultCenter]. *)
Definition broken_document : element :=
  Element "Positions" [] None None
    [ position "A" [("DefaultCenter", "north")];
      position "B" [] ].

(** A record without [DefaultCenter], alone in its document. *)
Definition unlocated_document : element :=
  Element "Positions" [] None None [ position "B" [] ].

(** A record whose coordinate is written in Arabic-Indic digits. *)
Definition arabic_indic_document : element :=
  Element "Positions" [] None None
    [ position "A" [("DefaultCenter", "+١٢-٠٦٥")] ].

(** The world after a run on [sample_document], the model answering
    11.23 and the clock ticking. *)
Definition sample_run_world : world :=
  snd (modify_positions_xml (stub_platform 11.23 ticking_clock) "Positions.xml"
         (one_world "Positions.xml" sample_document)).

(** Midnight on January 1st. *)
Definition new_year (y : Z) : datetime :=
  {| year := y; month := 1; day := 1;
     hour := 0; minute := 0; second := 0; microsecond := 0 |}.

(** One second before midnight on December 31st. *)
Definition year_end (y : Z) : datetime :=
  {| year := y; month := 12; day := 31;
     hour := 23; minute := 59; second := 59; microsecond := 0 |}.

(** ** The profile and the colours *)

Definition profile_message (input_file : string) : string :=
  "Successfully updated Profile in " ++ input_file.

(** The profile with its names set and the update address of the
    [Version] element at [version] emptied. *)
Definition profiled (tree : element) (version : ref) : element :=
  ref_set
    (ref_set
       (ref_set tree [] "Name" "Custom Australia")
       [] "FullName" "Custom Eurocat Australia (YMMM/YBBB)")
    version "UpdateURL" "".

(** The child at [i] is the first child of the root with the tag. *)
Definition first_child (tree : element) (t : string) (i : nat) : Prop :=
  (exists e, children tree !! i = Some e /\ tag e = t) /\
  forall j e, (j < i)%nat -> children tree !! j = Some e -> tag e <> t.

Definition colours_message (input_file : string) : string :=
  "Successfully updated Colours in " ++ input_file.

(** What [Element.text = ...] keeps of an element. *)
Definition skeleton (e : element) : string * list (string * string) * option string :=
  (tag e, attrib e, tail e).

(** The custom colour at [cc] and the colour at [colour] have the same
    id, or have none both. *)
Definition id_match (custom : element) (cc : ref) (tree : element) (colour : ref)
  : bool :=
  py_eq (ref_get tree colour "id") (ref_get custom cc "id").

(** The colour a custom colour is merged into: the first with its id. *)
Definition partner (custom : element) (cc : ref) (tree : element)
    (colours : list ref) : option ref :=
  List.find (id_match custom cc tree) colours.

(** One assignment [elem.text = value]. *)
Definition write : Type := ref * option string.

Definition band_write (custom : element) (cc : ref) (tree : element)
    (colour : ref) (band : string) : option write :=
  match find custom cc band, find tree colour band with
  | Some cv, Some tv => Some (tv, ref_text custom cv)
  | _, _ => None
  end.

Fixpoint band_writes (custom : element) (cc : ref) (tree : element)
    (colour : ref) (bands : list string) : option (list write) :=
  match bands with
  | [] => Some []
  | band :: bands' =>
      match band_write custom cc tree colour band,
            band_writes custom cc tree colour bands' with
      | Some wr, Some l => Some (wr :: l)
      | _, _ => None
      end
  end.

(** The assignments of a merge, in order, or [None] when it fails, and
    the warnings printed on the way. *)
Fixpoint merge_plan (custom : element) (ccs : list ref) (tree : element)
    (colours : list ref) : option (list write) * list string :=
  match ccs with
  | [] => (Some [], [])
  | cc :: ccs' =>
      match partner custom cc tree colours with
      | None =>
          let '(l, ws) := merge_plan custom ccs' tree colours in
          (l, colour_warning (ref_get custom cc "id") :: ws)
      | Some colour =>
          match band_writes custom cc tree colour colour_bands with
          | None => (None, [])
          | Some l1 =>
              let '(l, ws) := merge_plan custom ccs' tree colours in
              (option_map (app l1) l, ws)
          end
      end
  end.

Definition write_texts (tree : element) (l : list write) : element :=
  fold_left (fun t (wr : write) => ref_set_text t (fst wr) (snd wr)) l tree.

(** Two trees that differ in texts only, as far as a merge can see. *)
Definition same_shape (t1 t2 : element) : Prop :=
  (forall r key, ref_get t1 r key = ref_get t2 r key) /\
  (forall r t, findall t1 r t = findall t2 r t).

(** The world after the lines have been printed. *)
Definition printed (w : world) (lines : list string) : world :=
  {| files := files w; clock_reads := clock_reads w;
     model_calls := model_calls w; stdout := (stdout w ++ lines)%list |}.

(** ** Dates *)

Definition days_in_year (y : Z) : Z := if is_leap y then 366%Z else 365%Z.

(** The seconds from midnight on January 1st to the second of [date],
    by the calendar. *)
Definition seconds_into_year (date : datetime) : Z :=
  ((days_before_month (year date) (month date) + day date - 1) * 86400
   + hour date * 3600 + minute date * 60 + second date)%Z.

(** The dates [datetime] can hold. *)
Definition valid_date (date : datetime) : Prop :=
  (1 <= month date <= 12 /\
   1 <= day date <= days_in_month (year date) (month date) /\
   0 <= hour date < 24 /\ 0 <= minute date < 60 /\ 0 <= second date < 60)%Z.

(** ** Example profile, colours and worlds *)

Definition band_element (t value : string) : element :=
  Element t [] (Some value) None [].

Definition colour_element (attrs : list (string * string)) (r g b : string)
  : element :=
  Element "Colour" attrs None None
    [band_element "R" r; band_element "G" g; band_element "B" b].

(** Two colours with one id, and one without id. *)
Definition sample_colours : element :=
  Element "Colours" [] None None
    [ colour_element [("id", "Land")] "1" "2" "3";
      colour_element [("id", "Sea")] "4" "5" "6";
      colour_element [("id", "Land")] "7" "8" "9";
      colour_element [] "0" "0" "0" ].

(** [Sea] twice, [Sky] that the document does not have, and a colour
    without id. *)
Definition sample_custom_colours : element :=
  Element "Colours" [] None None
    [ colour_element [("id", "Sea")] "40" "50" "60";
      colour_element [("id", "Sky")] "1" "1" "1";
      colour_element [("id", "Land")] "10" "20" "30";
      colour_element [] "a" "b" "c";
      colour_element [("id", "Sea")] "41" "51" "61" ].

(** A custom colour without [G] and [B]. *)
Definition bandless_custom_colours : element :=
  Element "Colours" [] None None
    [ Element "Colour" [("id", "Sea")] None None [band_element "R" "40"] ].

(** Two [Version] children, after a child of another tag. *)
Definition sample_profile : element :=
  Element "Profile" [("Name", "Australia")] None None
    [ Element "Other" [] None None [];
      Element "Version" [("UpdateURL", "http://example.org"); ("Revision", "1")]
        None None [];
      Element "Version" [] None None [] ].

(** A profile without [Version]. *)
Definition bare_profile : element :=
  Element "Profile" [("Name", "Australia")] None None
    [ Element "Other" [] None None [] ].

Fixpoint document_of (docs : list (string * element)) (path : string)
  : result element :=
  match docs with
  | [] => Raise (ParseError "no such file")
  | (p, tree) :: docs' =>
      if String.eqb p path then Ok tree else document_of docs' path
  end.

Definition world_of (docs : list (string * element)) : world :=
  {| files := document_of docs;
     clock_reads := 0; model_calls := []; stdout := [] |}.

Definition sample_world : world :=
  world_of [ ("Positions.xml", sample_document);
             ("Profile.xml", sample_profile);
             ("Colours.xml", sample_colours);
             ("Colours-Custom.xml", sample_custom_colours) ].

(** The positions are in order, the profile has no [Version]. *)
Definition stalled_world : world :=
  world_of [ ("Positions.xml", sample_document);
             ("Profile.xml", bare_profile);
             ("Colours.xml", sample_colours);
             ("Colours-Custom.xml", sample_custom_colours) ].

Definition bandless_world : world :=
  world_of [ ("Colours.xml", sample_colours);
             ("Colours-Custom.xml", bandless_custom_colours) ].

(** Half past six in the evening of February 29th, 2024. *)
Definition leap_day : datetime :=
  {| year := 2024; month := 2; day := 29;
     hour := 18; minute := 30; second := 0; microsecond := 250 |}.

(** * Properties of the regular expression engine *)

Section Engine.

Local Open Scope list_scope.

Lemma consumed_append (p rest : str) : consumed (p ++ rest) rest = p.
Proof.
  unfold consumed. rewrite length_app.
  replace (List.length p + List.length rest - List.length rest)%nat
    with (List.length p) by lia.
  induction p as [|a p IH]; simpl.
  - now destruct rest.
  - now rewrite IH.
Qed.

Section Semantics.

Variable subject : str.

Lemma match_count_sound n c : forall s s',
  match_count n c s = Some s' ->
  exists p, s = p ++ s' /\ List.length p = n /\ all_in c p = true.
Proof.
  induction n as [|n IH]; simpl; intros s s' H.
  - exists []. inversion H. auto.
  - destruct s as [|a s]; [discriminate|].
    destruct (cset_mem c a) eqn:E; [|discriminate].
    destruct (IH _ _ H) as (p & -> & Hl & Ha).
    exists (a :: p). simpl. rewrite E, Ha, Hl. auto.
Qed.

Lemma match_count_complete c : forall p rest,
  all_in c p = true -> match_count (List.length p) c (p ++ rest) = Some rest.
Proof.
  induction p as [|a p IH]; simpl; intros rest H; [reflexivity|].
  apply andb_true_iff in H as [-> H]. auto.
Qed.

Lemma match_many1_sound c : forall s m k res,
  match_many1 c s m k = Some res ->
  exists p rest, s = p ++ rest /\ p <> [] /\ all_in c p = true /\
                 k rest m = Some res.
Proof.
  induction s as [|a s IH]; simpl; intros m k res H; [discriminate|].
  destruct (cset_mem c a) eqn:E; [|discriminate].
  destruct (match_many1 c s m k) eqn:E1.
  - inversion H; subst. destruct (IH _ _ _ E1) as (p & rest & -> & _ & Ha & Hk).
    exists (a :: p), rest. simpl. rewrite E, Ha. repeat split; auto; discriminate.
  - exists [a], s. simpl. rewrite E. repeat split; auto; discriminate.
Qed.

Lemma match_many1_complete c (k : cont) : forall p rest m,
  p <> [] -> all_in c p = true -> k rest m <> None ->
  match_many1 c (p ++ rest) m k <> None.
Proof.
  induction p as [|a p IH]; intros rest m Hp Ha Hk; [congruence|].
  simpl in *. apply andb_true_iff in Ha as [-> Ha].
  destruct p as [|b p].
  - simpl. destruct (match_many1 c rest m k); [discriminate | exact Hk].
  - specialize (IH rest m ltac:(discriminate) Ha Hk).
    destruct (match_many1 c ((b :: p) ++ rest) m k); [discriminate | congruence].
Qed.

(** Soundness: the match found is one of the matches of the pattern. *)
Lemma re_match_sound r : forall s m k res,
  re_match subject r s m k = Some res ->
  exists p rest m', s = p ++ rest /\ Match subject r p rest m m' /\ k rest m' = Some res.
Proof.
  induction r as [| |c|n c|c|r1 IH1 r2 IH2|r IH|r IH|name r IH];
    simpl; intros s m k res H.
  - destruct (Nat.eqb_spec (List.length s) (List.length subject)); [|discriminate].
    exists [], s, m. split; [reflexivity|]. split; [now constructor | exact H].
  - destruct s as [|a [|b s]]; try discriminate.
    + exists [], [], m. repeat split; auto. constructor. auto.
    + destruct (N.eqb_spec a (ord "010")); [subst|discriminate].
      exists [], [ord "010"], m. repeat split; auto. constructor. auto.
  - destruct s as [|a s]; [discriminate|].
    destruct (cset_mem c a) eqn:E; [|discriminate].
    exists [a], s, m. repeat split; auto. now constructor.
  - destruct (match_count n c s) as [s'|] eqn:E; [|discriminate].
    destruct (match_count_sound _ _ _ _ E) as (p & -> & Hl & Ha).
    exists p, s', m. repeat split; auto. now constructor.
  - destruct (match_many1_sound _ _ _ _ _ H) as (p & rest & -> & Hp & Ha & Hk).
    exists p, rest, m. repeat split; auto. now constructor.
  - destruct (IH1 _ _ _ _ H) as (p1 & rest1 & m1 & -> & M1 & H1).
    destruct (IH2 _ _ _ _ H1) as (p2 & rest & m2 & -> & M2 & H2).
    exists (p1 ++ p2), rest, m2. rewrite <- app_assoc.
    repeat split; auto. econstructor; eauto.
  - destruct (re_match subject r s m k) as [res'|] eqn:E.
    + inversion H; subst.
      destruct (IH _ _ _ _ E) as (p & rest & m' & -> & M & Hk).
      exists p, rest, m'. repeat split; auto. now constructor.
    + exists [], s, m. repeat split; auto. apply M_Maybe_no.
  - destruct (IH _ _ _ _ H) as (p & rest & m' & -> & M & Hk).
    exists p, rest, m'. repeat split; auto. now constructor.
  - destruct (IH _ _ _ _ H) as (p & rest & m' & -> & M & Hk).
    rewrite consumed_append in Hk.
    exists p, rest, ((name, p) :: m'). repeat split; auto. now constructor.
Qed.

(** Completeness: when the pattern has a match that the rest of the
    pattern accepts, the search finds a match. *)
Lemma re_match_complete r : forall p rest m m' (k : cont),
  Match subject r p rest m m' -> k rest m' <> None ->
  re_match subject r (p ++ rest) m k <> None.
Proof.
  intros p rest m m' k M. revert k.
  induction M; intros k Hk; simpl.
  - rewrite H, Nat.eqb_refl. exact Hk.
  - destruct H as [-> | ->]; simpl; exact Hk.
  - rewrite H. exact Hk.
  - subst n. rewrite match_count_complete by assumption. exact Hk.
  - now apply match_many1_complete.
  - rewrite <- app_assoc. apply IHM1. now apply IHM2.
  - specialize (IHM k Hk).
    destruct (re_match subject r (p ++ rest) m k); [discriminate | congruence].
  - destruct (re_match subject r rest m k); [discriminate | exact Hk].
  - now apply IHM.
  - apply IHM. now rewrite consumed_append.
Qed.

Lemma match_many1_oblivious c k : oblivious k -> forall s m1 m2,
  match_many1 c s m1 k <> None -> match_many1 c s m2 k <> None.
Proof.
  intros Hk. induction s as [|a s IH]; simpl; intros m1 m2 H; [exact H|].
  destruct (cset_mem c a); [|exact H].
  destruct (match_many1 c s m1 k) eqn:E1.
  - specialize (IH m1 m2). rewrite E1 in IH.
    destruct (match_many1 c s m2 k); [discriminate|].
    exfalso. apply IH; [discriminate | reflexivity].
  - destruct (match_many1 c s m2 k); [discriminate|]. eapply Hk, H.
Qed.

Lemma re_match_oblivious r : forall k, oblivious k ->
  forall s m1 m2,
    re_match subject r s m1 k <> None -> re_match subject r s m2 k <> None.
Proof.
  induction r as [| |c|n c|c|r1 IH1 r2 IH2|r IH|r IH|name r IH];
    simpl; intros k Hk s m1 m2 H.
  - destruct (List.length s =? List.length subject)%nat; [eapply Hk, H | exact H].
  - destruct s as [|a [|b s]]; try exact H; [eapply Hk, H|].
    destruct (a =? ord "010")%N; [eapply Hk, H | exact H].
  - destruct s as [|a s]; [exact H|].
    destruct (cset_mem c a); [eapply Hk, H | exact H].
  - destruct (match_count n c s); [eapply Hk, H | exact H].
  - eapply match_many1_oblivious; eauto.
  - eapply IH1; [|exact H]. intros s' ma mb. apply IH2, Hk.
  - destruct (re_match subject r s m1 k) eqn:E1.
    + specialize (IH k Hk s m1 m2). rewrite E1 in IH.
      destruct (re_match subject r s m2 k); [discriminate|].
      exfalso. apply IH; [discriminate | reflexivity].
    + destruct (re_match subject r s m2 k); [discriminate|]. eapply Hk, H.
  - eapply IH; eauto.
  - eapply IH; [|exact H]. intros s' ma mb. apply Hk.
Qed.

Lemma at_end_oblivious : oblivious at_end.
Proof. intros [|a s] m1 m2; simpl; congruence. Qed.

End Semantics.

(** ** Two optional groups in a row *)

Section Priority.

Variable subject : str.

Lemma re_match_cat_sound r1 r2 s m k res :
  re_match subject (Cat r1 r2) s m k = Some res ->
  exists p rest m1,
    s = p ++ rest /\ Match subject r1 p rest m m1 /\
    re_match subject r2 rest m1 k = Some res.
Proof. simpl. intros H. now apply re_match_sound in H. Qed.

Lemma re_match_maybe_skip r s m (k : cont) :
  k s m <> None -> re_match subject (Maybe r) s m k <> None.
Proof.
  intros H. simpl. destruct (re_match subject r s m k); [discriminate | exact H].
Qed.

Lemma maybe_named_sound name r P s m k res :
  plain subject r P ->
  re_match subject (Maybe (Named name r)) s m k = Some res ->
  exists o rest,
    s = text o ++ rest /\ opt_text P o /\ k rest (opt_mark name o m) = Some res.
Proof.
  intros Hr H. apply re_match_sound in H as (p & rest & m' & -> & M & Hk).
  inversion M; subst.
  - match goal with H : Match _ (Named _ _) _ _ _ _ |- _ => inversion H; subst end.
    match goal with H : Match _ r _ _ _ _ |- _ => apply Hr in H as [-> HP] end.
    exists (Some p), rest. auto.
  - exists None, rest. simpl. auto.
Qed.

(** The first of two optional groups with the same body is the one that
    takes part when only one of them can: the second is never set alone. *)
Lemma maybe_pair_sound n1 n2 r P R s m k res :
  plain subject r P -> oblivious k ->
  re_match subject (Cat (Maybe (Named n1 r)) (Cat (Maybe (Named n2 r)) R)) s m k
    = Some res ->
  exists o1 o2 rest,
    s = text o1 ++ text o2 ++ rest /\
    opt_text P o1 /\ opt_text P o2 /\
    (o1 = None -> o2 = None) /\
    re_match subject R rest (opt_mark n2 o2 (opt_mark n1 o1 m)) k = Some res.
Proof.
  intros Hr Hk H.
  set (K2 := fun s' m' => re_match subject R s' m' k).
  set (K1 := fun s' m' => re_match subject (Maybe (Named n2 r)) s' m' K2).
  assert (HK2 : oblivious K2).
  { intros s' ma mb. unfold K2. now apply re_match_oblivious. }
  change (match re_match subject (Named n1 r) s m K1 with
          | Some x => Some x
          | None => K1 s m
          end = Some res) in H.
  destruct (re_match subject (Named n1 r) s m K1) as [res1|] eqn:H1.
  - (* the first group takes part *)
    inversion H; subst res1; clear H.
    apply re_match_sound in H1 as (p1 & rest1 & m1 & -> & M1 & H1).
    inversion M1; subst.
    match goal with H : Match _ r _ _ _ _ |- _ => apply Hr in H as [-> HP1] end.
    unfold K1 in H1.
    apply (maybe_named_sound _ _ P) in H1 as (o2 & rest & -> & HP2 & H2); [|exact Hr].
    exists (Some p1), o2, rest. simpl. repeat split; auto. discriminate.
  - (* the first group cannot take part: neither can the second *)
    rename H into H0. unfold K1 in H0.
    change (match re_match subject (Named n2 r) s m K2 with
            | Some x => Some x
            | None => K2 s m
            end = Some res) in H0.
    destruct (re_match subject (Named n2 r) s m K2) as [res2|] eqn:E2.
    + exfalso.
      apply re_match_sound in E2 as (p & rest & m' & -> & M & HK).
      inversion M; subst.
      match goal with H : Match _ r _ _ _ _ |- _ =>
        pose proof H as M'; apply Hr in H as [-> HP] end.
      assert (C : re_match subject (Named n1 r) (p ++ rest) m K1 <> None).
      { apply re_match_complete with (m' := (n1, p) :: m); [now constructor|].
        unfold K1. apply re_match_maybe_skip.
        apply HK2 with (m1 := (n2, p) :: m).
        intros Hn. discriminate (eq_trans (eq_sym HK) Hn). }
      congruence.
    + exists None, None, s. simpl. repeat split; auto.
Qed.

End Priority.

(** * The matches of the coordinate pattern *)

Section PatternFacts.

Variable subject : str.

Ltac invert H := inversion H; subst; clear H.

Lemma sign_plain : plain subject sign sign_text.
Proof.
  intros p rest m m' M. invert M. split; [reflexivity|].
  simpl in *. unfold sign_text.
  destruct (N.eqb_spec a (ord "+")); [left; subst; reflexivity|].
  destruct (N.eqb_spec a (ord "-")); [right; subst; reflexivity|]. discriminate.
Qed.

Lemma fraction_plain : plain subject fraction fraction_text.
Proof.
  intros p rest m m' M. unfold fraction in M. invert M.
  - match goal with H : Match _ (NonCapture _) _ _ _ _ |- _ => invert H end.
    match goal with H : Match _ (Cat _ _) _ _ _ _ |- _ => invert H end.
    match goal with H : Match _ (Chr _) _ _ _ _ |- _ => invert H end.
    match goal with H : Match _ (Many1 _) _ _ _ _ |- _ => invert H end.
    split; [reflexivity|]. right.
    match goal with H : cset_mem (Lit _) _ = true |- _ =>
      apply N.eqb_eq in H; subst end.
    eexists; eauto.
  - split; [reflexivity | now left].
Qed.

Lemma field_plain n : plain subject (field n) (field_text n).
Proof.
  intros p rest m m' M. unfold field in M. invert M.
  match goal with H : Match _ (Count _ _) _ _ _ _ |- _ => invert H end.
  match goal with H : Match _ fraction _ _ _ _ |- _ =>
    apply fraction_plain in H as [-> Hf] end.
  split; [reflexivity|]. exists p1, p2. auto.
Qed.

Lemma alt_plain : plain subject (seq [sign; Many1 Digit] fraction) alt_text.
Proof.
  intros p rest m m' M. simpl in M. invert M.
  match goal with H : Match _ sign _ _ _ _ |- _ =>
    apply sign_plain in H as [-> Hs] end.
  match goal with H : Match _ (Cat _ _) _ _ _ _ |- _ => invert H end.
  match goal with H : Match _ (Many1 _) _ _ _ _ |- _ => invert H end.
  match goal with H : Match _ fraction _ _ _ _ |- _ =>
    apply fraction_plain in H as [-> Hf] end.
  split; [reflexivity|]. exists p1, p0, p3. auto.
Qed.

Lemma named_sound name r P s m k res :
  plain subject r P ->
  re_match subject (Cat (Named name r) k) s m at_end = Some res ->
  exists p rest,
    s = p ++ rest /\ P p /\
    re_match subject k rest ((name, p) :: m) at_end = Some res.
Proof.
  intros Hr H. apply re_match_cat_sound in H as (p & rest & m1 & -> & M & H).
  invert M. match goal with H : Match _ r _ _ _ _ |- _ => apply Hr in H as [-> HP] end.
  eauto.
Qed.

End PatternFacts.

(** Every match of the pattern splits the subject into the nine fields
    of the grammar, captures each under its name, and is tiered. *)
Lemma fullmatch_fields s m :
  fullmatch pattern s = Some m ->
  exists f, s = text_of f /\ m = marks_of f /\ grammatical f /\ tiered f.
Proof.
  unfold fullmatch, pattern. simpl seq. intros H.
  apply re_match_cat_sound in H as (p0 & s0 & m0 & E0 & M0 & H).
  inversion M0; subst; clear M0. simpl "++" in H.
  apply (named_sound _ _ _ sign_text) in H as (lat_sign & s1 & -> & Hlat_sign & H);
    [|apply sign_plain].
  apply (named_sound _ _ _ (field_text 2)) in H as (lat_deg & s2 & -> & Hlat_deg & H);
    [|apply field_plain].
  apply (maybe_pair_sound _ _ _ _ (field_text 2)) in H
    as (lat_min & lat_sec & s3 & -> & Hlat_min & Hlat_sec & Tlat & H);
    [|apply field_plain|apply at_end_oblivious].
  apply (named_sound _ _ _ sign_text) in H as (lon_sign & s4 & -> & Hlon_sign & H);
    [|apply sign_plain].
  apply (named_sound _ _ _ (field_text 3)) in H as (lon_deg & s5 & -> & Hlon_deg & H);
    [|apply field_plain].
  apply (maybe_pair_sound _ _ _ _ (field_text 2)) in H
    as (lon_min & lon_sec & s6 & -> & Hlon_min & Hlon_sec & Tlon & H);
    [|apply field_plain|apply at_end_oblivious].
  apply re_match_cat_sound in H as (pa & s7 & m7 & -> & Ma & H).
  assert (Ha : exists alt, pa = text alt /\ m7 = opt_mark "alt" alt
    (opt_mark "lon_sec" lon_sec (opt_mark "lon_min" lon_min
      (("lon_deg", lon_deg) :: ("lon_sign", lon_sign) ::
        opt_mark "lat_sec" lat_sec (opt_mark "lat_min" lat_min
          [("lat_deg", lat_deg); ("lat_sign", lat_sign)])))) /\
    opt_text alt_text alt).
  { inversion Ma; subst; clear Ma.
    - match goal with H : Match _ (Named _ _) _ _ _ _ |- _ =>
        inversion H; subst; clear H end.
      match goal with H : Match _ _ pa _ _ _ |- _ =>
        apply alt_plain in H as [-> Halt] end.
      exists (Some pa). auto.
    - exists None. simpl. auto. }
  destruct Ha as (alt & -> & -> & Halt).
  assert (s7 = [] /\ m = opt_mark "alt" alt
    (opt_mark "lon_sec" lon_sec (opt_mark "lon_min" lon_min
      (("lon_deg", lon_deg) :: ("lon_sign", lon_sign) ::
        opt_mark "lat_sec" lat_sec (opt_mark "lat_min" lat_min
          [("lat_deg", lat_deg); ("lat_sign", lat_sign)]))))) as [-> ->].
  { simpl in H. destruct s7 as [|a [|b s7]]; try discriminate.
    - simpl in H. split; congruence.
    - destruct (a =? ord "010")%N; discriminate. }
  exists {| f_lat_sign := lat_sign; f_lat_deg := lat_deg; f_lat_min := lat_min;
            f_lat_sec := lat_sec; f_lon_sign := lon_sign; f_lon_deg := lon_deg;
            f_lon_min := lon_min; f_lon_sec := lon_sec; f_alt := alt |}.
  unfold text_of, marks_of, grammatical, tiered; simpl.
  rewrite app_nil_r. repeat split; auto.
Qed.

Section PatternComplete.

Variable subject : str.

Lemma sign_match p rest m :
  sign_text p -> Match subject sign p rest m m.
Proof. intros [-> | ->]; now constructor. Qed.

Lemma fraction_match p rest m :
  fraction_text p -> Match subject fraction p rest m m.
Proof.
  intros [-> | (f & -> & Hne & Hd)]; [apply M_Maybe_no|].
  apply M_Maybe_yes, M_NonCapture.
  change (ord "." :: f) with ([ord "."] ++ f).
  econstructor; constructor; auto.
Qed.

Lemma field_match n p rest m :
  field_text n p -> Match subject (field n) p rest m m.
Proof.
  intros (d & fr & -> & Hl & Hd & Hf).
  econstructor; [now constructor | now apply fraction_match].
Qed.

Lemma alt_match p rest m :
  alt_text p -> Match subject (seq [sign; Many1 Digit] fraction) p rest m m.
Proof.
  intros (sg & d & fr & -> & Hs & Hne & Hd & Hf). simpl.
  econstructor; [now apply sign_match|].
  econstructor; [now constructor | now apply fraction_match].
Qed.

Lemma maybe_named_match name r (P : str -> Prop) o rest m :
  (forall p, P p -> Match subject r p rest m m) ->
  opt_text P o ->
  Match subject (Maybe (Named name r)) (text o) rest m (opt_mark name o m).
Proof.
  intros Hr Ho. destruct o as [p|]; simpl in *.
  - apply M_Maybe_yes, M_Named, Hr, Ho.
  - apply M_Maybe_no.
Qed.

End PatternComplete.

(** The fields of the grammar, written out, are matched by the pattern. *)
Lemma grammatical_fullmatch f :
  grammatical f -> fullmatch pattern (text_of f) <> None.
Proof.
  intros (Hs1 & Hd1 & Hm1 & Hc1 & Hs2 & Hd2 & Hm2 & Hc2 & Ha).
  unfold fullmatch.
  set (subject := text_of f).
  assert (E : subject = ([] ++ text_of f ++ []) ++ []).
  { simpl. now rewrite !app_nil_r. }
  rewrite E at 2.
  eapply re_match_complete; [|simpl; discriminate].
  unfold pattern, text_of. simpl seq.
  rewrite <- !app_assoc.
  apply M_Cat with (m1 := []).
  { constructor. subst subject. unfold text_of. simpl.
    now rewrite <- !app_assoc, !app_nil_r. }
  eapply M_Cat; [apply M_Named; now apply sign_match|].
  eapply M_Cat; [apply M_Named; now apply field_match|].
  eapply M_Cat;
    [apply maybe_named_match with (P := field_text 2);
       [intros; now apply field_match | exact Hm1]|].
  eapply M_Cat;
    [apply maybe_named_match with (P := field_text 2);
       [intros; now apply field_match | exact Hc1]|].
  eapply M_Cat; [apply M_Named; now apply sign_match|].
  eapply M_Cat; [apply M_Named; now apply field_match|].
  eapply M_Cat;
    [apply maybe_named_match with (P := field_text 2);
       [intros; now apply field_match | exact Hm2]|].
  eapply M_Cat;
    [apply maybe_named_match with (P := field_text 2);
       [intros; now apply field_match | exact Hc2]|].
  eapply M_Cat;
    [apply maybe_named_match with (P := alt_text);
       [intros; now apply alt_match | exact Ha]|].
  constructor. now left.
Qed.

(** Every coordinate of the grammar is matched by the pattern. *)
Lemma coordinate_fullmatch s :
  coordinate s -> fullmatch pattern (code_points s) <> None.
Proof. intros (f & -> & Hg). now apply grammatical_fullmatch. Qed.

(** The pattern matches exactly the coordinates of the grammar. *)
Lemma fullmatch_coordinate s :
  fullmatch pattern (code_points s) <> None <-> coordinate s.
Proof.
  split; [|apply coordinate_fullmatch].
  destruct (fullmatch pattern (code_points s)) as [m|] eqn:E; [|congruence].
  intros _. apply fullmatch_fields in E as (f & Hs & _ & Hg & _).
  now exists f.
Qed.

(** * The numbers the fields denote *)

Lemma decimal_zeros_above zero :
  In zero decimal_zeros -> (48 <= zero)%N.
Proof.
  assert (H : forallb (fun z => (48 <=? z)%N) decimal_zeros = true) by reflexivity.
  rewrite forallb_forall in H. intros Hin. apply N.leb_le, H, Hin.
Qed.

(** A decimal digit is worth 0 to 9, and is no character below ["0"]. *)
Lemma decimal_some a d :
  decimal a = Some d -> (48 <= a)%N /\ (0 <= d <= 9)%Z.
Proof.
  unfold decimal.
  destruct (List.find (fun zero => (zero <=? a) && (a <? zero + 10))%N decimal_zeros)
    as [zero|] eqn:E; [|discriminate].
  intros H. inversion H; subst; clear H.
  apply find_some in E as [Hin Hb].
  apply andb_true_iff in Hb as [H1 H2].
  apply N.leb_le in H1. apply N.ltb_lt in H2.
  apply decimal_zeros_above in Hin. lia.
Qed.

Lemma is_digit_decimal a : is_digit a = true -> exists d, decimal a = Some d.
Proof. unfold is_digit. destruct (decimal a) as [d|]; [eauto | discriminate]. Qed.

Lemma digit_above a : is_digit a = true -> (48 <= a)%N.
Proof.
  intros H. apply is_digit_decimal in H as [d H]. now apply decimal_some in H.
Qed.

Lemma digit_not_dot a : is_digit a = true -> (a =? ord ".")%N = false.
Proof.
  intros H. apply digit_above in H. apply N.eqb_neq. intros ->.
  vm_compute in H. now apply H.
Qed.

Lemma digit_not_sign a :
  is_digit a = true -> (a =? ord "+")%N = false /\ (a =? ord "-")%N = false.
Proof.
  intros H. apply digit_above in H.
  split; apply N.eqb_neq; intros ->; vm_compute in H; now apply H.
Qed.

Lemma digits_total s : digits_text s -> forall acc, exists v, digits acc s = Some v.
Proof.
  unfold digits_text. induction s as [|a s IH]; simpl; intros H acc; [eauto|].
  apply andb_true_iff in H as [Ha Hs].
  apply is_digit_decimal in Ha as [d ->]. apply IH, Hs.
Qed.

Lemma split_dot_digits d fr :
  digits_text d ->
  split_dot (d ++ fr) = let '(i, f) := split_dot fr in (d ++ i, f).
Proof.
  unfold digits_text. induction d as [|a d IH]; simpl; intros H.
  - destruct (split_dot fr); reflexivity.
  - apply andb_true_iff in H as [Ha Hd].
    rewrite (digit_not_dot a Ha), (IH Hd). destruct (split_dot fr); reflexivity.
Qed.

Lemma split_dot_fraction f :
  split_dot (ord "." :: f) = ([], Some f).
Proof. reflexivity. Qed.

Lemma unsigned_decimal_total d fr :
  d <> [] -> digits_text d -> fraction_text fr ->
  exists q, unsigned_decimal (d ++ fr) = Some q.
Proof.
  intros Hne Hd Hf. unfold unsigned_decimal.
  rewrite split_dot_digits by assumption.
  destruct (digits_total d Hd 0%Z) as [iv Hiv].
  destruct Hf as [-> | (f & -> & Hfne & Hfd)].
  - simpl. rewrite app_nil_r. destruct d; [congruence|]. rewrite Hiv. simpl. eauto.
  - rewrite split_dot_fraction, app_nil_r. destruct d; [congruence|].
    destruct f as [|b f]; [congruence|].
    destruct (digits_total _ Hfd 0%Z) as [fv Hfv].
    rewrite Hiv, Hfv. eauto.
Qed.

Lemma signed_decimal_digit a s :
  is_digit a = true -> signed_decimal (a :: s) = unsigned_decimal (a :: s).
Proof.
  intros Ha. destruct (digit_not_sign a Ha) as [Hp Hm].
  cbv beta iota delta [signed_decimal]. now rewrite Hp, Hm.
Qed.

Lemma float_field n s :
  (0 < n)%nat -> field_text n s -> exists q, float (Some s) = Ok q.
Proof.
  intros Hn (d & fr & -> & Hl & Hd & Hf).
  destruct d as [|a d]; [simpl in Hl; lia|].
  destruct (unsigned_decimal_total (a :: d) fr ltac:(discriminate) Hd Hf)
    as [q Hq].
  pose proof Hd as Hd'. unfold digits_text in Hd'. simpl in Hd'.
  apply andb_true_iff in Hd' as [Ha _].
  exists q. unfold float.
  change ((a :: d) ++ fr) with (a :: d ++ fr) in *.
  now rewrite (signed_decimal_digit a _ Ha), Hq.
Qed.

Lemma float_alt s : alt_text s -> exists q, float (Some s) = Ok q.
Proof.
  intros (sg & d & fr & -> & Hs & Hne & Hd & Hf).
  destruct (unsigned_decimal_total d fr Hne Hd Hf) as [q Hq].
  unfold float.
  destruct Hs as [-> | ->]; cbv beta iota delta [signed_decimal app];
    fold (@app char); change (ord "+" =? ord "+")%N with true;
    change (ord "-" =? ord "+")%N with false;
    change (ord "-" =? ord "-")%N with true; cbv iota;
    rewrite Hq; simpl; eauto.
Qed.

Lemma field_nonempty n s : (0 < n)%nat -> field_text n s -> truthy (Some s) = true.
Proof.
  intros Hn (d & fr & -> & Hl & _). destruct d; [simpl in Hl; lia | reflexivity].
Qed.

Lemma alt_nonempty s : alt_text s -> truthy (Some s) = true.
Proof.
  intros (sg & d & fr & -> & [-> | ->] & _); reflexivity.
Qed.

Lemma float_number s q : float (Some s) = Ok q -> float (Some s) = Ok (number s).
Proof. intros H. unfold number. now rewrite H. Qed.

Lemma float_field_number n s :
  (0 < n)%nat -> field_text n s -> float (Some s) = Ok (number s).
Proof. intros Hn H. destruct (float_field n s Hn H) as [q Hq]. eapply float_number, Hq. Qed.

Lemma float_alt_number s : alt_text s -> float (Some s) = Ok (number s).
Proof. intros H. destruct (float_alt s H) as [q Hq]. eapply float_number, Hq. Qed.

Lemma group_marks_of f :
  let m := marks_of f in
  group m "lat_sign" = Some (f_lat_sign f) /\
  group m "lat_deg" = Some (f_lat_deg f) /\
  group m "lat_min" = f_lat_min f /\
  group m "lat_sec" = f_lat_sec f /\
  group m "lon_sign" = Some (f_lon_sign f) /\
  group m "lon_deg" = Some (f_lon_deg f) /\
  group m "lon_min" = f_lon_min f /\
  group m "lon_sec" = f_lon_sec f /\
  group m "alt" = f_alt f.
Proof.
  destruct f as [s1 d1 [m1|] [c1|] s2 d2 [m2|] [c2|] [a|]];
    unfold marks_of; simpl; repeat split; reflexivity.
Qed.

#[local] Opaque float truthy number.

(** What [parse_iso6709] returns on a match. *)
Lemma parse_iso6709_fields s f :
  fullmatch pattern (code_points s) = Some (marks_of f) -> grammatical f ->
  parse_iso6709 (Some s) = Ok (decode f).
Proof.
  intros Hm (Hs1 & Hd1 & Hm1 & Hc1 & Hs2 & Hd2 & Hm2 & Hc2 & Ha).
  unfold parse_iso6709. rewrite Hm.
  destruct (group_marks_of f)
    as (-> & -> & -> & -> & -> & -> & -> & -> & ->).
  rewrite (float_field_number 2 _ ltac:(lia) Hd1).
  rewrite (float_field_number 3 _ ltac:(lia) Hd2).
  unfold decode, axis_value, sign_value, py_eq_str.
  destruct f as [s1 d1 m1 c1 s2 d2 m2 c2 a]; simpl in *.
  destruct m1 as [m1|], c1 as [c1|], m2 as [m2|], c2 as [c2|], a as [a|];
    simpl in *;
    repeat match goal with
    | H : field_text 2 ?x |- context [truthy (Some ?x)] =>
        rewrite (field_nonempty 2 x ltac:(lia) H)
    | H : field_text 2 ?x |- context [float (Some ?x)] =>
        rewrite (float_field_number 2 x ltac:(lia) H)
    | H : alt_text ?x |- context [truthy (Some ?x)] =>
        rewrite (alt_nonempty x H)
    | H : alt_text ?x |- context [float (Some ?x)] =>
        rewrite (float_alt_number x H)
    | |- _ => progress simpl
    end; reflexivity.
Qed.

#[local] Transparent float truthy number.

End Engine.

(** * The parser *)

Lemma parse_iso6709_match s m :
  fullmatch pattern (code_points s) = Some m ->
  exists f, code_points s = text_of f /\ grammatical f /\ tiered f /\
            parse_iso6709 (Some s) = Ok (decode f).
Proof.
  intros H. destruct (fullmatch_fields _ m H) as (f & Hs & -> & Hg & Ht).
  exists f. split; [exact Hs|]. split; [exact Hg|]. split; [exact Ht|].
  now apply parse_iso6709_fields.
Qed.

Lemma parse_iso6709_no_match s :
  fullmatch pattern (code_points s) = None ->
  parse_iso6709 (Some s) = Raise (format_error s).
Proof. intros H. unfold parse_iso6709. now rewrite H. Qed.

Lemma parse_iso6709_rejects s :
  ~ coordinate s -> parse_iso6709 (Some s) = Raise (format_error s).
Proof.
  intros Hc. apply parse_iso6709_no_match.
  destruct (fullmatch pattern (code_points s)) as [m|] eqn:E; [|reflexivity].
  exfalso. apply Hc, fullmatch_coordinate. congruence.
Qed.

Lemma parse_iso6709_accepts s :
  coordinate s ->
  exists f, code_points s = text_of f /\ grammatical f /\ tiered f /\
            parse_iso6709 (Some s) = Ok (decode f).
Proof.
  intros Hc. apply coordinate_fullmatch in Hc.
  destruct (fullmatch pattern (code_points s)) as [m|] eqn:E; [|congruence].
  now apply parse_iso6709_match with (m := m).
Qed.

Lemma field_text_digits n d :
  List.length d = n -> all_in Digit d = true -> field_text n d.
Proof.
  intros Hl Hd. exists d, []. rewrite app_nil_r.
  repeat split; auto. now left.
Qed.



(** ["+١٢-٠٦٥"], in Arabic-Indic digits, is a coordinate of the grammar:
    its digits are decimal digits as [\d] has them. *)
Lemma arabic_indic_coordinate : coordinate "+١٢-٠٦٥".
Proof.
  exists arabic_indic_fields. split; [reflexivity|].
  unfold grammatical, arabic_indic_fields, sign_text; simpl.
  repeat split; auto; now apply field_text_digits.
Qed.

(** C5: [parse_iso6709] fails with the format error exactly on the
    strings that are not, as a whole, a coordinate of the grammar, it
    fails in no other way on a string, the message ends with the string
    given, and ["12.5-065.75"], which lacks the leading sign, is
    rejected.  The digits of the grammar are the decimal digits of any
    script: ["+١٢-٠٦٥"] is a coordinate. *)
Theorem parse_iso6709_rejects_exactly_ungrammatical :
  (forall s, parse_iso6709 (Some s) = Raise (format_error s) <-> ~ coordinate s) /\
  (forall s e, parse_iso6709 (Some s) = Raise e ->
               e = ValueError ("Invalid ISO 6709 coordinate format: " ++ s)) /\
  parse_iso6709 (Some "12.5-065.75")
    = Raise (ValueError "Invalid ISO 6709 coordinate format: 12.5-065.75") /\
  coordinate "+١٢-٠٦٥".
Proof.
  split; [|split; [|split]].
  - intros s. split.
    + intros H Hc. apply coordinate_fullmatch in Hc.
      destruct (fullmatch pattern (code_points s)) as [m|] eqn:E; [|congruence].
      destruct (parse_iso6709_match s m E) as (f & _ & _ & _ & Hp). congruence.
    + apply parse_iso6709_rejects.
  - intros s e H. destruct (fullmatch pattern (code_points s)) as [m|] eqn:E.
    + destruct (parse_iso6709_match s m E) as (f & _ & _ & _ & Hp). congruence.
    + rewrite (parse_iso6709_no_match s E) in H. now inversion H.
  - reflexivity.
  - exact arabic_indic_coordinate.
Qed.

Lemma parse_iso6709_rejects_exactly_ungrammatical_witness :
  ~ coordinate "+12.5-65.75".
Proof.
  apply (proj1 (proj1 parse_iso6709_rejects_exactly_ungrammatical "+12.5-65.75")).
  reflexivity.
Defined.

(** C6, as stated, fails: ["+1234-065"] is a coordinate whose latitude
    carries minutes and whose longitude carries degrees only, and it is
    not rejected but decoded, each axis by its own tier. *)
Lemma mixed_tier_accepted :
  code_points "+1234-065" = text_of mixed_fields /\
  grammatical mixed_fields /\
  ~ same_tier mixed_fields /\
  exists lat lon,
    parse_iso6709 (Some "+1234-065") = Ok (lat, lon, None) /\
    lat == 12 + 34 / 60 /\ lon == - 65.
Proof.
  split; [reflexivity|]. split; [|split].
  - unfold grammatical, mixed_fields, sign_text; simpl.
    repeat split; auto; now apply field_text_digits.
  - intros [[_ H] _]. specialize (H eq_refl). discriminate H.
  - eexists _, _. split; [vm_compute; reflexivity|]. split; reflexivity.
Qed.

(** C6, amended: the parser rejects every string that is not a
    coordinate of the grammar, and accepts every string that is one,
    whichever fields each axis carries: the result is the decoding of
    fields in which each axis on its own has degrees, degrees and
    minutes, or degrees, minutes and seconds.  A digit is a decimal
    digit of any script: ["+١٢-٠٦٥"] is accepted and gives 12 and -65. *)
Theorem parse_iso6709_tier_per_axis :
  (forall s, ~ coordinate s -> parse_iso6709 (Some s) = Raise (format_error s)) /\
  (forall s, coordinate s ->
     exists f, code_points s = text_of f /\ grammatical f /\ tiered f /\
               parse_iso6709 (Some s) = Ok (decode f)) /\
  (exists lat lon,
     parse_iso6709 (Some "+١٢-٠٦٥") = Ok (lat, lon, None) /\
     lat == 12 /\ lon == - 65).
Proof.
  split; [apply parse_iso6709_rejects|]. split; [apply parse_iso6709_accepts|].
  eexists _, _. split; [vm_compute; reflexivity|]. split; reflexivity.
Qed.

Lemma parse_iso6709_tier_per_axis_witness :
  exists f, code_points "+1234-065" = text_of f /\ grammatical f /\ tiered f /\
            parse_iso6709 (Some "+1234-065") = Ok (decode f).
Proof.
  apply (proj1 (proj2 parse_iso6709_tier_per_axis) "+1234-065").
  exists mixed_fields. split; [reflexivity|].
  unfold grammatical, mixed_fields, sign_text; simpl.
  repeat split; auto; now apply field_text_digits.
Defined.

(** * Properties of the document operations *)

Lemma dict_get_set_same d key value : dict_get (dict_set d key value) key = Some value.
Proof.
  induction d as [|[k v] d IH]; simpl.
  - now rewrite String.eqb_refl.
  - destruct (String.eqb_spec k key) as [->|Hne]; simpl.
    + now rewrite String.eqb_refl.
    + apply String.eqb_neq in Hne. now rewrite Hne.
Qed.

Lemma dict_get_set_other d key value key' :
  key <> key' -> dict_get (dict_set d key value) key' = dict_get d key'.
Proof.
  intros Hne. induction d as [|[k v] d IH]; simpl.
  - apply String.eqb_neq in Hne. now rewrite Hne.
  - destruct (String.eqb_spec k key) as [->|Hk]; simpl.
    + apply String.eqb_neq in Hne. now rewrite Hne.
    + destruct (String.eqb k key'); [reflexivity | exact IH].
Qed.

Lemma children_set e key value : children (set e key value) = children e.
Proof. now destruct e. Qed.

Lemma get_set_same e key value : get (set e key value) key = Some value.
Proof. destruct e. apply dict_get_set_same. Qed.

Lemma get_set_other e key value key' :
  key <> key' -> get (set e key value) key' = get e key'.
Proof. destruct e. apply dict_get_set_other. Qed.

Section Update.

Variable f : element -> element.

Hypothesis f_children : forall e, children (f e) = children e.

Lemma resolve_update_at : forall r tree e,
  resolve tree r = Some e -> resolve (update f tree r) r = Some (f e).
Proof.
  induction r as [|i r IH]; intros tree e H; simpl in *.
  - congruence.
  - destruct tree as [t a x y cs]; simpl in *.
    destruct (cs !! i) as [c|] eqn:E; [|discriminate]. simpl.
    rewrite list_lookup_insert_eq by (eapply lookup_lt_Some; eauto).
    now apply IH.
Qed.

(** An element that is not on the way to [r] is left as it was, with
    all there is below it. *)
Lemma resolve_update_off : forall r' r tree,
  ~ r' `prefix_of` r -> resolve (update f tree r) r' = resolve tree r'.
Proof.
  induction r' as [|j r' IH]; intros r tree Hp.
  - exfalso. apply Hp, prefix_nil.
  - destruct r as [|i r]; simpl.
    + now rewrite f_children.
    + destruct tree as [t a x y cs]; simpl.
      destruct (cs !! i) as [c|] eqn:E; [|reflexivity]. simpl.
      destruct (decide (i = j)) as [->|Hij].
      * rewrite list_lookup_insert_eq by (eapply lookup_lt_Some; eauto).
        rewrite E. apply IH. intros Hpre. apply Hp. now apply prefix_cons.
      * now rewrite list_lookup_insert_ne.
Qed.

(** Any other element keeps what it holds itself. *)
Lemma shallow_update : forall r' r tree,
  r' <> r ->
  shallow <$> resolve (update f tree r) r' = shallow <$> resolve tree r'.
Proof.
  induction r' as [|j r' IH]; intros r tree Hne.
  - destruct r as [|i r]; [congruence|]. simpl.
    destruct tree as [t a x y cs]; simpl.
    destruct (cs !! i); reflexivity.
  - destruct r as [|i r]; simpl.
    + now rewrite f_children.
    + destruct tree as [t a x y cs]; simpl.
      destruct (cs !! i) as [c|] eqn:E; [|reflexivity]. simpl.
      destruct (decide (i = j)) as [->|Hij].
      * rewrite list_lookup_insert_eq by (eapply lookup_lt_Some; eauto).
        rewrite E. apply IH. congruence.
      * now rewrite list_lookup_insert_ne.
Qed.

(** Every element keeps its tag, text and tail when [f] does. *)
Lemma resolve_update_some : forall r' r tree,
  is_Some (resolve (update f tree r) r') <-> is_Some (resolve tree r').
Proof.
  induction r' as [|j r' IH]; intros r tree.
  - simpl. split; eauto.
  - destruct r as [|i r]; simpl.
    + now rewrite f_children.
    + destruct tree as [t a x y cs]; simpl.
      destruct (cs !! i) as [c|] eqn:E; [|reflexivity]. simpl.
      destruct (decide (i = j)) as [->|Hij].
      * rewrite list_lookup_insert_eq by (eapply lookup_lt_Some; eauto).
        rewrite E. apply IH.
      * now rewrite list_lookup_insert_ne.
Qed.

End Update.

Lemma ref_get_set_same tree r key value :
  is_Some (resolve tree r) ->
  ref_get (ref_set tree r key value) r key = Some value.
Proof.
  intros [e He]. unfold ref_get, ref_set.
  rewrite (resolve_update_at _ _ _ _ He). apply get_set_same.
Qed.

Lemma ref_get_set_other_key tree r key value key' :
  key <> key' ->
  ref_get (ref_set tree r key value) r key' = ref_get tree r key'.
Proof.
  intros Hne. unfold ref_get, ref_set.
  destruct (resolve tree r) as [e|] eqn:He.
  - rewrite (resolve_update_at _ _ _ _ He). now apply get_set_other.
  - destruct (resolve (update _ tree r) r) eqn:E; [|reflexivity].
    assert (is_Some (resolve tree r)) as [? ?]; [|congruence].
    eapply resolve_update_some; [|eauto]. intros; apply children_set.
Qed.

Lemma shallow_ref_set tree r key value r' :
  r' <> r ->
  shallow <$> resolve (ref_set tree r key value) r' = shallow <$> resolve tree r'.
Proof. intros. apply shallow_update; [intros; apply children_set | assumption]. Qed.

Lemma ref_get_set_other_ref tree r key value r' key' :
  r' <> r ->
  ref_get (ref_set tree r key value) r' key' = ref_get tree r' key'.
Proof.
  intros Hne. pose proof (shallow_ref_set tree r key value r' Hne) as H.
  unfold ref_get.
  destruct (resolve (ref_set tree r key value) r') as [e1|],
           (resolve tree r') as [e2|]; simpl in H; try congruence.
  unfold get. inversion H. congruence.
Qed.

(** * Properties of the selection *)

Lemma ref_lt_irrefl a : ~ ref_lt a a.
Proof. induction a as [|i a IH]; simpl; [tauto|]. intros [H|[_ H]]; [lia | tauto]. Qed.

Lemma tagged_spec t : forall l i j,
  In j (tagged t i l) <->
  exists e, (i <= j)%nat /\ l !! (j - i)%nat = Some e /\ tag e = t.
Proof.
  induction l as [|e l IH]; intros i j; simpl.
  - split; [tauto | intros (e & _ & H & _); discriminate].
  - assert (Hl : In j (tagged t (S i) l) <->
                 exists e', (i < j)%nat /\ l !! (j - S i)%nat = Some e' /\ tag e' = t).
    { rewrite IH. split; intros (e' & H1 & H2 & H3); exists e'; repeat split; auto; lia. }
    assert (Hs : forall e', (i < j)%nat ->
                 ((e :: l) !! (j - i)%nat = Some e' <-> l !! (j - S i)%nat = Some e')).
    { intros e' Hlt. replace (j - i)%nat with (S (j - S i)) by lia. reflexivity. }
    destruct (String.eqb_spec (tag e) t) as [Ht|Ht]; simpl; rewrite Hl.
    + split.
      * intros [<- | (e' & Hlt & He' & Ht')].
        -- exists e. rewrite Nat.sub_diag. auto.
        -- exists e'. rewrite Hs by assumption. repeat split; auto; lia.
      * intros (e' & Hle & He' & Ht').
        destruct (decide (i = j)) as [->|Hne]; [now left | right].
        exists e'. rewrite <- Hs by lia. repeat split; auto; lia.
    + split.
      * intros (e' & Hlt & He' & Ht').
        exists e'. rewrite Hs by assumption. repeat split; auto; lia.
      * intros (e' & Hle & He' & Ht').
        destruct (decide (i = j)) as [->|Hne].
        -- rewrite Nat.sub_diag in He'. simpl in He'. congruence.
        -- exists e'. rewrite <- Hs by lia. repeat split; auto; lia.
Qed.

Lemma tagged_sorted t : forall l i, StronglySorted lt (tagged t i l).
Proof.
  induction l as [|e l IH]; intros i; simpl; [constructor|].
  destruct (String.eqb (tag e) t); [|apply IH].
  constructor; [apply IH|].
  apply Forall_forall. intros j Hj. apply tagged_spec in Hj as (_ & H & _). lia.
Qed.

Lemma StronglySorted_map {A B} (R : A -> A -> Prop) (S : B -> B -> Prop)
      (f : A -> B) l :
  (forall a b, R a b -> S (f a) (f b)) ->
  StronglySorted R l -> StronglySorted S (List.map f l).
Proof.
  intros Hf. induction 1 as [|a l Hs IH Ha]; simpl; constructor; [exact IH|].
  apply Forall_forall. intros b Hb. apply in_map_iff in Hb as (x & <- & Hx).
  apply Hf. rewrite Forall_forall in Ha. now apply Ha.
Qed.

Lemma StronglySorted_app {A} (R : A -> A -> Prop) l1 l2 :
  StronglySorted R l1 -> StronglySorted R l2 ->
  (forall a b, In a l1 -> In b l2 -> R a b) ->
  StronglySorted R (l1 ++ l2).
Proof.
  intros H1 H2 H. induction H1 as [|a l Hs IH Ha]; simpl; [exact H2|].
  constructor.
  - apply IH. intros x y Hx Hy. apply H; [now right | exact Hy].
  - apply Forall_forall. intros b Hb. apply in_app_or in Hb as [Hb|Hb].
    + rewrite Forall_forall in Ha. now apply Ha.
    + apply H; [now left | exact Hb].
Qed.

Lemma StronglySorted_NoDup {A} (R : A -> A -> Prop) l :
  (forall a, ~ R a a) -> StronglySorted R l -> List.NoDup l.
Proof.
  intros Hirr. induction 1 as [|a l Hs IH Ha]; constructor; [|exact IH].
  intros Hin. rewrite Forall_forall in Ha. apply (Hirr a), Ha, Hin.
Qed.

Lemma all_positions_parts tree :
  all_positions tree = (root_positions tree ++ group_positions tree)%list.
Proof. reflexivity. Qed.

Lemma root_positions_spec tree r :
  In r (root_positions tree) <-> root_position tree r.
Proof.
  unfold root_positions, findall, root_position. simpl.
  rewrite in_map_iff. split.
  - intros (i & <- & Hi). apply tagged_spec in Hi as (e & _ & He & Ht).
    rewrite Nat.sub_0_r in He. eauto.
  - intros (i & e & -> & He & Ht). exists i. split; [reflexivity|].
    apply tagged_spec. exists e. rewrite Nat.sub_0_r. repeat split; auto; lia.
Qed.

Lemma group_positions_spec tree r :
  In r (group_positions tree) <-> group_position tree r.
Proof.
  unfold group_positions, group_position. rewrite in_flat_map. split.
  - intros (grp & Hg & Hr).
    unfold findall in Hg. simpl in Hg.
    apply in_map_iff in Hg as (g & <- & Hg).
    apply tagged_spec in Hg as (ge & _ & Hge & Htg). rewrite Nat.sub_0_r in Hge.
    unfold findall in Hr. simpl in Hr. rewrite Hge in Hr.
    apply in_map_iff in Hr as (j & <- & Hj).
    apply tagged_spec in Hj as (e & _ & He & Ht). rewrite Nat.sub_0_r in He.
    exists g, j, ge, e. auto.
  - intros (g & j & ge & e & -> & Hge & Htg & He & Ht).
    exists [g]. split.
    + unfold findall. simpl. apply in_map_iff. exists g. split; [reflexivity|].
      apply tagged_spec. exists ge. rewrite Nat.sub_0_r. repeat split; auto; lia.
    + unfold findall. simpl. rewrite Hge. apply in_map_iff.
      exists j. split; [reflexivity|].
      apply tagged_spec. exists e. rewrite Nat.sub_0_r. repeat split; auto; lia.
Qed.

Lemma root_positions_sorted tree : StronglySorted ref_lt (root_positions tree).
Proof.
  unfold root_positions, findall. simpl.
  apply StronglySorted_map with (R := lt); [|apply tagged_sorted].
  intros a b Hab. simpl. now left.
Qed.

Lemma group_positions_sorted tree : StronglySorted ref_lt (group_positions tree).
Proof.
  unfold group_positions. unfold findall at 2. simpl.
  generalize (tagged_sorted "Group" (children tree) 0).
  generalize (tagged "Group" 0 (children tree)) as gs.
  induction gs as [|g gs IH]; intros Hs; simpl; [constructor|].
  inversion Hs as [|? ? Hs' Hg]; subst.
  apply StronglySorted_app; [|now apply IH|].
  - unfold findall. simpl. destruct (children tree !! g) as [ge|]; [|constructor].
    apply StronglySorted_map with (R := lt); [|apply tagged_sorted].
    intros a b Hab. simpl. right. split; [reflexivity | now left].
  - intros a b Ha Hb.
    unfold findall in Ha. simpl in Ha.
    destruct (children tree !! g) as [ge|]; [|contradiction].
    apply in_map_iff in Ha as (j & <- & _).
    apply in_flat_map in Hb as (grp & Hgrp & Hb).
    apply in_map_iff in Hgrp as (g' & <- & Hg').
    unfold findall in Hb. simpl in Hb.
    destruct (children tree !! g') as [ge'|]; [|contradiction].
    apply in_map_iff in Hb as (j' & <- & _).
    simpl. left. rewrite Forall_forall in Hg. now apply Hg.
Qed.

Lemma all_positions_NoDup tree : List.NoDup (all_positions tree).
Proof.
  rewrite all_positions_parts. apply List.NoDup_app.
  - eapply StronglySorted_NoDup; [apply ref_lt_irrefl | apply root_positions_sorted].
  - eapply StronglySorted_NoDup; [apply ref_lt_irrefl | apply group_positions_sorted].
  - intros r Hr Hg. apply root_positions_spec in Hr as (i & e & -> & _).
    apply group_positions_spec in Hg as (g & j & ge & e' & H & _).
    discriminate.
Qed.

Lemma all_positions_spec tree r :
  In r (all_positions tree) <-> root_position tree r \/ group_position tree r.
Proof.
  rewrite all_positions_parts, in_app_iff, root_positions_spec, group_positions_spec.
  reflexivity.
Qed.

Lemma all_positions_resolve tree r :
  In r (all_positions tree) ->
  exists e, resolve tree r = Some e /\ tag e = "Position".
Proof.
  intros H. apply all_positions_spec in H
    as [(i & e & -> & He & Ht) | (g & j & ge & e & -> & Hge & _ & He & Ht)];
    exists e; simpl.
  - now rewrite He.
  - now rewrite Hge, He.
Qed.

(** * Properties of the run *)

Lemma ref_get_set_off tree r key value r' key' :
  r' <> r \/ key <> key' ->
  ref_get (ref_set tree r key value) r' key' = ref_get tree r' key'.
Proof.
  intros H. destruct (decide (r' = r)) as [->|Hr].
  - destruct H as [H|H]; [congruence|]. now apply ref_get_set_other_key.
  - now apply ref_get_set_other_ref.
Qed.

Lemma label_ref_set tree r key value r' :
  label <$> resolve (ref_set tree r key value) r' = label <$> resolve tree r'.
Proof.
  destruct (decide (r' = r)) as [->|Hr].
  - unfold ref_set. destruct (resolve tree r) as [e|] eqn:He.
    + rewrite (resolve_update_at _ _ _ _ He). simpl. now destruct e.
    + destruct (resolve (update _ tree r) r) eqn:E; [|reflexivity].
      assert (is_Some (resolve tree r)) as [? ?]; [|congruence].
      eapply resolve_update_some; [|eauto]. intros; apply children_set.
  - pose proof (shallow_ref_set tree r key value r' Hr) as H.
    destruct (resolve (ref_set tree r key value) r') as [e1|],
             (resolve tree r') as [e2|]; simpl in *; try congruence.
    unfold shallow in H. unfold label. congruence.
Qed.

Section RunFacts.

Variable P : platform.

Lemma annotate_run tree r w :
  annotate P tree r w =
  match parse_iso6709 (ref_get tree r "DefaultCenter") with
  | Raise e => (Raise e, w)
  | Ok (lat, lon, alt) =>
      match to_year_fraction P (datetime_today P (clock_reads w)) with
      | Raise e =>
          (Raise e,
           {| files := files w; clock_reads := S (clock_reads w);
              model_calls := model_calls w; stdout := stdout w |})
      | Ok time =>
          let w' :=
            {| files := files w; clock_reads := S (clock_reads w);
               model_calls :=
                 (model_calls w ++ [(lat, lon, altitude_or_zero alt, time)])%list;
               stdout := stdout w |} in
          match geo_mag_calculate P lat lon (altitude_or_zero alt) time with
          | Raise e => (Raise e, w')
          | Ok d => (Ok (annotated P tree r d), w')
          end
      end
  end.
Proof.
  unfold annotate, get_mag_var_for_iso6709, get_mag_var, bind, lift, today,
    calculate, ret, annotated.
  destruct (parse_iso6709 _) as [[[lat lon] alt]|e]; simpl; [|reflexivity].
  destruct (to_year_fraction _ _) as [time|e]; simpl; [|reflexivity].
  destruct (geo_mag_calculate _ _ _ _ _) as [d|e]; reflexivity.
Qed.

Lemma annotate_ok tree r w tree' w' :
  annotate P tree r w = (Ok tree', w') ->
  exists c d,
    record_step P tree r (clock_reads w) c d /\
    tree' = annotated P tree r d /\
    files w' = files w /\ stdout w' = stdout w /\
    clock_reads w' = S (clock_reads w) /\
    model_calls w' = (model_calls w ++ [c])%list.
Proof.
  rewrite annotate_run.
  destruct (parse_iso6709 _) as [[[lat lon] alt]|e] eqn:Ep; [|discriminate].
  destruct (to_year_fraction _ _) as [time|e] eqn:Et; [|discriminate].
  destruct (geo_mag_calculate _ _ _ _ _) as [d|e] eqn:Ed; [|discriminate].
  intros H. inversion H; subst; clear H.
  exists (lat, lon, altitude_or_zero alt, time), d. simpl.
  repeat split; auto. exists lat, lon, alt, time. auto.
Qed.

Lemma annotate_frame tree r w res w' :
  annotate P tree r w = (res, w') ->
  files w' = files w /\ stdout w' = stdout w.
Proof.
  rewrite annotate_run.
  destruct (parse_iso6709 _) as [[[lat lon] alt]|e].
  - destruct (to_year_fraction _ _) as [time|e].
    + destruct (geo_mag_calculate _ _ _ _ _) as [d|e];
        intros H; inversion H; subst; simpl; auto.
    + intros H; inversion H; subst; simpl; auto.
  - intros H; inversion H; subst; auto.
Qed.

Lemma annotate_all_frame : forall positions tree w res w',
  annotate_all P tree positions w = (res, w') ->
  files w' = files w /\ stdout w' = stdout w.
Proof.
  induction positions as [|r positions IH]; simpl; intros tree w res w' H.
  - inversion H; auto.
  - unfold bind in H. destruct (annotate P tree r w) as [[tree1|e] w1] eqn:E1.
    + apply annotate_frame in E1 as [F1 S1].
      apply IH in H as [F2 S2]. split; congruence.
    + apply annotate_frame in E1. inversion H; subst. exact E1.
Qed.

(** ** The tree after the annotations *)

Lemma ref_get_annotated tree r d r' key :
  key <> "MagneticVariation" -> key <> "Rotation" ->
  ref_get (annotated P tree r d) r' key = ref_get tree r' key.
Proof.
  intros H1 H2. unfold annotated.
  rewrite !ref_get_set_off by (right; congruence). reflexivity.
Qed.

Lemma ref_get_annotated_other tree r d r' key :
  r' <> r -> ref_get (annotated P tree r d) r' key = ref_get tree r' key.
Proof.
  intros H. unfold annotated.
  rewrite !ref_get_set_off by (left; assumption). reflexivity.
Qed.

Lemma resolve_annotated_some tree r d r' :
  is_Some (resolve (annotated P tree r d) r') <-> is_Some (resolve tree r').
Proof.
  unfold annotated, ref_set.
  rewrite !resolve_update_some by (intros; apply children_set). reflexivity.
Qed.

Lemma ref_get_annotated_at tree r d :
  is_Some (resolve tree r) ->
  ref_get (annotated P tree r d) r "MagneticVariation"
    = Some (builtin_str P (builtin_round P (d * -1) 2)) /\
  ref_get (annotated P tree r d) r "Rotation" = Some "0".
Proof.
  intros Hr. unfold annotated. split.
  - rewrite ref_get_set_off by (right; discriminate).
    now apply ref_get_set_same.
  - apply ref_get_set_same.
    unfold ref_set. apply resolve_update_some; [intros; apply children_set | exact Hr].
Qed.

Lemma shallow_annotated tree r d r' :
  r' <> r ->
  shallow <$> resolve (annotated P tree r d) r' = shallow <$> resolve tree r'.
Proof.
  intros H. unfold annotated. now rewrite !shallow_ref_set.
Qed.

Lemma label_annotated tree r d r' :
  label <$> resolve (annotated P tree r d) r' = label <$> resolve tree r'.
Proof. unfold annotated. now rewrite !label_ref_set. Qed.

Lemma resolve_annotated_off tree r d r' :
  ~ r' `prefix_of` r ->
  resolve (annotated P tree r d) r' = resolve tree r'.
Proof.
  intros H. unfold annotated, ref_set.
  rewrite !resolve_update_off; auto; intros; apply children_set.
Qed.

Lemma ref_get_annotated_all : forall positions ds tree r' key,
  key <> "MagneticVariation" -> key <> "Rotation" ->
  ref_get (annotated_all P tree positions ds) r' key = ref_get tree r' key.
Proof.
  induction positions as [|r positions IH]; intros [|d ds] tree r' key H1 H2;
    simpl; try reflexivity.
  rewrite IH by assumption. now apply ref_get_annotated.
Qed.

Lemma ref_get_annotated_all_other : forall positions ds tree r' key,
  ~ In r' positions ->
  ref_get (annotated_all P tree positions ds) r' key = ref_get tree r' key.
Proof.
  induction positions as [|r positions IH]; intros [|d ds] tree r' key H;
    simpl; try reflexivity.
  rewrite IH by (intros Hin; apply H; now right).
  apply ref_get_annotated_other. intros ->. apply H. now left.
Qed.

Lemma shallow_annotated_all : forall positions ds tree r',
  ~ In r' positions ->
  shallow <$> resolve (annotated_all P tree positions ds) r'
    = shallow <$> resolve tree r'.
Proof.
  induction positions as [|r positions IH]; intros [|d ds] tree r' H;
    simpl; try reflexivity.
  rewrite IH by (intros Hin; apply H; now right).
  apply shallow_annotated. intros ->. apply H. now left.
Qed.

Lemma label_annotated_all : forall positions ds tree r',
  label <$> resolve (annotated_all P tree positions ds) r'
    = label <$> resolve tree r'.
Proof.
  induction positions as [|r positions IH]; intros [|d ds] tree r';
    simpl; try reflexivity.
  rewrite IH. apply label_annotated.
Qed.

Lemma resolve_annotated_all_off : forall positions ds tree r',
  (forall r, In r positions -> ~ r' `prefix_of` r) ->
  resolve (annotated_all P tree positions ds) r' = resolve tree r'.
Proof.
  induction positions as [|r positions IH]; intros [|d ds] tree r' H;
    simpl; try reflexivity.
  rewrite IH by (intros r0 Hin; apply H; now right).
  apply resolve_annotated_off, H. now left.
Qed.

Lemma ref_get_annotated_all_at : forall positions ds tree k r d,
  List.NoDup positions ->
  positions !! k = Some r -> ds !! k = Some d ->
  is_Some (resolve tree r) ->
  ref_get (annotated_all P tree positions ds) r "MagneticVariation"
    = Some (builtin_str P (builtin_round P (d * -1) 2)) /\
  ref_get (annotated_all P tree positions ds) r "Rotation" = Some "0".
Proof.
  induction positions as [|r0 positions IH]; intros [|d0 ds] tree k r d Hnd Hr Hd Hs;
    try discriminate.
  inversion Hnd as [|? ? Hnotin Hnd']; subst. simpl.
  destruct k as [|k]; simpl in Hr, Hd.
  - inversion Hr; inversion Hd; subst.
    rewrite !ref_get_annotated_all_other by assumption.
    now apply ref_get_annotated_at.
  - eapply IH; eauto. now apply resolve_annotated_some.
Qed.

(** ** The loop *)

Lemma annotate_all_ok : forall positions tree w tree' w',
  annotate_all P tree positions w = (Ok tree', w') ->
  files w' = files w /\ stdout w' = stdout w /\
  clock_reads w' = (clock_reads w + List.length positions)%nat /\
  exists cs ds,
    List.length cs = List.length positions /\
    List.length ds = List.length positions /\
    model_calls w' = (model_calls w ++ cs)%list /\
    tree' = annotated_all P tree positions ds /\
    forall k r, positions !! k = Some r ->
      exists c d, cs !! k = Some c /\ ds !! k = Some d /\
                  record_step P tree r (clock_reads w + k) c d.
Proof.
  induction positions as [|r0 positions IH]; simpl; intros tree w tree' w' H.
  - inversion H; subst. repeat split; auto.
    exists [], []. rewrite app_nil_r. repeat split; auto.
    intros k r Hk. destruct k; discriminate.
  - unfold bind in H. destruct (annotate P tree r0 w) as [[tree1|e] w1] eqn:E1;
      [|discriminate].
    apply annotate_ok in E1 as (c0 & d0 & Hstep & -> & F1 & S1 & C1 & M1).
    apply IH in H as (F2 & S2 & C2 & cs & ds & Lc & Ld & M2 & -> & Hall).
    split; [congruence|]. split; [congruence|]. split; [lia|].
    exists (c0 :: cs), (d0 :: ds). simpl.
    split; [congruence|]. split; [congruence|].
    split; [rewrite M2, M1, <- app_assoc; reflexivity|].
    split; [reflexivity|].
    intros [|k] r Hk; simpl in Hk.
    + inversion Hk; subst. exists c0, d0. rewrite Nat.add_0_r. auto.
    + destruct (Hall k r Hk) as (c & d & Hc & Hd & Hs).
      exists c, d. repeat split; auto.
      destruct Hs as (lat & lon & alt & time & Hp & Ht & -> & Hg).
      exists lat, lon, alt, time.
      rewrite ref_get_annotated in Hp by discriminate.
      replace (clock_reads w + S k)%nat with (clock_reads w1 + k)%nat by lia.
      auto.
Qed.

Lemma annotate_all_app : forall pre post tree w,
  annotate_all P tree (pre ++ post) w =
  match annotate_all P tree pre w with
  | (Ok tree1, w1) => annotate_all P tree1 post w1
  | (Raise e, w1) => (Raise e, w1)
  end.
Proof.
  induction pre as [|r pre IH]; intros post tree w; simpl; [reflexivity|].
  unfold bind. destruct (annotate P tree r w) as [[tree1|e] w1]; [apply IH | reflexivity].
Qed.

(** The loop stops at the first record whose coordinate does not parse. *)
Lemma annotate_all_stops pre r post tree w tree1 w1 e :
  annotate_all P tree pre w = (Ok tree1, w1) ->
  parse_iso6709 (ref_get tree r "DefaultCenter") = Raise e ->
  annotate_all P tree (pre ++ r :: post) w = (Raise e, w1).
Proof.
  intros Hpre Hp. rewrite annotate_all_app, Hpre. simpl. unfold bind.
  rewrite annotate_run.
  apply annotate_all_ok in Hpre as (_ & _ & _ & cs & ds & _ & _ & _ & -> & _).
  rewrite ref_get_annotated_all by discriminate. now rewrite Hp.
Qed.

(** A record whose coordinate does not parse makes the loop raise. *)
Lemma annotate_all_raises : forall positions tree w r e0,
  In r positions ->
  parse_iso6709 (ref_get tree r "DefaultCenter") = Raise e0 ->
  exists e w', annotate_all P tree positions w = (Raise e, w').
Proof.
  intros positions tree w r e0 Hin Hp.
  apply in_split in Hin as (pre & post & ->).
  destruct (annotate_all P tree pre w) as [[tree1|e] w1] eqn:E.
  - exists e0, w1. now apply annotate_all_stops with (tree1 := tree1).
  - exists e, w1. now rewrite annotate_all_app, E.
Qed.

Lemma modify_positions_xml_run input_file w :
  modify_positions_xml P input_file w =
  match files w input_file with
  | Raise e => (Raise e, w)
  | Ok tree =>
      match annotate_all P tree (all_positions tree) w with
      | (Raise e, w') => (Raise e, w')
      | (Ok tree', w') =>
          (Ok tt,
           {| files := fun p => if String.eqb p input_file then Ok tree'
                                else files w' p;
              clock_reads := clock_reads w';
              model_calls := model_calls w';
              stdout :=
                (stdout w' ++
                 [success_message (List.length (all_positions tree)) input_file])%list |})
      end
  end.
Proof.
  unfold modify_positions_xml, bind, ET_parse, ET_write, print.
  destruct (files w input_file) as [tree|e]; [|reflexivity].
  destruct (annotate_all P tree (all_positions tree) w) as [[tree'|e] w'];
    reflexivity.
Qed.

(** A run that raises leaves every file as it was. *)
Lemma modify_positions_xml_raise input_file w e w' :
  modify_positions_xml P input_file w = (Raise e, w') ->
  files w' = files w.
Proof.
  rewrite modify_positions_xml_run.
  destruct (files w input_file) as [tree|e0].
  - destruct (annotate_all P tree (all_positions tree) w) as [[tree'|e1] w1] eqn:E;
      [discriminate|].
    intros H. inversion H; subst. now apply annotate_all_frame in E.
  - intros H. now inversion H.
Qed.

(** A run that returns has annotated the tree and written it. *)
Lemma modify_positions_xml_ok input_file w w' tree :
  files w input_file = Ok tree ->
  modify_positions_xml P input_file w = (Ok tt, w') ->
  exists cs ds,
    List.length cs = List.length (all_positions tree) /\
    List.length ds = List.length (all_positions tree) /\
    model_calls w' = (model_calls w ++ cs)%list /\
    files w' input_file = Ok (annotated_all P tree (all_positions tree) ds) /\
    (forall p, p <> input_file -> files w' p = files w p) /\
    forall k r, all_positions tree !! k = Some r ->
      exists c d, cs !! k = Some c /\ ds !! k = Some d /\
                  record_step P tree r (clock_reads w + k) c d.
Proof.
  intros Hf. rewrite modify_positions_xml_run, Hf.
  destruct (annotate_all P tree (all_positions tree) w) as [[tree'|e1] w1] eqn:E;
    [|discriminate].
  intros H. inversion H; subst; clear H. simpl.
  apply annotate_all_ok in E as (F & S & C & cs & ds & Lc & Ld & M & -> & Hall).
  exists cs, ds. rewrite String.eqb_refl.
  repeat split; auto.
  intros p Hp. apply String.eqb_neq in Hp. rewrite Hp. now rewrite F.
Qed.

End RunFacts.

(** * The positions run *)

(** C2: after a run that returns, each selected record carries, as
    [MagneticVariation], the text of the rounding to 2 decimals of the
    declination the model gave for it times -1, which is its negation,
    and ["0"] as [Rotation]; the model was called with the parsed
    latitude and longitude and with altitude 0 when the coordinate has
    none. *)
Theorem annotated_records P input_file w w' tree :
  files w input_file = Ok tree ->
  modify_positions_xml P input_file w = (Ok tt, w') ->
  exists tree',
    files w' input_file = Ok tree' /\
    forall k r, all_positions tree !! k = Some r ->
      exists lat lon alt time d,
        parse_iso6709 (ref_get tree r "DefaultCenter") = Ok (lat, lon, alt) /\
        model_calls w' !! (List.length (model_calls w) + k)%nat
          = Some (lat, lon, match alt with None => 0 | Some a => a end, time) /\
        geo_mag_calculate P lat lon (match alt with None => 0 | Some a => a end) time
          = Ok d /\
        d * -1 == - d /\
        ref_get tree' r "MagneticVariation"
          = Some (builtin_str P (builtin_round P (d * -1) 2)) /\
        ref_get tree' r "Rotation" = Some "0".
Proof.
  intros Hf Hrun.
  destruct (modify_positions_xml_ok P input_file w w' tree Hf Hrun)
    as (cs & ds & Lc & Ld & M & Hf' & _ & Hall).
  eexists. split; [exact Hf'|].
  intros k r Hk.
  destruct (Hall k r Hk) as (c & d & Hc & Hd & lat & lon & alt & time & Hp & Ht & -> & Hg).
  exists lat, lon, alt, time, d.
  split; [exact Hp|]. split.
  { rewrite M, lookup_app_r by lia.
    replace (List.length (model_calls w) + k - length (model_calls w))%nat with k by lia.
    exact Hc. }
  split; [exact Hg|]. split; [ring|].
  apply ref_get_annotated_all_at with (k := k); auto.
  - apply all_positions_NoDup.
  - destruct (all_positions_resolve tree r) as (e & He & _); [|eauto].
    apply list_elem_of_In. eapply list_elem_of_lookup_2. exact Hk.
Qed.

Lemma annotated_records_witness :
  exists tree',
    files sample_run_world "Positions.xml" = Ok tree' /\
    ref_get tree' [0%nat] "MagneticVariation" = Some "-11.23" /\
    ref_get tree' [0%nat] "Rotation" = Some "0" /\
    ref_get tree' [1%nat; 0%nat] "MagneticVariation" = Some "-11.23" /\
    ref_get tree' [1%nat; 0%nat] "Rotation" = Some "0".
Proof.
  destruct (annotated_records (stub_platform 11.23 ticking_clock) "Positions.xml"
              (one_world "Positions.xml" sample_document)
              sample_run_world sample_document)
    as (tree' & Hf & H); [reflexivity | reflexivity |].
  exists tree'. split; [exact Hf|].
  destruct (H 0%nat [0%nat] eq_refl) as (? & ? & ? & ? & d0 & _ & _ & Hd0 & _ & H0 & H0').
  destruct (H 1%nat [1%nat; 0%nat] eq_refl) as (? & ? & ? & ? & d1 & _ & _ & Hd1 & _ & H1 & H1').
  simpl in Hd0, Hd1. inversion Hd0; inversion Hd1; subst d0 d1.
  repeat split; assumption.
Defined.

(** C3: a run that raises leaves every file as it was, and a run on a
    document in which a selected record has a malformed [DefaultCenter]
    raises: the document is never written with part of its records
    annotated. *)
Theorem malformed_coordinate_aborts P input_file w :
  (forall e w', modify_positions_xml P input_file w = (Raise e, w') ->
                files w' = files w) /\
  (forall tree r s,
      files w input_file = Ok tree ->
      In r (all_positions tree) ->
      ref_get tree r "DefaultCenter" = Some s ->
      ~ coordinate s ->
      exists e w', modify_positions_xml P input_file w = (Raise e, w') /\
                   files w' = files w).
Proof.
  split; [intros e w'; apply modify_positions_xml_raise|].
  intros tree r s Hf Hin Hs Hc.
  assert (Hp : parse_iso6709 (ref_get tree r "DefaultCenter") = Raise (format_error s)).
  { rewrite Hs. now apply parse_iso6709_rejects. }
  destruct (annotate_all_raises P (all_positions tree) tree w r _ Hin Hp)
    as (e & w' & Hrun).
  exists e, w'.
  assert (Hm : modify_positions_xml P input_file w = (Raise e, w')).
  { now rewrite modify_positions_xml_run, Hf, Hrun. }
  split; [exact Hm | eapply modify_positions_xml_raise, Hm].
Qed.

Lemma malformed_coordinate_aborts_witness :
  exists e w',
    modify_positions_xml (stub_platform 11.23 ticking_clock) "Positions.xml"
      (one_world "Positions.xml" broken_document) = (Raise e, w') /\
    files w' = files (one_world "Positions.xml" broken_document).
Proof.
  apply (proj2 (malformed_coordinate_aborts (stub_platform 11.23 ticking_clock)
                  "Positions.xml" (one_world "Positions.xml" broken_document))
               broken_document [0%nat] "north").
  - reflexivity.
  - vm_compute. auto.
  - reflexivity.
  - intros Hc. apply coordinate_fullmatch in Hc. apply Hc. reflexivity.
Defined.

(** A coordinate in the digits of another script is not malformed: the
    record is annotated and the document written. *)
Lemma arabic_indic_annotated :
  exists w' time,
    modify_positions_xml (stub_platform 11.23 ticking_clock) "Positions.xml"
      (one_world "Positions.xml" arabic_indic_document) = (Ok tt, w') /\
    files w' "Positions.xml"
    = Ok (Element "Positions" [] None None
            [ position "A" [("DefaultCenter", "+١٢-٠٦٥");
                            ("MagneticVariation", "-11.23");
                            ("Rotation", "0")] ]) /\
    model_calls w' = [(12, -65, 0, time)].
Proof.
  eexists _, _. split; [vm_compute; reflexivity|]. split; vm_compute; reflexivity.
Qed.

(** C10, as stated, fails: in [broken_document] the second selected
    record has no [DefaultCenter], and the run fails with the format
    error of the first record. *)
Lemma missing_coordinate_after_malformed :
  In [1%nat] (all_positions broken_document) /\
  ref_get broken_document [1%nat] "DefaultCenter" = None /\
  fst (modify_positions_xml (stub_platform 11.23 ticking_clock) "Positions.xml"
         (one_world "Positions.xml" broken_document))
    = Raise (ValueError "Invalid ISO 6709 coordinate format: north").
Proof.
  split; [vm_compute; auto|]. split; reflexivity.
Qed.

(** C10, amended: a run on a document in which a selected record has no
    [DefaultCenter] raises and leaves every file as it was; when the
    records selected before that one are annotated without failure, what
    is raised is the [TypeError] of the matcher, which is given [None]
    and not a string, and not the format error. *)
Theorem missing_coordinate_aborts P input_file w tree pre r post :
  files w input_file = Ok tree ->
  all_positions tree = (pre ++ r :: post)%list ->
  ref_get tree r "DefaultCenter" = None ->
  (exists e w', modify_positions_xml P input_file w = (Raise e, w') /\
                files w' = files w) /\
  (forall tree1 w1,
      annotate_all P tree pre w = (Ok tree1, w1) ->
      modify_positions_xml P input_file w
        = (Raise (TypeError "expected string or bytes-like object, got 'NoneType'"), w1) /\
      forall s, TypeError "expected string or bytes-like object, got 'NoneType'"
                <> format_error s).
Proof.
  intros Hf Hall Hr.
  assert (Hp : parse_iso6709 (ref_get tree r "DefaultCenter")
               = Raise (TypeError "expected string or bytes-like object, got 'NoneType'")).
  { now rewrite Hr. }
  split.
  - assert (Hin : In r (all_positions tree)).
    { rewrite Hall. apply in_or_app. right. now left. }
    destruct (annotate_all_raises P (all_positions tree) tree w r _ Hin Hp)
      as (e & w' & Hrun).
    exists e, w'.
    assert (Hm : modify_positions_xml P input_file w = (Raise e, w')).
    { now rewrite modify_positions_xml_run, Hf, Hrun. }
    split; [exact Hm | eapply modify_positions_xml_raise, Hm].
  - intros tree1 w1 Hpre. split; [|discriminate].
    rewrite modify_positions_xml_run, Hf, Hall.
    now rewrite (annotate_all_stops P pre r post tree w tree1 w1 _ Hpre Hp).
Qed.

Lemma missing_coordinate_aborts_witness :
  modify_positions_xml (stub_platform 11.23 ticking_clock) "Positions.xml"
    (one_world "Positions.xml" unlocated_document)
  = (Raise (TypeError "expected string or bytes-like object, got 'NoneType'"),
     one_world "Positions.xml" unlocated_document).
Proof.
  apply (proj2 (missing_coordinate_aborts (stub_platform 11.23 ticking_clock)
                  "Positions.xml" (one_world "Positions.xml" unlocated_document)
                  unlocated_document [] [0%nat] [] eq_refl eq_refl eq_refl)
               unlocated_document (one_world "Positions.xml" unlocated_document)).
  reflexivity.
Defined.

Lemma to_year_fraction_timetuple P d1 d2 :
  timetuple d1 = timetuple d2 -> to_year_fraction P d1 = to_year_fraction P d2.
Proof.
  intros H. assert (Hy : year d1 = year d2) by exact (f_equal tm_year H).
  unfold to_year_fraction, since_epoch. now rewrite H, Hy.
Qed.

(** C7, as stated, fails: in the run on [sample_document] with a clock
    that ticks, the two calls to the model receive two decimal years. *)
Lemma decimal_year_differs :
  exists lat1 lon1 alt1 time1 lat2 lon2 alt2 time2,
    model_calls sample_run_world
      = [(lat1, lon1, alt1, time1); (lat2, lon2, alt2, time2)] /\
    ~ time1 == time2.
Proof.
  do 8 eexists. split; [vm_compute; reflexivity|].
  intros H. vm_compute in H. discriminate H.
Qed.

(** C7, amended: the decimal year is computed from the clock anew for
    each record: the call for the [k]-th selected record receives the
    year fraction of what the clock reads then.  The calls of a run
    receive the same value when the clock reads the same second for
    all of them. *)
Theorem decimal_year_per_call P input_file w w' tree :
  files w input_file = Ok tree ->
  modify_positions_xml P input_file w = (Ok tt, w') ->
  (forall k r, all_positions tree !! k = Some r ->
     exists lat lon alt time,
       model_calls w' !! (List.length (model_calls w) + k)%nat
         = Some (lat, lon, alt, time) /\
       to_year_fraction P (datetime_today P (clock_reads w + k)) = Ok time) /\
  ((forall k, (k < List.length (all_positions tree))%nat ->
      timetuple (datetime_today P (clock_reads w + k))
        = timetuple (datetime_today P (clock_reads w))) ->
   forall k r, all_positions tree !! k = Some r ->
     exists lat lon alt time,
       model_calls w' !! (List.length (model_calls w) + k)%nat
         = Some (lat, lon, alt, time) /\
       to_year_fraction P (datetime_today P (clock_reads w)) = Ok time).
Proof.
  intros Hf Hrun.
  destruct (modify_positions_xml_ok P input_file w w' tree Hf Hrun)
    as (cs & ds & Lc & Ld & M & Hf' & _ & Hall).
  assert (H1 : forall k r, all_positions tree !! k = Some r ->
     exists lat lon alt time,
       model_calls w' !! (List.length (model_calls w) + k)%nat
         = Some (lat, lon, alt, time) /\
       to_year_fraction P (datetime_today P (clock_reads w + k)) = Ok time).
  { intros k r Hk.
    destruct (Hall k r Hk)
      as (c & d & Hc & Hd & lat & lon & alt & time & Hp & Ht & -> & Hg).
    exists lat, lon, (altitude_or_zero alt), time. split; [|exact Ht].
    rewrite M, lookup_app_r by lia.
    replace (List.length (model_calls w) + k - length (model_calls w))%nat
      with k by lia.
    exact Hc. }
  split; [exact H1|].
  intros Hsame k r Hk.
  destruct (H1 k r Hk) as (lat & lon & alt & time & Hc & Ht).
  exists lat, lon, alt, time. split; [exact Hc|].
  rewrite <- Ht. apply to_year_fraction_timetuple. symmetry. apply Hsame.
  eapply lookup_lt_Some, Hk.
Qed.

Lemma decimal_year_per_call_witness :
  exists lat lon alt time,
    model_calls sample_run_world !! 1%nat = Some (lat, lon, alt, time) /\
    to_year_fraction (stub_platform 11.23 ticking_clock) (ticking_clock 1)
      = Ok time.
Proof.
  apply (proj1 (decimal_year_per_call (stub_platform 11.23 ticking_clock)
                  "Positions.xml" (one_world "Positions.xml" sample_document)
                  sample_run_world sample_document eq_refl eq_refl)
               1%nat [1%nat; 0%nat]).
  reflexivity.
Defined.

Lemma selected_length tree r :
  In r (all_positions tree) -> (1 <= List.length r <= 2)%nat.
Proof.
  intros H. apply all_positions_spec in H
    as [(i & e & -> & _) | (g & j & ge & e & -> & _)]; simpl; lia.
Qed.

(** A record that is not selected and is not the root is on the way to
    no selected record. *)
Lemma unselected_position_off tree r e s :
  r <> [] -> ~ In r (all_positions tree) ->
  resolve tree r = Some e -> tag e = "Position" ->
  In s (all_positions tree) -> ~ r `prefix_of` s.
Proof.
  intros Hne Hnot He Ht Hs [k Hk].
  pose proof Hs as Hs'. apply all_positions_spec in Hs'
    as [(i & e' & -> & _) | (g & j & ge & e' & -> & Hge & Htg & _)].
  - destruct r as [|a [|b r]]; simpl in Hk; try congruence;
      inversion Hk; subst; contradiction.
  - destruct r as [|a [|b [|c r]]]; simpl in Hk; try congruence;
      inversion Hk; subst; try contradiction.
    simpl in He. rewrite Hge in He.
    inversion He; subst. rewrite Htg in Ht. discriminate.
Qed.

(** C9: a run that returns has written the tree with nothing changed
    but the [MagneticVariation] and [Rotation] attributes of the
    selected records: every other attribute of every element is as
    before, every element keeps its tag, text and tail, an element that
    is not selected keeps all its attributes, and a [Position] record
    that is not selected (the root apart, whose children may be
    selected) is as before with all it contains.  The other files are
    as before. *)
Theorem only_two_attributes_change P input_file w w' tree :
  files w input_file = Ok tree ->
  modify_positions_xml P input_file w = (Ok tt, w') ->
  exists tree',
    files w' input_file = Ok tree' /\
    (forall p, p <> input_file -> files w' p = files w p) /\
    (forall r key,
        key <> "MagneticVariation" -> key <> "Rotation" ->
        ref_get tree' r key = ref_get tree r key) /\
    (forall r, label <$> resolve tree' r = label <$> resolve tree r) /\
    (forall r, ~ In r (all_positions tree) ->
               shallow <$> resolve tree' r = shallow <$> resolve tree r) /\
    (forall r e, r <> [] -> ~ In r (all_positions tree) ->
                 resolve tree r = Some e -> tag e = "Position" ->
                 resolve tree' r = Some e).
Proof.
  intros Hf Hrun.
  destruct (modify_positions_xml_ok P input_file w w' tree Hf Hrun)
    as (cs & ds & Lc & Ld & M & Hf' & Hother & Hall).
  eexists. split; [exact Hf'|]. split; [exact Hother|].
  split; [|split; [|split]].
  - intros r key H1 H2. now apply ref_get_annotated_all.
  - intros r. apply label_annotated_all.
  - intros r Hr. now apply shallow_annotated_all.
  - intros r e Hne Hr He Ht. rewrite <- He.
    apply resolve_annotated_all_off. intros s Hs.
    eapply unselected_position_off; eauto.
Qed.

Lemma only_two_attributes_change_witness :
  exists tree',
    files sample_run_world "Positions.xml" = Ok tree' /\
    ref_get tree' [0%nat] "DefaultCenter" = Some "+123456.00-0654321.00" /\
    ref_get tree' [1%nat; 0%nat] "Name" = Some "B" /\
    resolve tree' [1%nat; 1%nat; 0%nat]
      = Some (position "C" [("DefaultCenter", "nowhere")]).
Proof.
  destruct (only_two_attributes_change (stub_platform 11.23 ticking_clock)
              "Positions.xml" (one_world "Positions.xml" sample_document)
              sample_run_world sample_document eq_refl eq_refl)
    as (tree' & Hf & _ & Hattr & _ & _ & Hrec).
  exists tree'. split; [exact Hf|]. split; [|split].
  - rewrite Hattr by discriminate. reflexivity.
  - rewrite Hattr by discriminate. reflexivity.
  - apply Hrec; [discriminate | | reflexivity | reflexivity].
    vm_compute. intros [H|[H|H]]; try discriminate H. exact H.
Defined.

(** C4: the records selected are the [Position] children of the root,
    in document order, followed by the [Position] children of the
    [Group] children of the root, in document order; nothing else is
    selected, in particular nothing three levels down or deeper, and
    what lies there is as before after a run, whatever its outcome. *)
Theorem selection_rule tree :
  all_positions tree = (root_positions tree ++ group_positions tree)%list /\
  (forall r, In r (root_positions tree) <-> root_position tree r) /\
  (forall r, In r (group_positions tree) <-> group_position tree r) /\
  StronglySorted ref_lt (root_positions tree) /\
  StronglySorted ref_lt (group_positions tree) /\
  (forall g1 g2 j rest, ~ In (g1 :: g2 :: j :: rest) (all_positions tree)) /\
  (forall P input_file w res w' r,
      files w input_file = Ok tree ->
      modify_positions_xml P input_file w = (res, w') ->
      (3 <= List.length r)%nat ->
      exists tree', files w' input_file = Ok tree' /\
                    resolve tree' r = resolve tree r).
Proof.
  split; [reflexivity|].
  split; [apply root_positions_spec|].
  split; [apply group_positions_spec|].
  split; [apply root_positions_sorted|].
  split; [apply group_positions_sorted|].
  split.
  - intros g1 g2 j rest H. apply selected_length in H. simpl in H. lia.
  - intros P input_file w res w' r Hf Hrun Hlen.
    destruct res as [[]|e].
    + destruct (modify_positions_xml_ok P input_file w w' tree Hf Hrun)
        as (cs & ds & _ & _ & _ & Hf' & _ & _).
      eexists. split; [exact Hf'|].
      apply resolve_annotated_all_off. intros s Hs [k Hk].
      apply selected_length in Hs. rewrite Hk, length_app in Hs. lia.
    + apply modify_positions_xml_raise in Hrun. rewrite Hrun. eauto.
Qed.

Lemma selection_rule_witness :
  all_positions sample_document = [[0%nat]; [1%nat; 0%nat]] /\
  exists tree',
    files sample_run_world "Positions.xml" = Ok tree' /\
    resolve tree' [1%nat; 1%nat; 0%nat]
      = resolve sample_document [1%nat; 1%nat; 0%nat].
Proof.
  split; [reflexivity|].
  apply (proj2 (proj2 (proj2 (proj2 (proj2 (proj2 (selection_rule sample_document))))))
           (stub_platform 11.23 ticking_clock) "Positions.xml"
           (one_world "Positions.xml" sample_document) (Ok tt) sample_run_world).
  - reflexivity.
  - reflexivity.
  - simpl. lia.
Defined.

(** * The year fraction *)

Lemma datetime_new_year y :
  (1 <= y <= 9999)%Z -> datetime_new y 1 1 = Ok (new_year y).
Proof.
  intros [H1 H2]. unfold datetime_new.
  apply Z.leb_le in H1, H2. rewrite H1, H2. reflexivity.
Qed.

Lemma to_year_fraction_run P date a b c :
  (1 <= year date <= 9998)%Z ->
  time_mktime P (timetuple date) = Ok a ->
  time_mktime P (timetuple (new_year (year date))) = Ok b ->
  time_mktime P (timetuple (new_year (year date + 1))) = Ok c ->
  ~ c == b ->
  to_year_fraction P date = Ok (inject_Z (year date) + (a - b) / (c - b)).
Proof.
  intros Hy Ha Hb Hc Hne. unfold to_year_fraction, since_epoch.
  rewrite !datetime_new_year by lia. simpl.
  rewrite Ha, Hb, Hc. simpl. unfold py_div.
  destruct (Qeq_bool (c - b) 0) eqn:E; [|reflexivity].
  exfalso. apply Hne. apply Qeq_bool_eq in E.
  rewrite <- (Qplus_0_l b), <- E. ring.
Qed.

Lemma days_before_december y : is_leap y = false -> days_before_month y 12 = 334%Z.
Proof.
  intros Hl. unfold days_before_month.
  change (Z.to_nat (12 - 1)) with 11%nat.
  cbn [List.seq List.map fold_right].
  unfold days_in_month. rewrite Hl. reflexivity.
Qed.

Lemma common_year_length y :
  is_leap y = false ->
  (days_before_year (y + 1) - days_before_year y = 365)%Z.
Proof.
  unfold is_leap, days_before_year. intros Hl.
  replace (y + 1 - 1)%Z with y by lia.
  apply andb_false_iff in Hl.
  rewrite orb_false_iff, negb_false_iff, !Z.eqb_neq, Z.eqb_eq in Hl.
  Z.div_mod_to_equations. lia.
Qed.

(** In a zone with a fixed offset, a non-leap year lasts 31536000
    seconds and its last second starts 31535999 seconds in. *)
Lemma mktime_fixed_common_year off y :
  is_leap y = false ->
  exists a b c,
    mktime_fixed off (timetuple (year_end y)) = Ok a /\
    mktime_fixed off (timetuple (new_year y)) = Ok b /\
    mktime_fixed off (timetuple (new_year (y + 1))) = Ok c /\
    a - b == 31535999 /\ c - b == 31536000.
Proof.
  intros Hl. unfold mktime_fixed. do 3 eexists.
  split; [reflexivity|]. split; [reflexivity|]. split; [reflexivity|].
  pose proof (days_before_december y Hl) as Hd.
  pose proof (common_year_length y Hl) as Hy.
  unfold timetuple, year_end, new_year, ymd2ord. simpl tm_year. simpl tm_mon.
  simpl tm_mday. simpl tm_hour. simpl tm_min. simpl tm_sec.
  rewrite Hd. change (days_before_month y 1) with 0%Z.
  change (days_before_month (y + 1) 1) with 0%Z.
  unfold Qminus, Qeq. simpl Qnum. simpl Qden.
  split; lia.
Qed.

Lemma timetuple_new_year date y :
  year date = y -> month date = 1%Z -> day date = 1%Z ->
  hour date = 0%Z -> minute date = 0%Z -> second date = 0%Z ->
  timetuple date = timetuple (new_year y).
Proof. destruct date; simpl; intros; subst; reflexivity. Qed.

Lemma timetuple_year_end date y :
  year date = y -> month date = 12%Z -> day date = 31%Z ->
  hour date = 23%Z -> minute date = 59%Z -> second date = 59%Z ->
  timetuple date = timetuple (year_end y).
Proof. destruct date; simpl; intros; subst; reflexivity. Qed.

(** C8, as stated, fails: on January 1st of year 9999 at midnight the
    function raises, for the start of year 10000 is no [datetime]. *)
Lemma year_9999_raises :
  to_year_fraction (stub_platform 11.23 ticking_clock) (new_year 9999)
    = Raise (ValueError "year 10000 is out of range").
Proof. reflexivity. Qed.

(** C8, amended: for a date in a year from 1 to 9998 for which
    [time.mktime] answers, the year fraction is the year plus the
    seconds elapsed since local midnight on January 1st over the seconds
    from then to local midnight on the next January 1st, these two
    instants being distinct; on January 1st at 00:00:00 it is exactly
    the year; on December 31st at 23:59:59 it is less than the year
    plus one when that second lies between the two midnights, as it does
    where local time has a fixed offset: there, in a non-leap year, it
    is the year plus 31535999/31536000.  In year 9999 the function
    raises. *)
Theorem to_year_fraction_spec P :
  (forall date a b c,
      (1 <= year date <= 9998)%Z ->
      time_mktime P (timetuple date) = Ok a ->
      time_mktime P (timetuple (new_year (year date))) = Ok b ->
      time_mktime P (timetuple (new_year (year date + 1))) = Ok c ->
      ~ c == b ->
      to_year_fraction P date = Ok (inject_Z (year date) + (a - b) / (c - b))) /\
  (forall date b c,
      (1 <= year date <= 9998)%Z ->
      month date = 1%Z -> day date = 1%Z ->
      hour date = 0%Z -> minute date = 0%Z -> second date = 0%Z ->
      time_mktime P (timetuple (new_year (year date))) = Ok b ->
      time_mktime P (timetuple (new_year (year date + 1))) = Ok c ->
      ~ c == b ->
      exists q, to_year_fraction P date = Ok q /\ q == inject_Z (year date)) /\
  (forall date a b c,
      (1 <= year date <= 9998)%Z ->
      month date = 12%Z -> day date = 31%Z ->
      hour date = 23%Z -> minute date = 59%Z -> second date = 59%Z ->
      time_mktime P (timetuple date) = Ok a ->
      time_mktime P (timetuple (new_year (year date))) = Ok b ->
      time_mktime P (timetuple (new_year (year date + 1))) = Ok c ->
      b <= a -> a < c ->
      exists q, to_year_fraction P date = Ok q /\ q < inject_Z (year date) + 1) /\
  (forall off date,
      time_mktime P = mktime_fixed off ->
      (1 <= year date <= 9998)%Z -> is_leap (year date) = false ->
      month date = 12%Z -> day date = 31%Z ->
      hour date = 23%Z -> minute date = 59%Z -> second date = 59%Z ->
      exists q, to_year_fraction P date = Ok q /\
                q == inject_Z (year date) + 31535999 / 31536000 /\
                q < inject_Z (year date) + 1) /\
  (forall date,
      year date = 9999%Z ->
      to_year_fraction P date = Raise (ValueError "year 10000 is out of range")).
Proof.
  split; [|split; [|split; [|split]]].
  - intros date a b c. apply to_year_fraction_run.
  - intros date b c Hy Hmo Hd Hh Hmi Hs Hb Hc Hne.
    eexists. split.
    + apply to_year_fraction_run with (a := b) (b := b) (c := c); auto.
      now rewrite (timetuple_new_year date (year date)).
    + unfold Qminus. rewrite Qplus_opp_r. unfold Qdiv. ring.
  - intros date a b c Hy Hmo Hd Hh Hmi Hs Ha Hb Hc Hle Hlt.
    assert (Hne : ~ c == b).
    { intros E. rewrite E in Hlt. apply (Qlt_irrefl b).
      eapply Qle_lt_trans; eauto. }
    eexists. split; [apply to_year_fraction_run; eauto|].
    apply Qplus_lt_r. apply Qlt_shift_div_r.
    + unfold Qminus. rewrite <- Qlt_minus_iff. eapply Qle_lt_trans; eauto.
    + rewrite Qmult_1_l. unfold Qminus. apply Qplus_lt_l. exact Hlt.
  - intros off date Hm Hy Hl Hmo Hd Hh Hmi Hs.
    destruct (mktime_fixed_common_year off (year date) Hl)
      as (a & b & c & Ha & Hb & Hc & Hab & Hcb).
    assert (Hne : ~ c == b).
    { intros E. rewrite E in Hcb. unfold Qminus in Hcb.
      rewrite Qplus_opp_r in Hcb. discriminate Hcb. }
    eexists. split.
    + apply to_year_fraction_run with (a := a) (b := b) (c := c); auto;
        rewrite Hm; auto.
      now rewrite (timetuple_year_end date (year date)).
    + split.
      * now rewrite Hab, Hcb.
      * rewrite Hab, Hcb. apply Qplus_lt_r. reflexivity.
  - intros date Hy. unfold to_year_fraction. rewrite Hy.
    reflexivity.
Qed.

Lemma to_year_fraction_spec_witness :
  exists q,
    to_year_fraction (stub_platform 11.23 ticking_clock) (year_end 2025) = Ok q /\
    q == 2025 + 31535999 / 31536000 /\ q < 2025 + 1.
Proof.
  apply (proj1 (proj2 (proj2 (proj2
           (to_year_fraction_spec (stub_platform 11.23 ticking_clock)))))
           0%Z (year_end 2025));
    first [reflexivity | simpl; lia].
Defined.

Local Open Scope Q_scope.

(** * Properties of the profile, the colours and the script *)

Lemma dict_set_same d key value :
  dict_get d key = Some value -> dict_set d key value = d.
Proof.
  induction d as [|[k v] d IH]; simpl; [discriminate|].
  destruct (String.eqb k key); intros H; [congruence | now rewrite IH].
Qed.

Lemma update_id f : forall r tree,
  (forall e, resolve tree r = Some e -> f e = e) -> update f tree r = tree.
Proof.
  induction r as [|i r IH]; intros tree H; simpl.
  - now apply H.
  - destruct tree as [t a x y cs]; simpl in *.
    destruct (cs !! i) as [c|] eqn:E; [|reflexivity].
    rewrite IH by exact H. now rewrite list_insert_id.
Qed.

(** Setting an attribute to the value it has changes nothing. *)
Lemma ref_set_same tree r key value :
  ref_get tree r key = Some value -> ref_set tree r key value = tree.
Proof.
  intros H. unfold ref_set. apply update_id. intros e He.
  unfold ref_get in H. rewrite He in H.
  destruct e as [t a x y cs]. unfold get in H. simpl in *.
  now rewrite dict_set_same.
Qed.

Lemma tagged_tags t : forall l1 l2 i,
  List.map tag l1 = List.map tag l2 -> tagged t i l1 = tagged t i l2.
Proof.
  induction l1 as [|e1 l1 IH]; intros [|e2 l2] i H; simpl in *; try discriminate.
  - reflexivity.
  - inversion H as [[Ht Hl]]. rewrite Ht, (IH l2 (S i) Hl). reflexivity.
Qed.

Section UpdateTags.

Variable f : element -> element.
Hypothesis f_children : forall e, children (f e) = children e.
Hypothesis f_tag : forall e, tag (f e) = tag e.

Lemma tag_update : forall r tree, tag (update f tree r) = tag tree.
Proof.
  destruct r as [|i r]; intros tree; simpl; [apply f_tag|].
  destruct tree as [t a x y cs]; simpl. destruct (cs !! i); reflexivity.
Qed.

Lemma child_tags_update : forall r tree,
  List.map tag (children (update f tree r)) = List.map tag (children tree).
Proof.
  destruct r as [|i r]; intros tree; simpl; [now rewrite f_children|].
  destruct tree as [t a x y cs]; simpl.
  destruct (cs !! i) as [c|] eqn:E; [|reflexivity]. simpl.
  apply list_eq. intros j. rewrite !list_lookup_fmap.
  destruct (decide (i = j)) as [->|Hij].
  - rewrite list_lookup_insert_eq by (eapply lookup_lt_Some; eauto).
    rewrite E. simpl. now rewrite tag_update.
  - now rewrite list_lookup_insert_ne.
Qed.

(** [findall] finds the same children after an update. *)
Lemma findall_update : forall r' r tree t,
  findall (update f tree r) r' t = findall tree r' t.
Proof.
  assert (H : forall r' r tree,
    (fun e => List.map tag (children e)) <$> resolve (update f tree r) r'
    = (fun e => List.map tag (children e)) <$> resolve tree r').
  { induction r' as [|j r' IH]; intros r tree.
    - simpl. now rewrite child_tags_update.
    - destruct r as [|i r]; simpl.
      + now rewrite f_children.
      + destruct tree as [t a x y cs]; simpl.
        destruct (cs !! i) as [c|] eqn:E; [|reflexivity]. simpl.
        destruct (decide (i = j)) as [->|Hij].
        * rewrite list_lookup_insert_eq by (eapply lookup_lt_Some; eauto).
          rewrite E. apply IH.
        * now rewrite list_lookup_insert_ne. }
  intros r' r tree t. specialize (H r' r tree). unfold findall.
  destruct (resolve (update f tree r) r') as [e1|],
           (resolve tree r') as [e2|]; simpl in H; try congruence.
  inversion H as [Ht]. now rewrite (tagged_tags t _ _ 0%nat Ht).
Qed.

End UpdateTags.

Lemma tag_set e key value : tag (set e key value) = tag e.
Proof. now destruct e. Qed.

Lemma findall_ref_set tree r key value r' t :
  findall (ref_set tree r key value) r' t = findall tree r' t.
Proof.
  apply findall_update; intros; [apply children_set | apply tag_set].
Qed.

Lemma find_ref_set tree r key value r' t :
  find (ref_set tree r key value) r' t = find tree r' t.
Proof. unfold find. now rewrite findall_ref_set. Qed.

Lemma findall_resolve tree r t c :
  In c (findall tree r t) ->
  exists e, resolve tree c = Some e /\ tag e = t /\
            exists i, c = (r ++ [i])%list.
Proof.
  unfold findall. destruct (resolve tree r) as [e|] eqn:He; [|contradiction].
  intros H. apply in_map_iff in H as (i & <- & Hi).
  apply tagged_spec in Hi as (c & _ & Hc & Ht). rewrite Nat.sub_0_r in Hc.
  exists c. split; [|eauto].
  clear Ht. revert tree He. induction r as [|j r IH]; intros tree He; simpl in *.
  - inversion He; subst. now rewrite Hc.
  - destruct (children tree !! j) as [cj|]; [|discriminate]. now apply IH.
Qed.

Lemma find_resolve tree r t c :
  find tree r t = Some c ->
  exists e, resolve tree c = Some e /\ tag e = t /\
            exists i, c = (r ++ [i])%list.
Proof.
  unfold find. intros H. apply findall_resolve.
  destruct (findall tree r t) as [|c0 l]; [discriminate|].
  inversion H; subst. now left.
Qed.

Lemma find_none tree t :
  find tree [] t = None <->
  forall i e, children tree !! i = Some e -> tag e <> t.
Proof.
  unfold find, findall. simpl. split.
  - intros H i e He Ht.
    assert (Hin : In i (tagged t 0 (children tree))).
    { apply tagged_spec. exists e. rewrite Nat.sub_0_r. repeat split; auto; lia. }
    destruct (tagged t 0 (children tree)); [contradiction | discriminate].
  - intros H. destruct (tagged t 0 (children tree)) as [|i l] eqn:E; [reflexivity|].
    exfalso. assert (Hin : In i (tagged t 0 (children tree))) by (rewrite E; now left).
    apply tagged_spec in Hin as (e & _ & He & Ht). rewrite Nat.sub_0_r in He.
    eapply H; eauto.
Qed.

(** ** The profile *)

Lemma tagged_head t l i rest :
  tagged t 0 l = i :: rest ->
  (exists e, l !! i = Some e /\ tag e = t) /\
  forall j e, (j < i)%nat -> l !! j = Some e -> tag e <> t.
Proof.
  intros H. split.
  - assert (Hin : In i (tagged t 0 l)) by (rewrite H; now left).
    apply tagged_spec in Hin as (e & _ & He & Ht). rewrite Nat.sub_0_r in He. eauto.
  - intros j e Hj He Ht.
    assert (Hin : In j (tagged t 0 l)).
    { apply tagged_spec. exists e. rewrite Nat.sub_0_r. repeat split; auto; lia. }
    pose proof (tagged_sorted t l 0) as Hs. rewrite H in Hs, Hin.
    inversion Hs as [|? ? _ Hall]; subst. rewrite Forall_forall in Hall.
    destruct Hin as [->|Hin]; [lia|]. specialize (Hall j Hin). lia.
Qed.

Lemma find_first tree t c :
  find tree [] t = Some c <-> exists i, c = [i] /\ first_child tree t i.
Proof.
  unfold find, findall. simpl. split.
  - destruct (tagged t 0 (children tree)) as [|i l] eqn:E; [discriminate|].
    simpl. intros H. inversion H; subst. exists i. split; [reflexivity|].
    eapply tagged_head. exact E.
  - intros (i & -> & (e & He & Ht) & Hfirst).
    destruct (tagged t 0 (children tree)) as [|j l] eqn:E.
    + exfalso. assert (Hin : In i (tagged t 0 (children tree))).
      { apply tagged_spec. exists e. rewrite Nat.sub_0_r. repeat split; auto; lia. }
      rewrite E in Hin. contradiction.
    + simpl. destruct (tagged_head _ _ _ _ E) as ((ej & Hej & Htj) & Hj).
      destruct (Nat.lt_trichotomy i j) as [Hlt|[->|Hgt]]; [|reflexivity|].
      * exfalso. eapply Hj; eauto.
      * exfalso. eapply Hfirst; eauto.
Qed.

Lemma modify_profile_xml_run input_file w :
  modify_profile_xml input_file w =
  match files w input_file with
  | Raise e => (Failed (Exn e), w)
  | Ok tree =>
      match find tree [] "Version" with
      | None =>
          (Failed (AttributeError "'NoneType' object has no attribute 'set'"), w)
      | Some version =>
          (Done tt,
           {| files := fun p => if String.eqb p input_file
                                then Ok (profiled tree version) else files w p;
              clock_reads := clock_reads w;
              model_calls := model_calls w;
              stdout := (stdout w ++ [profile_message input_file])%list |})
      end
  end.
Proof.
  unfold modify_profile_xml, sbind, run, ET_parse, ET_write, print, method_set.
  destruct (files w input_file) as [tree|e]; [|reflexivity].
  rewrite !find_ref_set.
  destruct (find tree [] "Version") as [version|]; reflexivity.
Qed.

Lemma profiled_attributes tree version :
  is_Some (resolve tree version) ->
  ref_get (profiled tree version) [] "Name" = Some "Custom Australia" /\
  ref_get (profiled tree version) [] "FullName"
    = Some "Custom Eurocat Australia (YMMM/YBBB)" /\
  ref_get (profiled tree version) version "UpdateURL" = Some "".
Proof.
  intros Hv. unfold profiled. split; [|split].
  - rewrite !ref_get_set_off by (right; discriminate).
    apply ref_get_set_same. simpl. eauto.
  - rewrite ref_get_set_off by (right; discriminate).
    apply ref_get_set_same. simpl. eauto.
  - apply ref_get_set_same. unfold ref_set.
    rewrite !resolve_update_some by (intros; apply children_set). exact Hv.
Qed.

(** X1: on a profile whose root has a [Version] child,
    [modify_profile_xml] returns, having written the document with the
    two names set on the root and the update address of the first
    [Version] child emptied, every other attribute, every tag, text and
    tail as before, and having printed one line; no other file is
    written. *)
Theorem profile_written input_file w tree version :
  files w input_file = Ok tree ->
  find tree [] "Version" = Some version ->
  exists tree' w',
    modify_profile_xml input_file w = (Done tt, w') /\
    files w' input_file = Ok tree' /\
    (exists i, version = [i] /\ first_child tree "Version" i) /\
    ref_get tree' [] "Name" = Some "Custom Australia" /\
    ref_get tree' [] "FullName" = Some "Custom Eurocat Australia (YMMM/YBBB)" /\
    ref_get tree' version "UpdateURL" = Some "" /\
    (forall r key,
        ~ (r = [] /\ (key = "Name" \/ key = "FullName")) ->
        ~ (r = version /\ key = "UpdateURL") ->
        ref_get tree' r key = ref_get tree r key) /\
    (forall r, label <$> resolve tree' r = label <$> resolve tree r) /\
    stdout w' = (stdout w ++ [profile_message input_file])%list /\
    (forall p, p <> input_file -> files w' p = files w p).
Proof.
  intros Hf Hv. rewrite modify_profile_xml_run, Hf, Hv.
  do 2 eexists. split; [reflexivity|]. simpl. rewrite String.eqb_refl.
  split; [reflexivity|].
  split; [now apply find_first|].
  destruct (find_resolve _ _ _ _ Hv) as (e & He & _).
  destruct (profiled_attributes tree version) as (H1 & H2 & H3); [eauto|].
  split; [exact H1|]. split; [exact H2|]. split; [exact H3|].
  split; [|split; [|split]].
  - intros r key Hroot Hver. unfold profiled.
    rewrite ref_get_set_off.
    2:{ destruct (decide (r = version)) as [->|]; [|now left].
        right. intros <-. now apply Hver. }
    rewrite ref_get_set_off.
    2:{ destruct r; [|left; discriminate]. right. intros <-. apply Hroot. auto. }
    rewrite ref_get_set_off; [reflexivity|].
    destruct r; [|left; discriminate]. right. intros <-. apply Hroot. auto.
  - intros r. unfold profiled. now rewrite !label_ref_set.
  - reflexivity.
  - intros p Hp. apply String.eqb_neq in Hp. now rewrite Hp.
Qed.

Lemma profile_written_witness :
  exists tree' w',
    modify_profile_xml "Profile.xml" sample_world = (Done tt, w') /\
    files w' "Profile.xml" = Ok tree' /\
    (exists i, [1%nat] = [i] /\ first_child sample_profile "Version" i) /\
    ref_get tree' [] "Name" = Some "Custom Australia" /\
    ref_get tree' [] "FullName" = Some "Custom Eurocat Australia (YMMM/YBBB)" /\
    ref_get tree' [1%nat] "UpdateURL" = Some "" /\
    (forall r key,
        ~ (r = [] /\ (key = "Name" \/ key = "FullName")) ->
        ~ (r = [1%nat] /\ key = "UpdateURL") ->
        ref_get tree' r key = ref_get sample_profile r key) /\
    (forall r, label <$> resolve tree' r = label <$> resolve sample_profile r) /\
    stdout w' = (stdout sample_world ++ [profile_message "Profile.xml"])%list /\
    (forall p, p <> "Profile.xml" -> files w' p = files sample_world p).
Proof.
  apply (profile_written "Profile.xml" sample_world sample_profile [1%nat]);
    reflexivity.
Defined.

Lemma profile_failure_world input_file w e w' :
  modify_profile_xml input_file w = (Failed e, w') -> w' = w.
Proof.
  rewrite modify_profile_xml_run. destruct (files w input_file) as [tree|e0].
  - destruct (find tree [] "Version"); intros H; inversion H; reflexivity.
  - intros H; inversion H; reflexivity.
Qed.

(** X2: when [modify_profile_xml] fails, nothing has been written or
    printed: the world is as it was.  It fails with an [AttributeError]
    on a profile whose root has no [Version] child, and with the error
    of [ET.parse] when the file does not parse. *)
Theorem profile_failure input_file w :
  (forall e w', modify_profile_xml input_file w = (Failed e, w') -> w' = w) /\
  (forall tree,
      files w input_file = Ok tree ->
      (forall i e, children tree !! i = Some e -> tag e <> "Version") ->
      exists msg, modify_profile_xml input_file w = (Failed (AttributeError msg), w)) /\
  (forall e,
      files w input_file = Raise e ->
      modify_profile_xml input_file w = (Failed (Exn e), w)).
Proof.
  split; [|split].
  - intros e w'. apply profile_failure_world.
  - rewrite modify_profile_xml_run. intros tree Hf Hno. rewrite Hf.
    apply find_none in Hno. rewrite Hno. eauto.
  - rewrite modify_profile_xml_run. intros e Hf. now rewrite Hf.
Qed.

Lemma profile_failure_witness :
  exists msg,
    modify_profile_xml "Profile.xml" stalled_world
    = (Failed (AttributeError msg), stalled_world).
Proof.
  apply (proj1 (proj2 (profile_failure "Profile.xml" stalled_world)) bare_profile).
  - reflexivity.
  - intros [|[|i]] e H; simpl in H; inversion H; subst; discriminate.
Defined.

Lemma profiled_twice tree version :
  is_Some (resolve tree version) ->
  profiled (profiled tree version) version = profiled tree version.
Proof.
  intros Hv. destruct (profiled_attributes tree version Hv) as (H1 & H2 & H3).
  unfold profiled at 1.
  rewrite (ref_set_same _ [] "Name") by exact H1.
  rewrite (ref_set_same _ [] "FullName") by exact H2.
  now rewrite ref_set_same.
Qed.

(** X3: [modify_profile_xml] is idempotent: after a run that returns, a
    second run returns and leaves every file as the first run left
    it. *)
Theorem profile_idempotent input_file w w1 :
  modify_profile_xml input_file w = (Done tt, w1) ->
  exists w2,
    modify_profile_xml input_file w1 = (Done tt, w2) /\
    forall p, files w2 p = files w1 p.
Proof.
  rewrite !modify_profile_xml_run.
  destruct (files w input_file) as [tree|e] eqn:Hf; [|discriminate].
  destruct (find tree [] "Version") as [version|] eqn:Hv; [|discriminate].
  intros H. inversion H; subst; clear H. simpl. rewrite String.eqb_refl.
  unfold profiled at 1. rewrite !find_ref_set, Hv.
  eexists. split; [reflexivity|]. simpl.
  intros p. destruct (String.eqb p input_file); [|reflexivity].
  destruct (find_resolve _ _ _ _ Hv) as (e & He & _).
  rewrite profiled_twice by eauto. reflexivity.
Qed.

Lemma profile_idempotent_witness :
  exists w2,
    modify_profile_xml "Profile.xml"
      (snd (modify_profile_xml "Profile.xml" sample_world)) = (Done tt, w2) /\
    forall p,
      files w2 p = files (snd (modify_profile_xml "Profile.xml" sample_world)) p.
Proof.
  apply (profile_idempotent "Profile.xml" sample_world). reflexivity.
Defined.

(** ** The colours *)

Section UpdateProjection.

Context {B : Type}.
Variable f : element -> element.
Variable g : element -> B.
Hypothesis f_children : forall e, children (f e) = children e.
Hypothesis g_f : forall e, g (f e) = g e.
Hypothesis g_children : forall t a x y cs cs',
  g (Element t a x y cs) = g (Element t a x y cs').

(** What [f] keeps and does not depend on the children is kept by every
    element of the tree. *)
Lemma project_update : forall r' r tree,
  g <$> resolve (update f tree r) r' = g <$> resolve tree r'.
Proof.
  induction r' as [|j r' IH]; intros r tree.
  - simpl. f_equal. destruct r as [|i r]; simpl; [apply g_f|].
    destruct tree as [t a x y cs]; simpl.
    destruct (cs !! i); [apply g_children | reflexivity].
  - destruct r as [|i r]; simpl.
    + now rewrite f_children.
    + destruct tree as [t a x y cs]; simpl.
      destruct (cs !! i) as [c|] eqn:E; [|reflexivity]. simpl.
      destruct (decide (i = j)) as [->|Hij].
      * rewrite list_lookup_insert_eq by (eapply lookup_lt_Some; eauto).
        rewrite E. apply IH.
      * now rewrite list_lookup_insert_ne.
Qed.

End UpdateProjection.

Lemma children_set_text e v : children (set_text e v) = children e.
Proof. now destruct e. Qed.

Lemma skeleton_ref_set_text tree r v r' :
  skeleton <$> resolve (ref_set_text tree r v) r' = skeleton <$> resolve tree r'.
Proof.
  apply project_update; [intros; apply children_set_text | now intros [] | reflexivity].
Qed.

Lemma ref_get_ref_set_text tree r v r' key :
  ref_get (ref_set_text tree r v) r' key = ref_get tree r' key.
Proof.
  pose proof (skeleton_ref_set_text tree r v r') as H. unfold ref_get.
  destruct (resolve (ref_set_text tree r v) r') as [e1|],
           (resolve tree r') as [e2|]; simpl in H; try congruence.
  unfold get. inversion H. congruence.
Qed.

Lemma findall_ref_set_text tree r v r' t :
  findall (ref_set_text tree r v) r' t = findall tree r' t.
Proof.
  apply findall_update; [intros; apply children_set_text | now intros []].
Qed.

Lemma resolve_ref_set_text_some tree r v r' :
  is_Some (resolve (ref_set_text tree r v) r') <-> is_Some (resolve tree r').
Proof. apply resolve_update_some. intros; apply children_set_text. Qed.

Lemma ref_text_ref_set_text_at tree r v :
  is_Some (resolve tree r) -> ref_text (ref_set_text tree r v) r = v.
Proof.
  intros [e He]. unfold ref_text, ref_set_text.
  rewrite (resolve_update_at _ _ _ _ He). now destruct e.
Qed.

Lemma ref_text_ref_set_text_other tree r v r' :
  r' <> r -> ref_text (ref_set_text tree r v) r' = ref_text tree r'.
Proof.
  intros Hne.
  pose proof (shallow_update (fun e => set_text e v)
                (fun e => children_set_text e v) r' r tree Hne) as H.
  unfold ref_text, ref_set_text.
  destruct (resolve (update _ tree r) r') as [e1|],
           (resolve tree r') as [e2|]; simpl in H; try congruence.
  unfold shallow in H. congruence.
Qed.

Lemma resolve_ref_set_text_off tree r v r' :
  ~ r' `prefix_of` r -> resolve (ref_set_text tree r v) r' = resolve tree r'.
Proof.
  intros H. apply resolve_update_off; [intros; apply children_set_text | exact H].
Qed.

Lemma same_shape_refl tree : same_shape tree tree.
Proof. split; reflexivity. Qed.

Lemma same_shape_ref_set_text tree tree0 r v :
  same_shape tree tree0 -> same_shape (ref_set_text tree r v) tree0.
Proof.
  intros [Hg Hf]. split; intros.
  - now rewrite ref_get_ref_set_text.
  - now rewrite findall_ref_set_text.
Qed.

Lemma same_shape_write_texts l : forall tree tree0,
  same_shape tree tree0 -> same_shape (write_texts tree l) tree0.
Proof.
  induction l as [|[r v] l IH]; intros tree tree0 H; simpl; [exact H|].
  apply IH. now apply same_shape_ref_set_text.
Qed.

Lemma write_texts_app tree l1 l2 :
  write_texts tree (l1 ++ l2) = write_texts (write_texts tree l1) l2.
Proof. unfold write_texts. apply fold_left_app. Qed.

(** *** What the loops compute *)

Lemma copy_bands_run custom cc tree0 colour : forall bands tree w,
  same_shape tree tree0 ->
  copy_bands custom cc tree colour bands w =
  match band_writes custom cc tree0 colour bands with
  | Some l => (Done (write_texts tree l), w)
  | None => (Failed (AttributeError "'NoneType' object has no attribute 'text'"), w)
  end.
Proof.
  induction bands as [|band bands IH]; intros tree w Hs; simpl; [reflexivity|].
  unfold band_write, sbind, attribute_text, assign_text, find.
  destruct Hs as [Hg Hf]. rewrite Hf.
  fold (find custom cc band). fold (find tree0 colour band).
  destruct (find custom cc band) as [cv|]; [|reflexivity].
  destruct (find tree0 colour band) as [tv|]; [|reflexivity].
  simpl. rewrite IH by (apply same_shape_ref_set_text; now split).
  destruct (band_writes custom cc tree0 colour bands); reflexivity.
Qed.

Lemma printed_nil w : printed w [] = w.
Proof. destruct w. unfold printed. simpl. now rewrite app_nil_r. Qed.

Lemma printed_app w a b : printed (printed w a) b = printed w (a ++ b).
Proof. unfold printed. simpl. now rewrite app_assoc. Qed.

Lemma merge_colour_run custom cc tree0 : forall colours tree w,
  same_shape tree tree0 ->
  merge_colour custom cc tree colours w =
  match partner custom cc tree0 colours with
  | None => (Done tree, printed w [colour_warning (ref_get custom cc "id")])
  | Some colour =>
      match band_writes custom cc tree0 colour colour_bands with
      | Some l => (Done (write_texts tree l), w)
      | None =>
          (Failed (AttributeError "'NoneType' object has no attribute 'text'"), w)
      end
  end.
Proof.
  induction colours as [|colour colours IH]; intros tree w Hs; [reflexivity|].
  cbn [merge_colour partner List.find]. unfold id_match at 1.
  destruct Hs as [Hg Hf]. rewrite Hg.
  destruct (py_eq (ref_get tree0 colour "id") (ref_get custom cc "id")).
  - apply copy_bands_run. now split.
  - apply IH. now split.
Qed.

Lemma merge_colours_run custom tree0 colours : forall ccs tree w,
  same_shape tree tree0 ->
  merge_colours custom ccs tree colours w =
  (match fst (merge_plan custom ccs tree0 colours) with
   | Some l => Done (write_texts tree l)
   | None => Failed (AttributeError "'NoneType' object has no attribute 'text'")
   end,
   printed w (snd (merge_plan custom ccs tree0 colours))).
Proof.
  induction ccs as [|cc ccs IH]; intros tree w Hs.
  - simpl. now rewrite printed_nil.
  - cbn [merge_colours merge_plan]. unfold sbind.
    rewrite (merge_colour_run custom cc tree0 colours tree w Hs).
    destruct (partner custom cc tree0 colours) as [colour|].
    + destruct (band_writes custom cc tree0 colour colour_bands) as [l1|].
      * rewrite IH by now apply same_shape_write_texts.
        destruct (merge_plan custom ccs tree0 colours) as [[l|] ws]; simpl.
        -- now rewrite write_texts_app.
        -- reflexivity.
      * simpl. now rewrite printed_nil.
    + rewrite IH by exact Hs.
      destruct (merge_plan custom ccs tree0 colours) as [l ws]; simpl.
      now rewrite printed_app.
Qed.

Lemma modify_colours_xml_run input_file custom_colours_file w :
  modify_colours_xml input_file custom_colours_file w =
  match files w input_file with
  | Raise e => (Failed (Exn e), w)
  | Ok tree =>
      match files w custom_colours_file with
      | Raise e => (Failed (Exn e), w)
      | Ok custom =>
          let plan :=
            merge_plan custom (findall custom [] "Colour")
                       tree (findall tree [] "Colour") in
          match fst plan with
          | None =>
              (Failed (AttributeError "'NoneType' object has no attribute 'text'"),
               printed w (snd plan))
          | Some l =>
              (Done tt,
               {| files := fun p => if String.eqb p input_file
                                    then Ok (write_texts tree l) else files w p;
                  clock_reads := clock_reads w;
                  model_calls := model_calls w;
                  stdout :=
                    (stdout w ++ snd plan ++ [colours_message input_file])%list |})
          end
      end
  end.
Proof.
  unfold modify_colours_xml, sbind, run, ET_parse.
  destruct (files w input_file) as [tree|e]; [|reflexivity].
  destruct (files w custom_colours_file) as [custom|e]; [|reflexivity].
  rewrite (merge_colours_run custom tree) by apply same_shape_refl.
  cbv zeta.
  destruct (fst (merge_plan custom (findall custom [] "Colour") tree
                   (findall tree [] "Colour"))) as [l|]; [|reflexivity].
  unfold ET_write, print, printed. simpl. now rewrite <- app_assoc.
Qed.


(** *** The assignments of a merge *)

Lemma py_eq_eq x y : py_eq x y = true <-> x = y.
Proof.
  destruct x as [a|], y as [b|]; simpl; try (split; congruence).
  rewrite String.eqb_eq. split; congruence.
Qed.

Lemma partner_some custom cc tree colours colour :
  partner custom cc tree colours = Some colour ->
  In colour colours /\ ref_get tree colour "id" = ref_get custom cc "id".
Proof.
  unfold partner. intros H. apply find_some in H as [Hin Hm].
  split; [exact Hin | now apply py_eq_eq].
Qed.

Lemma partner_none custom cc tree colours :
  partner custom cc tree colours = None <->
  existsb (id_match custom cc tree) colours = false.
Proof.
  unfold partner. induction colours as [|c colours IH]; simpl; [tauto|].
  destruct (id_match custom cc tree c); simpl; [split; discriminate | exact IH].
Qed.

Lemma band_writes_some custom cc tree colour : forall bands l,
  band_writes custom cc tree colour bands = Some l ->
  (forall wr, In wr l ->
     exists band, In band bands /\ band_write custom cc tree colour band = Some wr) /\
  (forall band, In band bands ->
     exists wr, In wr l /\ band_write custom cc tree colour band = Some wr).
Proof.
  induction bands as [|band bands IH]; simpl; intros l H.
  - inversion H; subst. split; intros ? [].
  - destruct (band_write custom cc tree colour band) as [wr0|] eqn:E0; [|discriminate].
    destruct (band_writes custom cc tree colour bands) as [l0|]; [|discriminate].
    inversion H; subst. destruct (IH l0 eq_refl) as [H1 H2]. split.
    + intros wr [<-|Hin]; [eauto|].
      destruct (H1 wr Hin) as (b & Hb & Hw). eauto.
    + intros b [<-|Hb]; [exists wr0; split; [now left | exact E0]|].
      destruct (H2 b Hb) as (wr & Hin & Hw). exists wr. split; [now right | exact Hw].
Qed.

Lemma band_writes_none custom cc tree colour : forall bands,
  band_writes custom cc tree colour bands = None <->
  exists band, In band bands /\
               (find custom cc band = None \/ find tree colour band = None).
Proof.
  induction bands as [|band bands IH]; simpl.
  - split; [discriminate | intros (? & [] & _)].
  - unfold band_write at 1.
    destruct (find custom cc band) as [cv|] eqn:Ec.
    2:{ split; [|reflexivity]. intros _. exists band. auto. }
    destruct (find tree colour band) as [tv|] eqn:Et.
    2:{ split; [|reflexivity]. intros _. exists band. auto. }
    destruct (band_writes custom cc tree colour bands) as [l|].
    + split; [discriminate|]. intros (b & [<-|Hb] & Hn).
      * destruct Hn; congruence.
      * exfalso. assert (H : Some l = None); [|discriminate].
        apply IH. eauto.
    + split; [|reflexivity]. intros _.
      destruct (proj1 IH eq_refl) as (b & Hb & Hn). exists b. auto.
Qed.

(** The target of an assignment is a child of the colour, tagged with
    the band. *)
Lemma band_write_target custom cc tree colour band wr :
  band_write custom cc tree colour band = Some wr ->
  exists cv e i,
    find custom cc band = Some cv /\ snd wr = ref_text custom cv /\
    find tree colour band = Some (fst wr) /\
    resolve tree (fst wr) = Some e /\ tag e = band /\
    fst wr = (colour ++ [i])%list.
Proof.
  unfold band_write. destruct (find custom cc band) as [cv|]; [|discriminate].
  destruct (find tree colour band) as [tv|] eqn:Et; [|discriminate].
  intros H. inversion H; subst. simpl.
  destruct (find_resolve _ _ _ _ Et) as (e & He & Ht & i & Hi).
  exists cv, e, i. repeat split; auto.
Qed.

(** The assignments of a merge that succeeds come each from a custom
    colour, its partner and a band. *)
Lemma merge_plan_writes custom tree colours : forall ccs l,
  fst (merge_plan custom ccs tree colours) = Some l ->
  forall wr, In wr l ->
    exists cc colour band,
      In cc ccs /\ partner custom cc tree colours = Some colour /\
      In band colour_bands /\
      band_write custom cc tree colour band = Some wr.
Proof.
  induction ccs as [|cc ccs IH]; cbn [merge_plan fst]; intros l H wr Hin.
  - inversion H; subst. contradiction.
  - destruct (partner custom cc tree colours) as [colour|] eqn:Ep.
    + destruct (band_writes custom cc tree colour colour_bands) as [l1|] eqn:Eb;
        [|discriminate].
      destruct (merge_plan custom ccs tree colours) as [[l2|] ws]; cbn [fst snd option_map] in *;
        [|discriminate].
      inversion H; subst. apply in_app_or in Hin as [Hin|Hin].
      * destruct (proj1 (band_writes_some _ _ _ _ _ _ Eb) wr Hin) as (b & Hb & Hw).
        exists cc, colour, b. repeat split; auto. now left.
      * destruct (IH l2 eq_refl wr Hin) as (cc' & c' & b & Hc & Hp & Hb & Hw).
        exists cc', c', b. repeat split; auto. now right.
    + destruct (merge_plan custom ccs tree colours) as [l2 ws]; cbn [fst snd option_map] in *.
      destruct (IH l H wr Hin) as (cc' & c' & b & Hc & Hp & Hb & Hw).
      exists cc', c', b. repeat split; auto. now right.
Qed.

Lemma merge_plan_warnings custom tree colours : forall ccs l,
  fst (merge_plan custom ccs tree colours) = Some l ->
  snd (merge_plan custom ccs tree colours)
  = List.map (fun cc => colour_warning (ref_get custom cc "id"))
      (List.filter (fun cc => negb (existsb (id_match custom cc tree) colours)) ccs).
Proof.
  induction ccs as [|cc ccs IH];
    cbn [merge_plan fst snd List.map List.filter]; intros l H; [reflexivity|].
  destruct (partner custom cc tree colours) as [colour|] eqn:Ep.
  - assert (Hex : existsb (id_match custom cc tree) colours = true).
    { destruct (existsb _ colours) eqn:E; [reflexivity|].
      apply partner_none in E. congruence. }
    rewrite Hex. cbn [negb].
    destruct (band_writes custom cc tree colour colour_bands) as [l1|];
      [|discriminate].
    destruct (merge_plan custom ccs tree colours) as [[l2|] ws]; cbn [fst snd option_map] in *;
      [|discriminate].
    now apply (IH l2).
  - apply partner_none in Ep. rewrite Ep. cbn [negb List.map].
    destruct (merge_plan custom ccs tree colours) as [l2 ws]; cbn [fst snd option_map] in *.
    f_equal. now apply (IH l).
Qed.

Lemma merge_plan_split custom tree colours cc post : forall pre l,
  fst (merge_plan custom (pre ++ cc :: post) tree colours) = Some l ->
  exists lpre lcc lpost,
    l = (lpre ++ lcc ++ lpost)%list /\
    fst (merge_plan custom post tree colours) = Some lpost /\
    match partner custom cc tree colours with
    | Some colour => band_writes custom cc tree colour colour_bands = Some lcc
    | None => lcc = []
    end.
Proof.
  induction pre as [|c pre IH]; intros l H.
  - cbn [app merge_plan] in H.
    destruct (partner custom cc tree colours) as [colour|].
    + destruct (band_writes custom cc tree colour colour_bands) as [l1|];
        [|discriminate].
      destruct (merge_plan custom post tree colours) as [[l2|] ws]; cbn [fst snd option_map] in *;
        [|discriminate].
      inversion H; subst. exists [], l1, l2. auto.
    + destruct (merge_plan custom post tree colours) as [l2 ws]; cbn [fst snd option_map] in *.
      exists [], [], l. auto.
  - cbn [app merge_plan] in H.
    destruct (partner custom c tree colours) as [colour|].
    + destruct (band_writes custom c tree colour colour_bands) as [l1|];
        [|discriminate].
      destruct (merge_plan custom (pre ++ cc :: post) tree colours)
        as [[l2|] ws]; cbn [fst snd option_map] in *; [|discriminate].
      inversion H; subst.
      destruct (IH l2 eq_refl) as (lpre & lcc & lpost & -> & Hpost & Hcc).
      exists (l1 ++ lpre)%list, lcc, lpost. rewrite <- app_assoc. auto.
    + destruct (merge_plan custom (pre ++ cc :: post) tree colours)
        as [l2 ws]; cbn [fst snd option_map] in *.
      destruct (IH l H) as (lpre & lcc & lpost & -> & Hpost & Hcc).
      exists lpre, lcc, lpost. auto.
Qed.

Lemma merge_plan_none custom tree colours : forall ccs,
  (exists cc colour band,
      In cc ccs /\ partner custom cc tree colours = Some colour /\
      In band colour_bands /\
      (find custom cc band = None \/ find tree colour band = None)) ->
  fst (merge_plan custom ccs tree colours) = None.
Proof.
  induction ccs as [|cc ccs IH]; intros (c & colour & band & Hin & Hp & Hb & Hn).
  - contradiction.
  - cbn [merge_plan]. destruct Hin as [<-|Hin].
    + rewrite Hp.
      assert (E : band_writes custom cc tree colour colour_bands = None).
      { apply band_writes_none. eauto. }
      now rewrite E.
    + assert (E : fst (merge_plan custom ccs tree colours) = None).
      { apply IH. exists c, colour, band. auto. }
      destruct (partner custom cc tree colours) as [colour'|].
      * destruct (band_writes custom cc tree colour' colour_bands); [|reflexivity].
        destruct (merge_plan custom ccs tree colours) as [l2 ws];
          cbn [fst snd option_map] in *.
        now rewrite E.
      * destruct (merge_plan custom ccs tree colours) as [l2 ws];
          cbn [fst snd option_map] in *.
        exact E.
Qed.

(** *** The tree after the assignments *)

Lemma skeleton_write_texts l : forall tree r,
  skeleton <$> resolve (write_texts tree l) r = skeleton <$> resolve tree r.
Proof.
  induction l as [|[r0 v] l IH]; intros tree r; simpl; [reflexivity|].
  rewrite IH. apply skeleton_ref_set_text.
Qed.

Lemma resolve_write_texts_some l : forall tree r,
  is_Some (resolve (write_texts tree l) r) <-> is_Some (resolve tree r).
Proof.
  induction l as [|[r0 v] l IH]; intros tree r; simpl; [reflexivity|].
  rewrite IH. apply resolve_ref_set_text_some.
Qed.

Lemma ref_text_write_texts_other l : forall tree r,
  (forall wr, In wr l -> fst wr <> r) ->
  ref_text (write_texts tree l) r = ref_text tree r.
Proof.
  induction l as [|[r0 v] l IH]; intros tree r H; simpl; [reflexivity|].
  rewrite IH by (intros wr Hin; apply H; now right).
  apply ref_text_ref_set_text_other. intros ->. apply (H (r0, v)); [now left | reflexivity].
Qed.

Lemma resolve_write_texts_off l : forall tree r,
  (forall wr, In wr l -> ~ r `prefix_of` fst wr) ->
  resolve (write_texts tree l) r = resolve tree r.
Proof.
  induction l as [|[r0 v] l IH]; intros tree r H; simpl; [reflexivity|].
  rewrite IH by (intros wr Hin; apply H; now right).
  apply resolve_ref_set_text_off. apply (H (r0, v)). now left.
Qed.

(** The last assignment to an element gives it its text. *)
Lemma ref_text_write_texts_last l1 r v l2 tree :
  (forall wr, In wr l2 -> fst wr <> r) ->
  is_Some (resolve tree r) ->
  ref_text (write_texts tree (l1 ++ (r, v) :: l2)) r = v.
Proof.
  intros H Hr. rewrite write_texts_app. simpl.
  rewrite ref_text_write_texts_other by exact H.
  apply ref_text_ref_set_text_at. now apply resolve_write_texts_some.
Qed.

Lemma targets_dec (l : list write) r :
  (forall wr, In wr l -> fst wr <> r) \/ (exists wr, In wr l /\ fst wr = r).
Proof.
  induction l as [|wr l IH]; [left; intros ? []|].
  destruct (decide (fst wr = r)) as [E|E]; [right; exists wr; split; [now left | exact E]|].
  destruct IH as [IH|(wr' & Hin & E')].
  - left. intros wr' [<-|Hin]; auto.
  - right. exists wr'. split; [now right | exact E'].
Qed.


(** *** What a merge does *)

Lemma findall_root tree t c :
  In c (findall tree [] t) -> exists i, c = [i].
Proof.
  intros H. apply findall_resolve in H as (_ & _ & _ & i & ->). eauto.
Qed.

(** X4: after a merge that returns, the document written has the tags,
    attributes and tails it had, and the same elements; a text has
    changed only on the first child tagged [R], [G] or [B] of a
    [Colour] child of the root that is the first with the id of some
    custom colour; no other file is written. *)
Theorem colours_frame input_file custom_colours_file w w' tree custom :
  files w input_file = Ok tree ->
  files w custom_colours_file = Ok custom ->
  modify_colours_xml input_file custom_colours_file w = (Done tt, w') ->
  exists tree',
    files w' input_file = Ok tree' /\
    (forall r, skeleton <$> resolve tree' r = skeleton <$> resolve tree r) /\
    (forall r, ref_text tree' r <> ref_text tree r ->
       exists cc colour band,
         In cc (findall custom [] "Colour") /\
         partner custom cc tree (findall tree [] "Colour") = Some colour /\
         In band colour_bands /\
         find tree colour band = Some r) /\
    (forall p, p <> input_file -> files w' p = files w p).
Proof.
  intros Hf Hc. rewrite modify_colours_xml_run, Hf, Hc. cbv zeta.
  destruct (fst (merge_plan custom (findall custom [] "Colour") tree
                   (findall tree [] "Colour"))) as [l|] eqn:E; [|discriminate].
  intros H. inversion H; subst; clear H. simpl. rewrite String.eqb_refl.
  eexists. split; [reflexivity|]. split; [|split].
  - intros r. apply skeleton_write_texts.
  - intros r Hr. destruct (targets_dec l r) as [Hno|(wr & Hin & <-)].
    + exfalso. apply Hr. now apply ref_text_write_texts_other.
    + destruct (merge_plan_writes _ _ _ _ _ E wr Hin)
        as (cc & colour & band & Hcc & Hp & Hb & Hw).
      destruct (band_write_target _ _ _ _ _ _ Hw) as (cv & e & i & _ & _ & Ht & _).
      exists cc, colour, band. auto.
  - intros p Hp. apply String.eqb_neq in Hp. now rewrite Hp.
Qed.

Lemma colours_frame_witness :
  exists tree',
    files (snd (modify_colours_xml "Colours.xml" "Colours-Custom.xml" sample_world))
      "Colours.xml" = Ok tree' /\
    (forall r, skeleton <$> resolve tree' r = skeleton <$> resolve sample_colours r) /\
    (forall r, ref_text tree' r <> ref_text sample_colours r ->
       exists cc colour band,
         In cc (findall sample_custom_colours [] "Colour") /\
         partner sample_custom_colours cc sample_colours
           (findall sample_colours [] "Colour") = Some colour /\
         In band colour_bands /\
         find sample_colours colour band = Some r) /\
    (forall p, p <> "Colours.xml" ->
       files (snd (modify_colours_xml "Colours.xml" "Colours-Custom.xml" sample_world)) p
       = files sample_world p).
Proof.
  apply (colours_frame "Colours.xml" "Colours-Custom.xml" sample_world
           (snd (modify_colours_xml "Colours.xml" "Colours-Custom.xml" sample_world))
           sample_colours sample_custom_colours); reflexivity.
Defined.

Lemma band_tags_differ custom cc tree colour b1 b2 wr1 wr2 :
  band_write custom cc tree colour b1 = Some wr1 ->
  band_write custom cc tree colour b2 = Some wr2 ->
  b1 <> b2 -> fst wr1 <> fst wr2.
Proof.
  intros H1 H2 Hne E.
  destruct (band_write_target _ _ _ _ _ _ H1) as (_ & e1 & _ & _ & _ & _ & He1 & Ht1 & _).
  destruct (band_write_target _ _ _ _ _ _ H2) as (_ & e2 & _ & _ & _ & _ & He2 & Ht2 & _).
  rewrite E in He1. congruence.
Qed.

Lemma band_writes_last custom cc tree colour : forall bands l band,
  List.NoDup bands ->
  band_writes custom cc tree colour bands = Some l ->
  In band bands ->
  exists l1 wr l2,
    l = (l1 ++ wr :: l2)%list /\
    band_write custom cc tree colour band = Some wr /\
    forall wr', In wr' l2 -> fst wr' <> fst wr.
Proof.
  induction bands as [|b bands IH]; intros l band Hnd H Hin; [contradiction|].
  cbn [band_writes] in H.
  destruct (band_write custom cc tree colour b) as [wr0|] eqn:E0; [|discriminate].
  destruct (band_writes custom cc tree colour bands) as [l0|] eqn:E; [|discriminate].
  inversion H; subst; clear H. inversion Hnd as [|? ? Hnotin Hnd']; subst.
  destruct Hin as [<-|Hin].
  - exists [], wr0, l0. split; [reflexivity|]. split; [exact E0|].
    intros wr' Hwr'.
    destruct (proj1 (band_writes_some _ _ _ _ _ _ E) wr' Hwr') as (b' & Hb' & Hw').
    eapply band_tags_differ; eauto. intros ->. contradiction.
  - destruct (IH l0 band Hnd' eq_refl Hin) as (l1 & wr & l2 & -> & Hw & Hlast).
    exists (wr0 :: l1), wr, l2. auto.
Qed.

Lemma colour_bands_NoDup : List.NoDup colour_bands.
Proof.
  unfold colour_bands. repeat constructor; simpl; intuition discriminate.
Qed.

(** X5: after a merge that returns, the colour that is the first of
    the document with the id of a custom colour has, on its first [R],
    [G] and [B] children, the texts of those of the custom colour,
    provided no later custom colour has the same id: of several custom
    colours with one id the last one wins.  The ids compared may both
    be absent. *)
Theorem colours_copied input_file custom_colours_file w w' tree custom
    pre cc post colour :
  files w input_file = Ok tree ->
  files w custom_colours_file = Ok custom ->
  modify_colours_xml input_file custom_colours_file w = (Done tt, w') ->
  findall custom [] "Colour" = (pre ++ cc :: post)%list ->
  (forall cc', In cc' post -> ref_get custom cc' "id" <> ref_get custom cc "id") ->
  partner custom cc tree (findall tree [] "Colour") = Some colour ->
  exists tree',
    files w' input_file = Ok tree' /\
    forall band, In band colour_bands ->
      exists cv tv,
        find custom cc band = Some cv /\
        find tree colour band = Some tv /\
        ref_text tree' tv = ref_text custom cv.
Proof.
  intros Hf Hc Hrun Hsplit Hlast Hp.
  rewrite modify_colours_xml_run, Hf, Hc in Hrun. cbv zeta in Hrun.
  destruct (fst (merge_plan custom (findall custom [] "Colour") tree
                   (findall tree [] "Colour"))) as [l|] eqn:E; [|discriminate].
  inversion Hrun; subst; clear Hrun. simpl. rewrite String.eqb_refl.
  eexists. split; [reflexivity|].
  intros band Hband.
  rewrite Hsplit in E.
  destruct (merge_plan_split _ _ _ _ _ _ _ E) as (lpre & lcc & lpost & -> & Hpost & Hcc).
  rewrite Hp in Hcc.
  destruct (band_writes_last _ _ _ _ _ _ band colour_bands_NoDup Hcc Hband)
    as (l1 & wr & l2 & -> & Hw & Hl2).
  destruct (band_write_target _ _ _ _ _ _ Hw)
    as (cv & e & i & Hcv & Hv & Htv & He & Ht & Hi).
  exists cv, (fst wr). split; [exact Hcv|]. split; [exact Htv|].
  rewrite <- Hv.
  replace (lpre ++ (l1 ++ wr :: l2) ++ lpost)%list
    with ((lpre ++ l1) ++ (fst wr, snd wr) :: (l2 ++ lpost))%list
    by (destruct wr; simpl; now rewrite <- !app_assoc).
  apply ref_text_write_texts_last; [|eauto].
  intros wr' Hin. apply in_app_or in Hin as [Hin|Hin]; [now apply Hl2|].
  destruct (merge_plan_writes _ _ _ _ _ Hpost wr' Hin)
    as (cc' & colour' & band' & Hcc' & Hp' & _ & Hw').
  destruct (band_write_target _ _ _ _ _ _ Hw')
    as (_ & _ & i' & _ & _ & _ & _ & _ & Hi').
  apply partner_some in Hp as [Hin1 Hid1].
  apply partner_some in Hp' as [Hin2 Hid2].
  destruct (findall_root _ _ _ Hin1) as [j ->].
  destruct (findall_root _ _ _ Hin2) as [j' ->].
  rewrite Hi, Hi'. simpl. intros Heq. inversion Heq; subst.
  apply (Hlast cc' Hcc'). congruence.
Qed.

Lemma colours_copied_witness :
  exists tree',
    files (snd (modify_colours_xml "Colours.xml" "Colours-Custom.xml" sample_world))
      "Colours.xml" = Ok tree' /\
    forall band, In band colour_bands ->
      exists cv tv,
        find sample_custom_colours [4%nat] band = Some cv /\
        find sample_colours [1%nat] band = Some tv /\
        ref_text tree' tv = ref_text sample_custom_colours cv.
Proof.
  apply (colours_copied "Colours.xml" "Colours-Custom.xml" sample_world
           (snd (modify_colours_xml "Colours.xml" "Colours-Custom.xml" sample_world))
           sample_colours sample_custom_colours
           [[0%nat]; [1%nat]; [2%nat]; [3%nat]] [4%nat] [] [1%nat]);
    try reflexivity.
  intros cc' [].
Defined.

(** X6: after a merge that returns, a colour of the document that is
    not the first with the id of any custom colour is as it was, with
    all it contains. *)
Theorem colours_unmatched input_file custom_colours_file w w' tree custom colour :
  files w input_file = Ok tree ->
  files w custom_colours_file = Ok custom ->
  modify_colours_xml input_file custom_colours_file w = (Done tt, w') ->
  In colour (findall tree [] "Colour") ->
  (forall cc, In cc (findall custom [] "Colour") ->
     partner custom cc tree (findall tree [] "Colour") <> Some colour) ->
  exists tree',
    files w' input_file = Ok tree' /\
    resolve tree' colour = resolve tree colour.
Proof.
  intros Hf Hc Hrun Hin Hno.
  rewrite modify_colours_xml_run, Hf, Hc in Hrun. cbv zeta in Hrun.
  destruct (fst (merge_plan custom (findall custom [] "Colour") tree
                   (findall tree [] "Colour"))) as [l|] eqn:E; [|discriminate].
  inversion Hrun; subst; clear Hrun. simpl. rewrite String.eqb_refl.
  eexists. split; [reflexivity|].
  apply resolve_write_texts_off. intros wr Hwr [k Hk].
  destruct (merge_plan_writes _ _ _ _ _ E wr Hwr)
    as (cc & colour' & band & Hcc & Hp & _ & Hw).
  destruct (band_write_target _ _ _ _ _ _ Hw)
    as (_ & _ & i & _ & _ & _ & _ & _ & Hi).
  apply (Hno cc Hcc). rewrite Hp. f_equal.
  apply partner_some in Hp as [Hin' _].
  destruct (findall_root _ _ _ Hin) as [j ->].
  destruct (findall_root _ _ _ Hin') as [j' ->].
  pose proof (eq_trans (eq_sym Hk) Hi) as H. simpl in H. inversion H. reflexivity.
Qed.

Lemma colours_unmatched_witness :
  exists tree',
    files (snd (modify_colours_xml "Colours.xml" "Colours-Custom.xml" sample_world))
      "Colours.xml" = Ok tree' /\
    resolve tree' [2%nat] = resolve sample_colours [2%nat].
Proof.
  apply (colours_unmatched "Colours.xml" "Colours-Custom.xml" sample_world
           (snd (modify_colours_xml "Colours.xml" "Colours-Custom.xml" sample_world))
           sample_colours sample_custom_colours [2%nat]);
    try reflexivity.
  - vm_compute. auto.
  - intros cc H. vm_compute in H.
    destruct H as [<-|[<-|[<-|[<-|[<-|[]]]]]]; vm_compute; discriminate.
Defined.

(** X7: a merge that returns has printed, in the order of the custom
    colours, one warning for each custom colour whose id no colour of
    the document has, naming the id ([None] when it is absent), and
    then the line that reports success. *)
Theorem colours_warnings input_file custom_colours_file w w' tree custom :
  files w input_file = Ok tree ->
  files w custom_colours_file = Ok custom ->
  modify_colours_xml input_file custom_colours_file w = (Done tt, w') ->
  stdout w' =
  (stdout w
   ++ List.map (fun cc => "Warning: Color ID '"
                          ++ format_optional (ref_get custom cc "id")
                          ++ "' not found in main file")%string
        (List.filter
           (fun cc =>
              negb (existsb
                      (fun colour =>
                         py_eq (ref_get tree colour "id") (ref_get custom cc "id"))
                      (findall tree [] "Colour")))
           (findall custom [] "Colour"))
   ++ [("Successfully updated Colours in " ++ input_file)%string])%list.
Proof.
  intros Hf Hc. rewrite modify_colours_xml_run, Hf, Hc. cbv zeta.
  destruct (fst (merge_plan custom (findall custom [] "Colour") tree
                   (findall tree [] "Colour"))) as [l|] eqn:E; [|discriminate].
  intros H. inversion H; subst; clear H. simpl.
  now rewrite (merge_plan_warnings _ _ _ _ _ E).
Qed.

Lemma colours_warnings_witness :
  stdout (snd (modify_colours_xml "Colours.xml" "Colours-Custom.xml" sample_world))
  = ["Warning: Color ID 'Sky' not found in main file";
     "Successfully updated Colours in Colours.xml"].
Proof.
  apply (colours_warnings "Colours.xml" "Colours-Custom.xml" sample_world
           (snd (modify_colours_xml "Colours.xml" "Colours-Custom.xml" sample_world))
           sample_colours sample_custom_colours); reflexivity.
Defined.

(** X8: a merge that fails has written no file; it fails with an
    [AttributeError] when a custom colour or the colour of the document
    it is merged into lacks a child tagged [R], [G] or [B], and with
    the error of [ET.parse] when one of the two files does not
    parse. *)
Theorem colours_failure input_file custom_colours_file w :
  (forall e w', modify_colours_xml input_file custom_colours_file w = (Failed e, w') ->
                files w' = files w) /\
  (forall tree custom cc colour band,
      files w input_file = Ok tree ->
      files w custom_colours_file = Ok custom ->
      In cc (findall custom [] "Colour") ->
      partner custom cc tree (findall tree [] "Colour") = Some colour ->
      In band colour_bands ->
      find custom cc band = None \/ find tree colour band = None ->
      exists msg w',
        modify_colours_xml input_file custom_colours_file w
          = (Failed (AttributeError msg), w')) /\
  (forall e,
      files w input_file = Raise e ->
      modify_colours_xml input_file custom_colours_file w = (Failed (Exn e), w)) /\
  (forall tree e,
      files w input_file = Ok tree ->
      files w custom_colours_file = Raise e ->
      modify_colours_xml input_file custom_colours_file w = (Failed (Exn e), w)).
Proof.
  rewrite modify_colours_xml_run. split; [|split; [|split]].
  - intros e w'. destruct (files w input_file) as [tree|e0].
    + destruct (files w custom_colours_file) as [custom|e0].
      * cbv zeta. destruct (fst (merge_plan _ _ _ _)); intros H; inversion H; reflexivity.
      * intros H; inversion H; reflexivity.
    + intros H; inversion H; reflexivity.
  - intros tree custom cc colour band Hf Hc Hcc Hp Hb Hn. rewrite Hf, Hc. cbv zeta.
    rewrite (merge_plan_none custom tree (findall tree [] "Colour")
               (findall custom [] "Colour")); [eauto|].
    exists cc, colour, band. auto.
  - intros e Hf. now rewrite Hf.
  - intros tree e Hf Hc. now rewrite Hf, Hc.
Qed.

Lemma colours_failure_witness :
  exists msg w',
    modify_colours_xml "Colours.xml" "Colours-Custom.xml" bandless_world
    = (Failed (AttributeError msg), w').
Proof.
  apply (proj1 (proj2 (colours_failure "Colours.xml" "Colours-Custom.xml"
                         bandless_world))
           sample_colours bandless_custom_colours [0%nat] [1%nat] "G").
  - reflexivity.
  - reflexivity.
  - vm_compute. auto.
  - reflexivity.
  - vm_compute. auto.
  - left. reflexivity.
Defined.


(** ** The script *)

Lemma modify_positions_xml_files P input_file w res w' :
  modify_positions_xml P input_file w = (res, w') ->
  forall p, p <> input_file -> files w' p = files w p.
Proof.
  rewrite modify_positions_xml_run.
  destruct (files w input_file) as [tree|e0].
  - destruct (annotate_all P tree (all_positions tree) w) as [[tree'|e1] w1] eqn:E;
      intros H; inversion H; subst; clear H;
      apply annotate_all_frame in E as [F _]; intros p Hp.
    + simpl. apply String.eqb_neq in Hp. now rewrite Hp, F.
    + now rewrite F.
  - intros H; inversion H; reflexivity.
Qed.

Lemma modify_profile_xml_files input_file w res w' :
  modify_profile_xml input_file w = (res, w') ->
  forall p, p <> input_file -> files w' p = files w p.
Proof.
  rewrite modify_profile_xml_run.
  destruct (files w input_file) as [tree|e0].
  - destruct (find tree [] "Version"); intros H; inversion H; subst; clear H;
      intros p Hp; [|reflexivity].
    simpl. apply String.eqb_neq in Hp. now rewrite Hp.
  - intros H; inversion H; reflexivity.
Qed.

Lemma modify_colours_xml_files input_file custom_colours_file w res w' :
  modify_colours_xml input_file custom_colours_file w = (res, w') ->
  forall p, p <> input_file -> files w' p = files w p.
Proof.
  rewrite modify_colours_xml_run.
  destruct (files w input_file) as [tree|e0].
  - destruct (files w custom_colours_file) as [custom|e0].
    + cbv zeta. destruct (fst (merge_plan _ _ _ _));
        intros H; inversion H; subst; clear H; intros p Hp; [|reflexivity].
      simpl. apply String.eqb_neq in Hp. now rewrite Hp.
    + intros H; inversion H; reflexivity.
  - intros H; inversion H; reflexivity.
Qed.

(** X9: the script writes no file but [Positions.xml], [Profile.xml]
    and [Colours.xml], whatever its outcome: [Colours-Custom.xml] is
    only read.  It stops at the first step that fails, and does not
    undo the steps before: when the positions fail nothing is written,
    and when the profile fails after the positions, [Positions.xml]
    stays rewritten. *)
Theorem main_files P w :
  (forall res w',
      main P w = (res, w') ->
      forall p, p <> "Positions.xml" -> p <> "Profile.xml" -> p <> "Colours.xml" ->
                files w' p = files w p) /\
  (forall e w1,
      modify_positions_xml P "Positions.xml" w = (Raise e, w1) ->
      main P w = (Failed (Exn e), w1) /\ files w1 = files w) /\
  (forall w1 e w2,
      modify_positions_xml P "Positions.xml" w = (Ok tt, w1) ->
      modify_profile_xml "Profile.xml" w1 = (Failed e, w2) ->
      main P w = (Failed e, w2) /\ files w2 = files w1).
Proof.
  split; [|split].
  - intros res w' H p H1 H2 H3. unfold main, sbind, run in H.
    destruct (modify_positions_xml P "Positions.xml" w) as [[[]|e1] w1] eqn:E1.
    + pose proof (modify_positions_xml_files _ _ _ _ _ E1 p H1) as F1.
      destruct (modify_profile_xml "Profile.xml" w1) as [[[]|e2] w2] eqn:E2.
      * pose proof (modify_profile_xml_files _ _ _ _ E2 p H2) as F2.
        pose proof (modify_colours_xml_files _ _ _ _ _ H p H3) as F3.
        congruence.
      * pose proof (modify_profile_xml_files _ _ _ _ E2 p H2) as F2.
        inversion H; subst. congruence.
    + pose proof (modify_positions_xml_files _ _ _ _ _ E1 p H1) as F1.
      inversion H; subst. exact F1.
  - intros e w1 H. split.
    + unfold main, sbind, run. now rewrite H.
    + eapply modify_positions_xml_raise, H.
  - intros w1 e w2 H1 H2. split.
    + unfold main, sbind, run. now rewrite H1, H2.
    + destruct (profile_failure_world "Profile.xml" w1 e w2 H2). reflexivity.
Qed.

Lemma main_files_witness :
  exists msg w1 w2,
    main (stub_platform 11.23 ticking_clock) stalled_world
    = (Failed (AttributeError msg), w2) /\
    files w2 = files w1 /\
    files w1 "Positions.xml" <> files stalled_world "Positions.xml".
Proof.
  destruct (proj2 (proj2 (main_files (stub_platform 11.23 ticking_clock)
                            stalled_world))
              (snd (modify_positions_xml (stub_platform 11.23 ticking_clock)
                      "Positions.xml" stalled_world))
              (AttributeError "'NoneType' object has no attribute 'set'")
              (snd (modify_positions_xml (stub_platform 11.23 ticking_clock)
                      "Positions.xml" stalled_world))
              eq_refl eq_refl) as [Hm Hf].
  eexists _, _, _. split; [exact Hm|]. split; [exact Hf|].
  vm_compute. discriminate.
Defined.


(** ** More on the positions *)

Lemma findall_annotated P tree r d r' t :
  findall (annotated P tree r d) r' t = findall tree r' t.
Proof. unfold annotated. now rewrite !findall_ref_set. Qed.

Lemma findall_annotated_all P : forall positions ds tree r' t,
  findall (annotated_all P tree positions ds) r' t = findall tree r' t.
Proof.
  induction positions as [|r positions IH]; intros [|d ds] tree r' t;
    simpl; try reflexivity.
  rewrite IH. apply findall_annotated.
Qed.

Lemma all_positions_annotated_all P tree positions ds :
  all_positions (annotated_all P tree positions ds) = all_positions tree.
Proof.
  unfold all_positions. rewrite !findall_annotated_all.
  f_equal. apply flat_map_ext. intros g. apply findall_annotated_all.
Qed.

(** Annotating a record with the values it carries changes nothing. *)
Lemma annotated_same P tree r d :
  ref_get tree r "MagneticVariation"
    = Some (builtin_str P (builtin_round P (d * -1) 2)) ->
  ref_get tree r "Rotation" = Some "0" ->
  annotated P tree r d = tree.
Proof.
  intros H1 H2. unfold annotated.
  rewrite (ref_set_same tree r "MagneticVariation") by exact H1.
  now apply ref_set_same.
Qed.

Lemma annotated_all_same P : forall positions ds tree,
  (forall k r d, positions !! k = Some r -> ds !! k = Some d ->
     ref_get tree r "MagneticVariation"
       = Some (builtin_str P (builtin_round P (d * -1) 2)) /\
     ref_get tree r "Rotation" = Some "0") ->
  annotated_all P tree positions ds = tree.
Proof.
  induction positions as [|r positions IH]; intros [|d ds] tree H;
    simpl; try reflexivity.
  destruct (H 0%nat r d eq_refl eq_refl) as [H1 H2].
  rewrite annotated_same by assumption.
  apply IH. intros k r' d' Hr Hd. apply (H (S k) r' d'); assumption.
Qed.

(** X10: with a model whose answer does not depend on the time, the
    positions run is idempotent: a second run that returns writes the
    document the first run wrote. *)
Theorem positions_idempotent P input_file w w1 w2 tree :
  (forall lat lon alt t1 t2,
      geo_mag_calculate P lat lon alt t1 = geo_mag_calculate P lat lon alt t2) ->
  files w input_file = Ok tree ->
  modify_positions_xml P input_file w = (Ok tt, w1) ->
  modify_positions_xml P input_file w1 = (Ok tt, w2) ->
  files w2 input_file = files w1 input_file.
Proof.
  intros Htime Hf H1 H2.
  destruct (modify_positions_xml_ok P input_file w w1 tree Hf H1)
    as (cs & ds & Lc & Ld & _ & Hf1 & _ & Hall).
  destruct (modify_positions_xml_ok P input_file w1 w2 _ Hf1 H2)
    as (cs' & ds' & Lc' & Ld' & _ & Hf2 & _ & Hall').
  rewrite Hf2, Hf1. f_equal.
  rewrite all_positions_annotated_all in *.
  apply annotated_all_same. intros k r d' Hr Hd'.
  destruct (Hall k r Hr) as (c & d & _ & Hd & lat & lon & alt & t & Hp & _ & _ & Hg).
  destruct (Hall' k r Hr)
    as (c' & d'' & _ & Hd'' & lat' & lon' & alt' & t' & Hp' & _ & _ & Hg').
  rewrite ref_get_annotated_all in Hp' by discriminate.
  rewrite Hp in Hp'. inversion Hp'; subst lat' lon' alt'.
  rewrite (Htime _ _ _ t' t), Hg in Hg'.
  assert (d' = d) as -> by congruence.
  apply ref_get_annotated_all_at with (k := k); auto.
  - apply all_positions_NoDup.
  - destruct (all_positions_resolve tree r) as (e & He & _); [|eauto].
    apply list_elem_of_In. eapply list_elem_of_lookup_2. exact Hr.
Qed.

Lemma positions_idempotent_witness :
  files (snd (modify_positions_xml (stub_platform 11.23 ticking_clock)
                "Positions.xml" sample_run_world)) "Positions.xml"
  = files sample_run_world "Positions.xml".
Proof.
  apply (positions_idempotent (stub_platform 11.23 ticking_clock) "Positions.xml"
           (one_world "Positions.xml" sample_document) sample_run_world
           (snd (modify_positions_xml (stub_platform 11.23 ticking_clock)
                   "Positions.xml" sample_run_world))
           sample_document).
  - intros lat lon alt t1 t2. reflexivity.
  - reflexivity.
  - reflexivity.
  - reflexivity.
Defined.

(** The loop raises at its first record that fails. *)
Lemma annotate_all_first_failure P : forall positions tree w e w',
  annotate_all P tree positions w = (Raise e, w') ->
  exists pre r post ds w1,
    positions = (pre ++ r :: post)%list /\
    annotate_all P tree pre w = (Ok (annotated_all P tree pre ds), w1) /\
    annotate P (annotated_all P tree pre ds) r w1 = (Raise e, w').
Proof.
  induction positions as [|r0 positions IH]; simpl; intros tree w e w' H;
    [discriminate|].
  unfold bind in H.
  destruct (annotate P tree r0 w) as [[tree1|e1] w1] eqn:E1.
  - pose proof E1 as E1'.
    apply annotate_ok in E1' as (c0 & d0 & _ & -> & _).
    destruct (IH _ _ _ _ H) as (pre & r & post & ds & w2 & -> & Hpre & Hr).
    exists (r0 :: pre), r, post, (d0 :: ds), w2. simpl. split; [reflexivity|].
    unfold bind. rewrite E1. auto.
  - inversion H; subst. exists [], r0, positions, [], w. simpl. auto.
Qed.

(** X11: what a positions run raises is raised by [ET.parse] on the
    file, by [parse_iso6709] on the [DefaultCenter] of a selected
    record, by [to_year_fraction] on a reading of the clock, or by the
    model on the coordinates of a selected record: the errors of these
    come out unchanged, and there is no other failure. *)
Theorem positions_failure_origin P input_file w e w' :
  modify_positions_xml P input_file w = (Raise e, w') ->
  files w input_file = Raise e \/
  exists tree r,
    files w input_file = Ok tree /\ In r (all_positions tree) /\
    (parse_iso6709 (ref_get tree r "DefaultCenter") = Raise e \/
     exists lat lon alt,
       parse_iso6709 (ref_get tree r "DefaultCenter") = Ok (lat, lon, alt) /\
       ((exists n, to_year_fraction P (datetime_today P n) = Raise e) \/
        exists time,
          geo_mag_calculate P lat lon (altitude_or_zero alt) time = Raise e)).
Proof.
  rewrite modify_positions_xml_run.
  destruct (files w input_file) as [tree|e0] eqn:Hf.
  2:{ intros H; inversion H; subst. now left. }
  destruct (annotate_all P tree (all_positions tree) w) as [[tree'|e1] w1] eqn:E;
    [discriminate|].
  intros H; inversion H; subst; clear H. right.
  destruct (annotate_all_first_failure _ _ _ _ _ _ E)
    as (pre & r & post & ds & w0 & Hsplit & _ & Hr).
  exists tree, r. split; [reflexivity|].
  split; [rewrite Hsplit; apply in_or_app; right; now left|].
  rewrite annotate_run in Hr.
  rewrite ref_get_annotated_all in Hr by discriminate.
  destruct (parse_iso6709 (ref_get tree r "DefaultCenter"))
    as [[[lat lon] alt]|e0]; [|inversion Hr; subst; now left].
  right. exists lat, lon, alt. split; [reflexivity|].
  destruct (to_year_fraction P (datetime_today P (clock_reads w0)))
    as [time|e0] eqn:Et; [|inversion Hr; subst; left; eauto].
  destruct (geo_mag_calculate P lat lon (altitude_or_zero alt) time)
    as [d|e0] eqn:Eg; [discriminate|].
  inversion Hr; subst. right. eauto.
Qed.

Lemma positions_failure_origin_witness :
  files (one_world "Positions.xml" broken_document) "Positions.xml"
    = Raise (format_error "north") \/
  exists tree r,
    files (one_world "Positions.xml" broken_document) "Positions.xml" = Ok tree /\
    In r (all_positions tree) /\
    (parse_iso6709 (ref_get tree r "DefaultCenter") = Raise (format_error "north") \/
     exists lat lon alt,
       parse_iso6709 (ref_get tree r "DefaultCenter") = Ok (lat, lon, alt) /\
       ((exists n,
           to_year_fraction (stub_platform 11.23 ticking_clock)
             (datetime_today (stub_platform 11.23 ticking_clock) n)
           = Raise (format_error "north")) \/
        exists time,
          geo_mag_calculate (stub_platform 11.23 ticking_clock) lat lon
            (altitude_or_zero alt) time = Raise (format_error "north"))).
Proof.
  apply (positions_failure_origin (stub_platform 11.23 ticking_clock)
           "Positions.xml" (one_world "Positions.xml" broken_document)
           (format_error "north")
           (snd (modify_positions_xml (stub_platform 11.23 ticking_clock)
                   "Positions.xml" (one_world "Positions.xml" broken_document)))).
  reflexivity.
Defined.

(** X12: a positions run that returns has read the clock and called
    the model once for each selected record and no more, and has
    printed one line, which states their number.  On a document without
    a selected record the run returns, whatever the platform, and
    writes the document back as it was. *)
Theorem positions_accounting P input_file w tree :
  files w input_file = Ok tree ->
  (forall w',
      modify_positions_xml P input_file w = (Ok tt, w') ->
      clock_reads w' = (clock_reads w + List.length (all_positions tree))%nat /\
      List.length (model_calls w')
        = (List.length (model_calls w) + List.length (all_positions tree))%nat /\
      stdout w'
        = (stdout w
           ++ [success_message (List.length (all_positions tree)) input_file])%list) /\
  (all_positions tree = [] ->
   exists w',
     modify_positions_xml P input_file w = (Ok tt, w') /\
     files w' input_file = Ok tree /\
     clock_reads w' = clock_reads w /\ model_calls w' = model_calls w /\
     stdout w' = (stdout w ++ [success_message 0 input_file])%list).
Proof.
  intros Hf. rewrite modify_positions_xml_run, Hf. split.
  - intros w'.
    destruct (annotate_all P tree (all_positions tree) w) as [[tree'|e1] w1] eqn:E;
      [|discriminate].
    intros H; inversion H; subst; clear H. simpl.
    apply annotate_all_ok in E as (_ & S & C & cs & ds & Lc & _ & M & _).
    rewrite M, length_app, S. auto.
  - intros ->. simpl. eexists. split; [reflexivity|]. simpl.
    rewrite String.eqb_refl. auto.
Qed.

Lemma positions_accounting_witness :
  clock_reads sample_run_world = 2%nat /\
  List.length (model_calls sample_run_world) = 2%nat /\
  stdout sample_run_world = [success_message 2 "Positions.xml"].
Proof.
  apply (proj1 (positions_accounting (stub_platform 11.23 ticking_clock)
                  "Positions.xml" (one_world "Positions.xml" sample_document)
                  sample_document eq_refl)).
  reflexivity.
Defined.


(** ** More on the year fraction *)

Lemma year_length y :
  (days_before_year (y + 1) - days_before_year y = days_in_year y)%Z.
Proof.
  unfold days_in_year. destruct (is_leap y) eqn:Hl; [|now apply common_year_length].
  unfold is_leap, days_before_year in *.
  replace (y + 1 - 1)%Z with y by lia.
  apply andb_true_iff in Hl as [H4 H].
  apply Z.eqb_eq in H4.
  apply orb_true_iff in H.
  rewrite negb_true_iff, Z.eqb_neq, Z.eqb_eq in H.
  Z.div_mod_to_equations. lia.
Qed.

Lemma month_fits y m :
  (1 <= m <= 12)%Z ->
  (0 <= days_before_month y m /\
   days_before_month y m + days_in_month y m <= days_in_year y)%Z.
Proof.
  intros Hm.
  assert (Hcases : (m = 1 \/ m = 2 \/ m = 3 \/ m = 4 \/ m = 5 \/ m = 6 \/ m = 7 \/
                    m = 8 \/ m = 9 \/ m = 10 \/ m = 11 \/ m = 12)%Z) by lia.
  clear Hm. unfold days_in_year, days_before_month, days_in_month.
  destruct (is_leap y);
    repeat (destruct Hcases as [->|Hcases]); try subst m;
    vm_compute; split; intros H; discriminate H.
Qed.

Lemma days_before_month_bounds y m d :
  (1 <= m <= 12)%Z -> (1 <= d <= days_in_month y m)%Z ->
  (0 <= days_before_month y m + d - 1 < days_in_year y)%Z.
Proof. intros Hm Hd. pose proof (month_fits y m Hm). lia. Qed.

Lemma mktime_fixed_differences off date :
  exists a b c,
    mktime_fixed off (timetuple date) = Ok a /\
    mktime_fixed off (timetuple (new_year (year date))) = Ok b /\
    mktime_fixed off (timetuple (new_year (year date + 1))) = Ok c /\
    a - b == inject_Z (seconds_into_year date) /\
    c - b == inject_Z (days_in_year (year date) * 86400).
Proof.
  unfold mktime_fixed. do 3 eexists.
  split; [reflexivity|]. split; [reflexivity|]. split; [reflexivity|].
  pose proof (year_length (year date)) as Hy.
  unfold seconds_into_year, timetuple, new_year, ymd2ord.
  cbn [tm_year tm_mon tm_mday tm_hour tm_min tm_sec year month day hour minute second].
  change (days_before_month (year date) 1) with 0%Z.
  change (days_before_month (year date + 1) 1) with 0%Z.
  unfold Qminus, Qeq. simpl Qnum. simpl Qden.
  split; lia.
Qed.

(** X13: where local time has a fixed offset from UTC, the year
    fraction of a date in a year from 1 to 9998 is the year plus the
    seconds the calendar counts since January 1st at midnight over the
    seconds of the year, 365 or 366 days: it does not depend on the
    offset, nor on the microseconds, and for a date that [datetime]
    can hold it lies from the year up to, and not including, the year
    plus one. *)
Theorem to_year_fraction_fixed_offset P off date :
  time_mktime P = mktime_fixed off ->
  (1 <= year date <= 9998)%Z ->
  exists q,
    to_year_fraction P date = Ok q /\
    q == inject_Z (year date)
         + inject_Z (seconds_into_year date)
           / inject_Z (days_in_year (year date) * 86400) /\
    (valid_date date ->
     inject_Z (year date) <= q /\ q < inject_Z (year date) + 1).
Proof.
  intros Hm Hy.
  destruct (mktime_fixed_differences off date) as (a & b & c & Ha & Hb & Hc & Hab & Hcb).
  assert (Hpos : (0 < days_in_year (year date) * 86400)%Z).
  { unfold days_in_year. destruct (is_leap (year date)); lia. }
  assert (Hne : ~ c == b).
  { intros E. rewrite E in Hcb. unfold Qminus in Hcb.
    rewrite Qplus_opp_r in Hcb. unfold Qeq in Hcb. simpl in Hcb. lia. }
  eexists. split; [|split].
  - apply to_year_fraction_run with (a := a) (b := b) (c := c); auto;
      rewrite Hm; assumption.
  - now rewrite Hab, Hcb.
  - intros (Hmo & Hd & Hh & Hmi & Hs). rewrite Hab, Hcb.
    pose proof (days_before_month_bounds _ _ _ Hmo Hd) as Hdays.
    assert (H0 : (0 <= seconds_into_year date)%Z) by (unfold seconds_into_year; lia).
    assert (H1 : (seconds_into_year date < days_in_year (year date) * 86400)%Z)
      by (unfold seconds_into_year; lia).
    assert (HD : 0 < inject_Z (days_in_year (year date) * 86400)).
    { rewrite <- (Zlt_Qlt 0). exact Hpos. }
    split.
    + rewrite <- (Qplus_0_r (inject_Z (year date))) at 1.
      apply Qplus_le_r. apply Qle_shift_div_l; [exact HD|].
      rewrite Qmult_0_l. rewrite <- (Zle_Qle 0). exact H0.
    + apply Qplus_lt_r. apply Qlt_shift_div_r; [exact HD|].
      rewrite Qmult_1_l. rewrite <- Zlt_Qlt. exact H1.
Qed.

Lemma to_year_fraction_fixed_offset_witness :
  exists q,
    to_year_fraction (stub_platform 0 ticking_clock) leap_day = Ok q /\
    q == inject_Z 2024
         + inject_Z (seconds_into_year leap_day) / inject_Z (days_in_year 2024 * 86400) /\
    (valid_date leap_day -> inject_Z 2024 <= q /\ q < inject_Z 2024 + 1).
Proof.
  apply (to_year_fraction_fixed_offset (stub_platform 0 ticking_clock) 0 leap_day).
  - reflexivity.
  - simpl. lia.
Defined.


(** ** More on the parser *)

Section ParserMore.

Local Open Scope list_scope.

Lemma parse_iso6709_ok s lat lon alt :
  parse_iso6709 (Some s) = Ok (lat, lon, alt) ->
  exists f, code_points s = text_of f /\ grammatical f /\ tiered f /\
            (lat, lon, alt) = decode f.
Proof.
  intros H. destruct (fullmatch pattern (code_points s)) as [m|] eqn:E.
  - destruct (parse_iso6709_match s m E) as (f & Hs & Hg & Ht & Hp).
    exists f. split; [exact Hs|]. split; [exact Hg|]. split; [exact Ht|].
    congruence.
  - rewrite (parse_iso6709_no_match s E) in H. discriminate.
Qed.

Lemma digits_bounds : forall s acc v,
  digits acc s = Some v ->
  (acc * 10 ^ Z.of_nat (List.length s) <= v
   < (acc + 1) * 10 ^ Z.of_nat (List.length s))%Z.
Proof.
  induction s as [|a s IH]; intros acc v H.
  - simpl in *. inversion H; subst. lia.
  - cbn [digits] in H. destruct (decimal a) as [d|] eqn:Ed; [|discriminate].
    apply decimal_some in Ed as [_ Ed]. apply IH in H.
    cbn [List.length]. rewrite Nat2Z.inj_succ, Z.pow_succ_r by lia.
    assert (Hp : (0 < 10 ^ Z.of_nat (List.length s))%Z)
      by (apply Z.pow_pos_nonneg; lia).
    nia.
Qed.

Lemma pow10_pos n : (0 < n)%nat -> Z.pos (pow10 n) = (10 ^ Z.of_nat n)%Z.
Proof.
  intros Hn. unfold pow10. rewrite Pos2Z.inj_pow. f_equal.
  rewrite <- positive_nat_Z, Nat2Pos.id by lia. reflexivity.
Qed.

Lemma unsigned_decimal_bounds d fr :
  d <> [] -> digits_text d -> fraction_text fr ->
  exists q, unsigned_decimal (d ++ fr) = Some q /\
            0 <= q /\ q < inject_Z (10 ^ Z.of_nat (List.length d)).
Proof.
  intros Hne Hd Hf. unfold unsigned_decimal.
  rewrite split_dot_digits by assumption.
  destruct (digits_total d Hd 0%Z) as [iv Hiv].
  pose proof (digits_bounds _ _ _ Hiv) as Biv.
  destruct Hf as [-> | (f & -> & Hfne & Hfd)].
  - simpl. rewrite app_nil_r. destruct d as [|a d]; [congruence|].
    rewrite Hiv. simpl option_map. eexists. split; [reflexivity|].
    unfold Qle, Qlt, inject_Z. simpl Qnum. simpl Qden.
    cbn [List.length] in *. lia.
  - rewrite split_dot_fraction, app_nil_r. destruct d as [|a d]; [congruence|].
    destruct f as [|b f]; [congruence|].
    destruct (digits_total _ Hfd 0%Z) as [fv Hfv].
    pose proof (digits_bounds _ _ _ Hfv) as Bfv.
    rewrite Hiv, Hfv. eexists. split; [reflexivity|].
    assert (Hp : Z.pos (pow10 (List.length (b :: f)))
                 = (10 ^ Z.of_nat (List.length (b :: f)))%Z)
      by (apply pow10_pos; simpl; lia).
    unfold Qle, Qlt, Qplus, inject_Z. simpl Qnum. simpl Qden.
    cbn [List.length] in *. rewrite Pos.mul_1_l, Hp.
    assert (Hq : (0 < 10 ^ Z.of_nat (List.length (b :: f)))%Z)
      by (apply Z.pow_pos_nonneg; lia).
    split; nia.
Qed.

Lemma number_field_bounds n s :
  (0 < n)%nat -> field_text n s ->
  0 <= number s /\ number s < inject_Z (10 ^ Z.of_nat n).
Proof.
  intros Hn (d & fr & -> & Hl & Hd & Hf).
  destruct d as [|a d]; [simpl in Hl; lia|].
  destruct (unsigned_decimal_bounds (a :: d) fr ltac:(discriminate) Hd Hf)
    as (q & Hq & H0 & H1).
  pose proof Hd as Hd'. unfold digits_text in Hd'. simpl in Hd'.
  apply andb_true_iff in Hd' as [Ha _].
  assert (E : number ((a :: d) ++ fr) = q).
  { unfold number, float.
    change ((a :: d) ++ fr) with (a :: d ++ fr) in *.
    now rewrite (signed_decimal_digit a _ Ha), Hq. }
  rewrite E, <- Hl. auto.
Qed.

Lemma axis_value_bounds n sg deg min sec :
  (0 < n)%nat -> sign_text sg -> field_text n deg ->
  opt_text (field_text 2) min -> opt_text (field_text 2) sec ->
  let bound := inject_Z (10 ^ Z.of_nat n) + 100 / 60 + 100 / 3600 in
  - bound < axis_value sg deg min sec /\ axis_value sg deg min sec < bound /\
  (sg = [ord "+"] -> 0 <= axis_value sg deg min sec) /\
  (sg = [ord "-"] -> axis_value sg deg min sec <= 0).
Proof.
  intros Hn Hs Hd Hm Hc bound.
  destruct (number_field_bounds n deg Hn Hd) as [D0 D1].
  assert (HB : 0 < inject_Z (10 ^ Z.of_nat n)).
  { rewrite <- (Zlt_Qlt 0). apply Z.pow_pos_nonneg; lia. }
  subst bound. unfold axis_value, sign_value.
  revert D0 D1 HB.
  generalize (inject_Z (10 ^ Z.of_nat n)) as B, (number deg) as D.
  intros B D D0 D1 HB.
  destruct min as [mi|], sec as [se|]; simpl in Hm, Hc;
    try (destruct (number_field_bounds 2 mi ltac:(lia) Hm) as [M0 M1];
         change (inject_Z (10 ^ Z.of_nat 2)) with 100 in M1;
         revert M0 M1; generalize (number mi) as M; intros M M0 M1);
    try (destruct (number_field_bounds 2 se ltac:(lia) Hc) as [S0 S1];
         change (inject_Z (10 ^ Z.of_nat 2)) with 100 in S1;
         revert S0 S1; generalize (number se) as S; intros S S0 S1);
    destruct Hs as [-> | ->];
    [ change (str_eqb [ord "+"] (code_points "-")) with false
    | change (str_eqb [ord "-"] (code_points "-")) with true
    | change (str_eqb [ord "+"] (code_points "-")) with false
    | change (str_eqb [ord "-"] (code_points "-")) with true
    | change (str_eqb [ord "+"] (code_points "-")) with false
    | change (str_eqb [ord "-"] (code_points "-")) with true
    | change (str_eqb [ord "+"] (code_points "-")) with false
    | change (str_eqb [ord "-"] (code_points "-")) with true ];
    cbv iota;
    unfold Qdiv; change (/ 60) with (1 # 60); change (/ 3600) with (1 # 3600);
    (split; [lra|]; split; [lra|]; split; intros E; try discriminate E; lra).
Qed.

Lemma code_points_ascii b s :
  (N_of_ascii b < 128)%N ->
  code_points (String b s) = N_of_ascii b :: code_points s.
Proof.
  intros H. unfold code_points. cbn [decode_utf8 List.map app].
  apply N.ltb_lt in H. now rewrite H.
Qed.

End ParserMore.

(** X14: the parser does not check the range of a coordinate, and what
    it can return is bounded by the widths of the fields alone: a
    latitude is below 102 in magnitude and a longitude below 1002; a
    latitude is not negative when the string starts with [+] and not
    positive when it starts with [-]. *)
Theorem parse_iso6709_range s lat lon alt :
  parse_iso6709 (Some s) = Ok (lat, lon, alt) ->
  (- 102 < lat /\ lat < 102) /\
  (- 1002 < lon /\ lon < 1002) /\
  (String.get 0 s = Some "+"%char -> 0 <= lat) /\
  (String.get 0 s = Some "-"%char -> lat <= 0).
Proof.
  intros H. apply parse_iso6709_ok in H as (f & Hs & Hg & _ & Hdec).
  destruct Hg as (Hs1 & Hd1 & Hm1 & Hc1 & Hs2 & Hd2 & Hm2 & Hc2 & _).
  unfold decode in Hdec. inversion Hdec; subst lat lon alt; clear Hdec.
  destruct (axis_value_bounds 2 _ _ _ _ ltac:(lia) Hs1 Hd1 Hm1 Hc1)
    as (A1 & A2 & A3 & A4).
  destruct (axis_value_bounds 3 _ _ _ _ ltac:(lia) Hs2 Hd2 Hm2 Hc2)
    as (B1 & B2 & _).
  change (inject_Z (10 ^ Z.of_nat 2)) with 100 in A1, A2.
  change (inject_Z (10 ^ Z.of_nat 3)) with 1000 in B1, B2.
  unfold Qdiv in A1, A2, B1, B2.
  change (/ 60) with (1 # 60) in A1, A2, B1, B2.
  change (/ 3600) with (1 # 3600) in A1, A2, B1, B2.
  split; [split; lra|]. split; [split; lra|].
  assert (Hfirst : forall c, String.get 0 s = Some c -> (N_of_ascii c < 128)%N ->
                             f_lat_sign f = [N_of_ascii c]).
  { intros c Hc Hlt. destruct s as [|b s]; [discriminate|].
    simpl in Hc. inversion Hc; subst b.
    rewrite code_points_ascii in Hs by exact Hlt.
    unfold text_of in Hs.
    destruct Hs1 as [E|E]; rewrite E in Hs |- *; inversion Hs; reflexivity. }
  split; intros Hc.
  - apply A3. apply (Hfirst _ Hc). reflexivity.
  - apply A4. apply (Hfirst _ Hc). reflexivity.
Qed.

Lemma parse_iso6709_range_witness :
  exists lat lon alt,
    parse_iso6709 (Some "-99.5+999.75") = Ok (lat, lon, alt) /\
    (- 102 < lat /\ lat < 102) /\
    (- 1002 < lon /\ lon < 1002) /\
    (String.get 0 "-99.5+999.75" = Some "+"%char -> 0 <= lat) /\
    (String.get 0 "-99.5+999.75" = Some "-"%char -> lat <= 0).
Proof.
  do 3 eexists. split; [vm_compute; reflexivity|].
  apply (parse_iso6709_range "-99.5+999.75" _ _ None). vm_compute. reflexivity.
Defined.

Section Lengths.

Local Open Scope list_scope.

Lemma decode_utf8_length : forall s pending acc need,
  (List.length (decode_utf8 pending acc need s)
   <= List.length pending + String.length s)%nat.
Proof.
  induction s as [|b s IH]; intros pending acc need; cbn [decode_utf8 String.length].
  - rewrite length_map. lia.
  - assert (Hstart :
      (List.length
         (List.map escaped pending ++
          (if (N_of_ascii b <? 128)%N then N_of_ascii b :: decode_utf8 [] 0 0 s
           else match lead b with
                | Some (bits, k) => decode_utf8 [b] bits k s
                | None => escaped b :: decode_utf8 [] 0 0 s
                end))
       <= List.length pending + S (String.length s))%nat).
    { rewrite length_app, length_map.
      destruct (N_of_ascii b <? 128)%N.
      - pose proof (IH [] 0%N 0%nat). cbn [List.length] in *. lia.
      - destruct (lead b) as [[bits k]|].
        + pose proof (IH [b] bits k). cbn [List.length] in *. lia.
        + pose proof (IH [] 0%N 0%nat). cbn [List.length] in *. lia. }
    destruct need as [|need']; [exact Hstart|].
    destruct (continuation b) as [bits|]; [|exact Hstart].
    destruct need' as [|need''].
    + destruct (well_encoded _ _).
      * pose proof (IH [] 0%N 0%nat). cbn [List.length] in *. lia.
      * pose proof (IH [] 0%N 0%nat).
        rewrite length_app, length_map, length_app. cbn [List.length] in *. lia.
    + pose proof (IH (pending ++ [b]) (acc * 64 + bits)%N (S need'')).
      rewrite length_app in H. cbn [List.length] in *. lia.
Qed.

(** A string has no more characters than bytes. *)
Lemma code_points_length s :
  (List.length (code_points s) <= String.length s)%nat.
Proof. apply (decode_utf8_length s [] 0%N 0%nat). Qed.

Lemma field_text_length n s : field_text n s -> (n <= List.length s)%nat.
Proof. intros (d & fr & -> & <- & _). rewrite length_app. lia. Qed.

Lemma coordinate_length s : coordinate s -> (7 <= List.length (code_points s))%nat.
Proof.
  intros (f & -> & Hs1 & Hd1 & _ & _ & Hs2 & Hd2 & _).
  unfold text_of. rewrite !length_app.
  apply field_text_length in Hd1, Hd2.
  destruct Hs1 as [-> | ->], Hs2 as [-> | ->]; cbn [List.length]; lia.
Qed.

End Lengths.

(** X15: every string of fewer than 7 characters, the empty string
    among them, is rejected with the format error: a coordinate has at
    least two signs, two digits of latitude and three of longitude.  So
    is every string of fewer than 7 bytes, a character taking at least
    one. *)
Theorem parse_iso6709_short s :
  (List.length (code_points s) < 7)%nat \/ (String.length s < 7)%nat ->
  parse_iso6709 (Some s) = Raise (format_error s).
Proof.
  intros H. apply parse_iso6709_rejects. intros Hc.
  apply coordinate_length in Hc. pose proof (code_points_length s). lia.
Qed.

Lemma parse_iso6709_short_witness :
  parse_iso6709 (Some "+١٢-٠٦") = Raise (format_error "+١٢-٠٦").
Proof. apply (parse_iso6709_short "+١٢-٠٦"). left. vm_compute. lia. Defined.
